(** * sjtu::list — a doubly-linked list with head/tail sentinels

    Shallow embedding of [src/list.hpp] and the properties of its
    public operations.

    Memory is modelled as two typed stores: one for the individually
    allocated [node]s and one for the [list] objects themselves (an
    iterator keeps a [const list *owner], so lists need an identity).
    A pointer is an optional location, [None] being [nullptr].  Reading
    or writing through a null or unallocated pointer is undefined
    behaviour in C++ and yields the outcome [UB] here.  Exceptions carry
    the state at the moment they are raised, so that "nothing changed
    before the failure" is a statement about the model and not a
    convention. *)

From Stdlib Require Import ZArith Lia.
From stdpp Require Import gmap list sorting.

Set Default Proof Using "Type".
Set Warnings "-clear-no-such-hyp".

(** ** Pointers, exceptions, outcomes *)

Definition loc := positive.
Bind Scope positive_scope with loc.
Abbreviation ptr := (option loc).

(** The two exception classes of [exceptions.hpp] that the container raises. *)
Inductive exn := invalid_iterator | container_is_empty.

(** [size_t] arithmetic: 64-bit unsigned with wrap-around. *)
Definition size_max : Z := 2 ^ 64.
Definition wrap (z : Z) : Z := z mod size_max.

Inductive outcome (S A : Type) : Type :=
| Ok (a : A) (s : S)        (* normal return *)
| Throw (e : exn) (s : S)   (* exception, with the state when thrown *)
| UB                        (* null / dangling dereference *)
| Timeout.                  (* loop fuel exhausted *)
Arguments Ok {S A} a s.
Arguments Throw {S A} e s.
Arguments UB {S A}.
Arguments Timeout {S A}.

Definition M (S A : Type) : Type := S → outcome S A.

Definition ret {S A} (a : A) : M S A := λ s, Ok a s.
Definition bind {S A B} (m : M S A) (k : A → M S B) : M S B :=
  λ s, match m s with
       | Ok a s' => k a s'
       | Throw e s' => Throw e s'
       | UB => UB
       | Timeout => Timeout
       end.
Definition throw {S A} (e : exn) : M S A := λ s, Throw e s.
Definition timeout {S A} : M S A := λ _, Timeout.
(** [if (b) throw e;] *)
Definition throw_if {S} (b : bool) (e : exn) : M S unit :=
  if b then throw e else ret tt.
(** Call for effect only. *)
Definition void {S A} (m : M S A) : M S unit := bind m (λ _, ret tt).
Definition get {S} : M S S := λ s, Ok s s.
Definition put {S} (s : S) : M S unit := λ _, Ok tt s.
(** A read that is undefined when there is nothing to read. *)
Definition rd {S A} (o : option A) : M S A :=
  λ s, match o with Some a => Ok a s | None => UB end.

(** *** How a computation can end *)

(** [m] never raises. *)
Definition no_throw {S A} (m : M S A) : Prop := ∀ s e s', m s ≠ Throw e s'.
(** [m] does not change the state when it returns. *)
Definition reads_only {S A} (m : M S A) : Prop := ∀ s a s', m s = Ok a s' → s' = s.
(** If [m] raises, the state is the one it was started in. *)
Definition throws_clean {S A} (m : M S A) : Prop := ∀ s e s', m s = Throw e s' → s' = s.

Declare Scope mon_scope.
Delimit Scope mon_scope with mon.
Notation "x <- m ;; k" := (bind m (λ x, k))
  (at level 100, m at level 99, k at level 200, right associativity) : mon_scope.
Notation "m ;; k" := (bind m (λ _, k))
  (at level 100, k at level 200, right associativity) : mon_scope.
Open Scope mon_scope.

(** ** The data model of [list<T>] *)

Section List.

Context {T : Type}.
(** [operator<] and [operator==] of the element type. *)
Variable ltb : T → T → bool.
Variable eqb : T → T → bool.
(** [sjtu::sort] of [algorithm.hpp], which is not among the sources:
    some rearrangement of an array of node pointers, directed by the
    comparison it is given. *)
Variable sort_alg : (ptr → ptr → bool) → list ptr → list ptr.

(** [class node]: [val] is [nullptr] for sentinels, a heap-allocated
    [T] for data nodes; the [T] is owned by the node (its destructor
    deletes it), so it is stored inline. *)
Record node := Node { prev : ptr; next : ptr; val : option T }.

(** The data members of [class list]. *)
Record list_rep := ListRep { head : ptr; tail : ptr; n : Z }.

Record heap := Heap { nodes : gmap loc node; lists : gmap loc list_rep }.

(** [class iterator] and [class const_iterator] have the same members. *)
Record iterator := Iter { p : ptr; owner : ptr }.

Definition is_null (q : ptr) : bool := bool_decide (q = None).
Definition ptr_eqb (a b : ptr) : bool := bool_decide (a = b).

Definition node_at (h : heap) (q : ptr) : option node :=
  match q with Some l => nodes h !! l | None => None end.
Definition list_at (h : heap) (q : ptr) : option list_rep :=
  match q with Some l => lists h !! l | None => None end.

(** *** Memory primitives of the node store *)

Definition load (q : ptr) : M heap node := λ h, rd (node_at h q) h.

Definition store (q : ptr) (f : node → node) : M heap unit :=
  λ h, match q with
       | Some l =>
           match nodes h !! l with
           | Some nd => Ok tt (Heap (<[l := f nd]> (nodes h)) (lists h))
           | None => UB
           end
       | None => UB
       end.

Definition get_prev (q : ptr) : M heap ptr := nd <- load q ;; ret (prev nd).
Definition get_next (q : ptr) : M heap ptr := nd <- load q ;; ret (next nd).
Definition get_val (q : ptr) : M heap (option T) := nd <- load q ;; ret (val nd).
Definition set_prev (q v : ptr) : M heap unit :=
  store q (λ nd, Node v (next nd) (val nd)).
Definition set_next (q v : ptr) : M heap unit :=
  store q (λ nd, Node (prev nd) v (val nd)).

(** [*(q->val)]: two dereferences. *)
Definition get_elem (q : ptr) : M heap T := v <- get_val q ;; rd v.

(** [new node()] / [new node(v)]: a location not in use. *)
Definition new_node (v : option T) : M heap ptr :=
  λ h, let l := fresh (dom (nodes h)) in
       Ok (Some l) (Heap (<[l := Node None None v]> (nodes h)) (lists h)).

(** [delete q]: a no-op on [nullptr], undefined on a dangling pointer. *)
Definition delete_node (q : ptr) : M heap unit :=
  λ h, match q with
       | None => Ok tt h
       | Some l =>
           match nodes h !! l with
           | Some _ => Ok tt (Heap (delete l (nodes h)) (lists h))
           | None => UB
           end
       end.

(** *** Access to the members of [*this] *)

Definition load_list (this : loc) : M heap list_rep :=
  λ h, rd (lists h !! this) h.
Definition store_list (this : loc) (f : list_rep → list_rep) : M heap unit :=
  λ h, match lists h !! this with
       | Some r => Ok tt (Heap (nodes h) (<[this := f r]> (lists h)))
       | None => UB
       end.
Definition get_head (this : loc) : M heap ptr := r <- load_list this ;; ret (head r).
Definition get_tail (this : loc) : M heap ptr := r <- load_list this ;; ret (tail r).
Definition get_n (this : loc) : M heap Z := r <- load_list this ;; ret (n r).
Definition set_head (this : loc) (v : ptr) : M heap unit :=
  store_list this (λ r, ListRep v (tail r) (n r)).
Definition set_tail (this : loc) (v : ptr) : M heap unit :=
  store_list this (λ r, ListRep (head r) v (n r)).
Definition set_n (this : loc) (v : Z) : M heap unit :=
  store_list this (λ r, ListRep (head r) (tail r) v).
(** The member initialisers of a constructor, and the end of the
    object's lifetime after its destructor. *)
Definition init_members (this : loc) (r : list_rep) : M heap unit :=
  λ h, Ok tt (Heap (nodes h) (<[this := r]> (lists h))).
Definition end_lifetime (this : loc) : M heap unit :=
  λ h, Ok tt (Heap (nodes h) (delete this (lists h))).
(** [++n] and [--n] on a [size_t]. *)
Definition incr_n (this : loc) : M heap unit :=
  k <- get_n this ;; set_n this (wrap (k + 1)).
Definition decr_n (this : loc) : M heap unit :=
  k <- get_n this ;; set_n this (wrap (k - 1)).

(** ** 4.1 Topology primitives (the protected [insert] / [erase]) *)

(** [node *insert(node *pos, node *cur)]: link [cur] before [pos]. *)
Definition node_insert (pos cur : ptr) : M heap ptr :=
  set_next cur pos ;;
  pp <- get_prev pos ;;
  set_prev cur pp ;;
  pp <- get_prev pos ;;
  set_next pp cur ;;
  set_prev pos cur ;;
  ret cur.

(** [node *erase(node *pos)]: unlink [pos], do not delete it. *)
Definition node_erase (pos : ptr) : M heap ptr :=
  pp <- get_prev pos ;;
  pn <- get_next pos ;;
  set_next pp pn ;;
  pn <- get_next pos ;;
  pp <- get_prev pos ;;
  set_prev pn pp ;;
  set_next pos None ;;
  set_prev pos None ;;
  ret pos.

(** ** 4.3 Iterators

    An iterator method runs on the iterator object (its state is the
    pair of members [p], [owner]); the list is reached through
    [const list *owner] and is only read. *)

(** [iterator operator++(int)] *)
Definition it_post_incr (h : heap) : M iterator iterator :=
  it <- get ;;
  throw_if (is_null (owner it) || is_null (p it)) invalid_iterator ;;
  o <- rd (list_at h (owner it)) ;;
  throw_if (ptr_eqb (p it) (tail o)) invalid_iterator ;;
  let tmp := it in
  nd <- rd (node_at h (p it)) ;;
  put (Iter (next nd) (owner it)) ;;
  ret tmp.

(** [iterator &operator++()] *)
Definition it_pre_incr (h : heap) : M iterator unit :=
  it <- get ;;
  throw_if (is_null (owner it) || is_null (p it)) invalid_iterator ;;
  o <- rd (list_at h (owner it)) ;;
  throw_if (ptr_eqb (p it) (tail o)) invalid_iterator ;;
  nd <- rd (node_at h (p it)) ;;
  put (Iter (next nd) (owner it)).

(** The common body of the two decrements, after [tmp] is saved. *)
Definition it_retreat (h : heap) (it : iterator) (o : list_rep) : M iterator unit :=
  if ptr_eqb (p it) (tail o) then
    throw_if (n o =? 0)%Z invalid_iterator ;;
    tl <- rd (node_at h (tail o)) ;;
    put (Iter (prev tl) (owner it))
  else
    nd <- rd (node_at h (p it)) ;;
    put (Iter (prev nd) (owner it)).

(** [iterator operator--(int)] *)
Definition it_post_decr (h : heap) : M iterator iterator :=
  it <- get ;;
  throw_if (is_null (owner it) || is_null (p it)) invalid_iterator ;;
  o <- rd (list_at h (owner it)) ;;
  throw_if (ptr_eqb (p it) (head o)) invalid_iterator ;;
  let tmp := it in
  it_retreat h it o ;;
  ret tmp.

(** [iterator &operator--()] *)
Definition it_pre_decr (h : heap) : M iterator unit :=
  it <- get ;;
  throw_if (is_null (owner it) || is_null (p it)) invalid_iterator ;;
  o <- rd (list_at h (owner it)) ;;
  throw_if (ptr_eqb (p it) (head o)) invalid_iterator ;;
  it_retreat h it o.

(** [T &operator*() const]; the conditions are tested left to right. *)
Definition it_deref (h : heap) : M iterator T :=
  it <- get ;;
  throw_if (is_null (owner it) || is_null (p it)) invalid_iterator ;;
  o <- rd (list_at h (owner it)) ;;
  throw_if (ptr_eqb (p it) (head o) || ptr_eqb (p it) (tail o)) invalid_iterator ;;
  nd <- rd (node_at h (p it)) ;;
  match val nd with
  | None => throw invalid_iterator
  | Some v => ret v
  end.

(** [T *operator->() const]: the same test, returns [p->val] (given
    here by its pointee). *)
Definition it_arrow (h : heap) : M iterator T :=
  it <- get ;;
  throw_if (is_null (owner it) || is_null (p it)) invalid_iterator ;;
  o <- rd (list_at h (owner it)) ;;
  throw_if (ptr_eqb (p it) (head o) || ptr_eqb (p it) (tail o)) invalid_iterator ;;
  nd <- rd (node_at h (p it)) ;;
  match val nd with
  | None => throw invalid_iterator
  | Some v => ret v
  end.

Definition it_eq (a b : iterator) : bool :=
  ptr_eqb (p a) (p b) && ptr_eqb (owner a) (owner b).
Definition it_neq (a b : iterator) : bool := negb (it_eq a b).

(** [class const_iterator] repeats the bodies of [class iterator] over
    [const node *]; its converting constructor copies both members. *)
Definition const_iterator_of (it : iterator) : iterator := Iter (p it) (owner it).
Definition cit_post_incr := it_post_incr.
Definition cit_pre_incr := it_pre_incr.
Definition cit_post_decr := it_post_decr.
Definition cit_pre_decr := it_pre_decr.
Definition cit_deref := it_deref.
Definition cit_arrow := it_arrow.

(** Run an iterator method on a local iterator from inside a list method. *)
Definition on_it {A} (m : heap → M iterator A) (it : iterator) : M heap (A * iterator) :=
  λ h, match m h it with
       | Ok a it' => Ok (a, it') h
       | Throw e _ => Throw e h
       | UB => UB
       | Timeout => Timeout
       end.

(** ** 4.2 The public members of [list] *)

(** [list()]: both sentinels are allocated, the members initialised,
    and the sentinels linked to each other.  [this] is the storage the
    object is constructed in. *)
Definition list_ctor (this : loc) : M heap unit :=
  hd <- new_node None ;;
  tl <- new_node None ;;
  init_members this (ListRep hd tl 0) ;;
  hd <- get_head this ;; tl <- get_tail this ;; set_next hd tl ;;
  tl <- get_tail this ;; hd <- get_head this ;; set_prev tl hd.

Definition front (this : loc) : M heap T :=
  k <- get_n this ;;
  throw_if (k =? 0)%Z container_is_empty ;;
  hd <- get_head this ;; f <- get_next hd ;; get_elem f.

Definition back (this : loc) : M heap T :=
  k <- get_n this ;;
  throw_if (k =? 0)%Z container_is_empty ;;
  tl <- get_tail this ;; l <- get_prev tl ;; get_elem l.

Definition begin (this : loc) : M heap iterator :=
  hd <- get_head this ;; f <- get_next hd ;; ret (Iter f (Some this)).
Definition cbegin := begin.

Definition end_ (this : loc) : M heap iterator :=
  tl <- get_tail this ;; ret (Iter tl (Some this)).
Definition cend := end_.

Definition empty (this : loc) : M heap bool :=
  k <- get_n this ;; ret (k =? 0)%Z.
Definition size (this : loc) : M heap Z := get_n this.

Fixpoint clear_loop (fuel : nat) (this : loc) (cur : ptr) : M heap unit :=
  match fuel with
  | O => timeout
  | S fuel =>
      tl <- get_tail this ;;
      if ptr_eqb cur tl then ret tt
      else
        nx <- get_next cur ;;
        set_next cur None ;; set_prev cur None ;;
        delete_node cur ;;
        clear_loop fuel this nx
  end.

Definition clear (fuel : nat) (this : loc) : M heap unit :=
  hd <- get_head this ;; cur <- get_next hd ;;
  clear_loop fuel this cur ;;
  hd <- get_head this ;; tl <- get_tail this ;; set_next hd tl ;;
  tl <- get_tail this ;; hd <- get_head this ;; set_prev tl hd ;;
  set_n this 0.

(** [iterator insert(iterator pos, const T &value)] *)
Definition insert (this : loc) (pos : iterator) (value : T) : M heap iterator :=
  throw_if (negb (ptr_eqb (owner pos) (Some this)) || is_null (p pos))
    invalid_iterator ;;
  cur <- new_node (Some value) ;;
  node_insert (p pos) cur ;;
  incr_n this ;;
  ret (Iter cur (Some this)).

(** [iterator erase(iterator pos)] *)
Definition erase (this : loc) (pos : iterator) : M heap iterator :=
  k <- get_n this ;;
  throw_if (k =? 0)%Z container_is_empty ;;
  tl <- get_tail this ;;
  throw_if (negb (ptr_eqb (owner pos) (Some this)) || is_null (p pos)
            || ptr_eqb (p pos) tl) invalid_iterator ;;
  nx <- get_next (p pos) ;;
  node_erase (p pos) ;;
  delete_node (p pos) ;;
  decr_n this ;;
  ret (Iter nx (Some this)).

Definition push_back (this : loc) (value : T) : M heap unit :=
  cur <- new_node (Some value) ;;
  tl <- get_tail this ;;
  node_insert tl cur ;;
  incr_n this.

Definition pop_back (this : loc) : M heap unit :=
  k <- get_n this ;;
  throw_if (k =? 0)%Z container_is_empty ;;
  tl <- get_tail this ;; last <- get_prev tl ;;
  node_erase last ;;
  delete_node last ;;
  decr_n this.

Definition push_front (this : loc) (value : T) : M heap unit :=
  cur <- new_node (Some value) ;;
  hd <- get_head this ;; f <- get_next hd ;;
  node_insert f cur ;;
  incr_n this.

Definition pop_front (this : loc) : M heap unit :=
  k <- get_n this ;;
  throw_if (k =? 0)%Z container_is_empty ;;
  hd <- get_head this ;; first <- get_next hd ;;
  node_erase first ;;
  delete_node first ;;
  decr_n this.

(** The loop shared by the copy constructor and the assignment:
    [it] runs from [other.cbegin()] to [other.cend()], each element is
    dereferenced and handed to [push_back]. *)
Fixpoint copy_loop (fuel : nat) (this other : loc) (it : iterator) : M heap unit :=
  match fuel with
  | O => timeout
  | S fuel =>
      e <- cend other ;;
      if it_neq it e then
        r <- on_it cit_deref it ;;
        push_back this r.1 ;;
        r <- on_it cit_pre_incr it ;;
        copy_loop fuel this other r.2
      else ret tt
  end.

(** [list(const list &other) : list()] *)
Definition list_copy_ctor (fuel : nat) (this other : loc) : M heap unit :=
  list_ctor this ;;
  it <- cbegin other ;;
  copy_loop fuel this other it.

(** [list &operator=(const list &other)] *)
Definition assign (fuel : nat) (this other : loc) : M heap unit :=
  if bool_decide (this = other) then ret tt
  else
    clear fuel this ;;
    it <- cbegin other ;;
    copy_loop fuel this other it.

(** [~list()]: the data nodes, then both sentinels, then the object. *)
Definition list_dtor (fuel : nat) (this : loc) : M heap unit :=
  clear fuel this ;;
  hd <- get_head this ;; delete_node hd ;; set_head this None ;;
  tl <- get_tail this ;; delete_node tl ;; set_tail this None ;;
  end_lifetime this.

(** The [for] loop of [sort] that fills [arr]; the array has [k]
    slots, writing past them is undefined. *)
Fixpoint sort_collect (fuel : nat) (this : loc) (k : Z) (cur : ptr) (arr : list ptr)
    : M heap (list ptr) :=
  match fuel with
  | O => timeout
  | S fuel =>
      tl <- get_tail this ;;
      if ptr_eqb cur tl then ret arr
      else
        rd (if (Z.of_nat (length arr) <? k)%Z then Some tt else None) ;;
        nx <- get_next cur ;;
        sort_collect fuel this k nx (arr ++ [cur])
  end.

(** The comparison handed to [sjtu::sort]: [*(a->val) < *(b->val)]. *)
Definition node_less (h : heap) (a b : ptr) : bool :=
  match node_at h a, node_at h b with
  | Some na, Some nb =>
      match val na, val nb with
      | Some x, Some y => ltb x y
      | _, _ => false
      end
  | _, _ => false
  end.

(** The comparison dereferences [val] of the nodes it is given. *)
Fixpoint sort_check (arr : list ptr) : M heap unit :=
  match arr with
  | [] => ret tt
  | a :: arr' => get_elem a ;; sort_check arr'
  end.

(** [arr[k]->next = arr[k+1]; arr[k+1]->prev = arr[k];] for every
    [k] with [k + 1 < n]. *)
Fixpoint sort_relink (arr : list ptr) : M heap unit :=
  match arr with
  | [] => ret tt
  | a :: arr' =>
      match arr' with
      | [] => ret tt
      | b :: _ => set_next a b ;; set_prev b a ;; sort_relink arr'
      end
  end.

(** [void sort()] *)
Definition sort (fuel : nat) (this : loc) : M heap unit :=
  k <- get_n this ;;
  if (k <=? 1)%Z then ret tt
  else
    hd <- get_head this ;; cur <- get_next hd ;;
    arr <- sort_collect fuel this k cur [] ;;
    rd (if (Z.of_nat (length arr) =? k)%Z then Some tt else None) ;;
    sort_check arr ;;
    h <- get ;;
    let arr := sort_alg (node_less h) arr in
    a0 <- rd (arr !! 0) ;;
    hd <- get_head this ;; set_next hd a0 ;;
    hd <- get_head this ;; set_prev a0 hd ;;
    sort_relink arr ;;
    al <- rd (last arr) ;;
    tl <- get_tail this ;; set_next al tl ;;
    tl <- get_tail this ;; set_prev tl al.

(** The first [while] of [merge]; returns the cursor into [other]. *)
Fixpoint merge_loop (fuel : nat) (this other : loc) (ai bi : ptr) : M heap ptr :=
  match fuel with
  | O => timeout
  | S fuel =>
      tl <- get_tail this ;;
      if ptr_eqb ai tl then ret bi
      else
        otl <- get_tail other ;;
        if ptr_eqb bi otl then ret bi
        else
          b <- get_elem bi ;;
          a <- get_elem ai ;;
          if ltb b a then
            nextb <- get_next bi ;;
            node_erase bi ;;
            node_insert ai bi ;;
            incr_n this ;; decr_n other ;;
            merge_loop fuel this other ai nextb
          else
            ai' <- get_next ai ;;
            merge_loop fuel this other ai' bi
  end.

(** The second [while] of [merge]: append what is left of [other]. *)
Fixpoint merge_rest (fuel : nat) (this other : loc) (bi : ptr) : M heap unit :=
  match fuel with
  | O => timeout
  | S fuel =>
      otl <- get_tail other ;;
      if ptr_eqb bi otl then ret tt
      else
        nextb <- get_next bi ;;
        node_erase bi ;;
        tl <- get_tail this ;;
        node_insert tl bi ;;
        incr_n this ;; decr_n other ;;
        merge_rest fuel this other nextb
  end.

(** [void merge(list &other)] *)
Definition merge (fuel : nat) (this other : loc) : M heap unit :=
  if bool_decide (other = this) then ret tt
  else
    hd <- get_head this ;; ai <- get_next hd ;;
    ohd <- get_head other ;; bi <- get_next ohd ;;
    bi <- merge_loop fuel this other ai bi ;;
    merge_rest fuel this other bi ;;
    ohd <- get_head other ;; otl <- get_tail other ;; set_next ohd otl ;;
    otl <- get_tail other ;; ohd <- get_head other ;; set_prev otl ohd.

Fixpoint reverse_loop (fuel : nat) (cur : ptr) : M heap unit :=
  match fuel with
  | O => timeout
  | S fuel =>
      if is_null cur then ret tt
      else
        tmp <- get_next cur ;;
        pv <- get_prev cur ;;
        set_next cur pv ;;
        set_prev cur tmp ;;
        cur' <- get_prev cur ;;
        reverse_loop fuel cur'
  end.

(** [void reverse()] *)
Definition reverse (fuel : nat) (this : loc) : M heap unit :=
  cur <- get_head this ;;
  reverse_loop fuel cur ;;
  tmp <- get_head this ;;
  tl <- get_tail this ;;
  set_head this tl ;;
  set_tail this tmp.

(** The inner [while] of [unique]; returns [nx]. *)
Fixpoint unique_inner (fuel : nat) (this : loc) (cur nx : ptr) : M heap ptr :=
  match fuel with
  | O => timeout
  | S fuel =>
      tl <- get_tail this ;;
      if ptr_eqb nx tl then ret nx
      else
        c <- get_elem cur ;;
        x <- get_elem nx ;;
        if eqb c x then
          let dup := nx in
          nx' <- get_next nx ;;
          node_erase dup ;;
          delete_node dup ;;
          decr_n this ;;
          unique_inner fuel this cur nx'
        else ret nx
  end.

Fixpoint unique_outer (fuel : nat) (this : loc) (cur : ptr) : M heap unit :=
  match fuel with
  | O => timeout
  | S fuel' =>
      tl <- get_tail this ;;
      if ptr_eqb cur tl then ret tt
      else
        nx <- get_next cur ;;
        nx <- unique_inner fuel this cur nx ;;
        unique_outer fuel' this nx
  end.

(** [void unique()] *)
Definition unique (fuel : nat) (this : loc) : M heap unit :=
  k <- get_n this ;;
  if (k <=? 1)%Z then ret tt
  else
    hd <- get_head this ;; cur <- get_next hd ;;
    unique_outer fuel this cur.

(** *** The public interface as a whole (specification, section 7) *)

Inductive list_op :=
| OpCtor | OpCopyCtor (other : loc) | OpDtor | OpAssign (other : loc)
| OpFront | OpBack | OpBegin | OpCBegin | OpEnd | OpCEnd
| OpEmpty | OpSize | OpClear
| OpInsert (pos : iterator) (value : T) | OpErase (pos : iterator)
| OpPushBack (value : T) | OpPopBack | OpPushFront (value : T) | OpPopFront
| OpSort | OpMerge (other : loc) | OpReverse | OpUnique.

(** Run a member function of the list at [this], dropping its result. *)
Definition exec (fuel : nat) (this : loc) (o : list_op) : M heap unit :=
  match o with
  | OpCtor => list_ctor this
  | OpCopyCtor other => list_copy_ctor fuel this other
  | OpDtor => list_dtor fuel this
  | OpAssign other => assign fuel this other
  | OpFront => void (front this)
  | OpBack => void (back this)
  | OpBegin => void (begin this)
  | OpCBegin => void (cbegin this)
  | OpEnd => void (end_ this)
  | OpCEnd => void (cend this)
  | OpEmpty => void (empty this)
  | OpSize => void (size this)
  | OpClear => clear fuel this
  | OpInsert pos value => void (insert this pos value)
  | OpErase pos => void (erase this pos)
  | OpPushBack value => push_back this value
  | OpPopBack => pop_back this
  | OpPushFront value => push_front this value
  | OpPopFront => pop_front this
  | OpSort => sort fuel this
  | OpMerge other => merge fuel this other
  | OpReverse => reverse fuel this
  | OpUnique => unique fuel this
  end.

(** The member functions of [iterator] ([const = false]) and of
    [const_iterator] ([const = true]) that can fail. *)
Inductive it_op := ItPostIncr | ItPreIncr | ItPostDecr | ItPreDecr | ItDeref | ItArrow.

Definition exec_it (h : heap) (const : bool) (o : it_op) : M iterator unit :=
  match o with
  | ItPostIncr => void (if const then cit_post_incr h else it_post_incr h)
  | ItPreIncr => if const then cit_pre_incr h else it_pre_incr h
  | ItPostDecr => void (if const then cit_post_decr h else it_post_decr h)
  | ItPreDecr => if const then cit_pre_decr h else it_pre_decr h
  | ItDeref => void (if const then cit_deref h else it_deref h)
  | ItArrow => void (if const then cit_arrow h else it_arrow h)
  end.

(** *** Sequences of pushes and pops (specification, section 8) *)

Inductive pp_op := PushBack (v : T) | PushFront (v : T) | PopBack | PopFront.

Definition run_op (this : loc) (o : pp_op) : M heap unit :=
  match o with
  | PushBack v => push_back this v
  | PushFront v => push_front this v
  | PopBack => pop_back this
  | PopFront => pop_front this
  end.

Fixpoint run_ops (this : loc) (os : list pp_op) : M heap unit :=
  match os with
  | [] => ret tt
  | o :: os' => run_op this o ;; run_ops this os'
  end.

Definition is_push (o : pp_op) : bool :=
  match o with PushBack _ | PushFront _ => true | _ => false end.

Fixpoint pushes (os : list pp_op) : nat :=
  match os with
  | [] => O
  | o :: os' => if is_push o then S (pushes os') else pushes os'
  end.

Fixpoint pops (os : list pp_op) : nat :=
  match os with
  | [] => O
  | o :: os' => if is_push o then pops os' else S (pops os')
  end.

(** "pops only when non-empty": a pop is issued only while the list
    holds [held > 0] elements. *)
Fixpoint pops_allowed (held : nat) (os : list pp_op) : bool :=
  match os with
  | [] => true
  | o :: os' =>
      if is_push o then pops_allowed (S held) os'
      else match held with
           | O => false
           | S held' => pops_allowed held' os'
           end
  end.

End List.

Arguments node T : clear implicits.
Arguments heap T : clear implicits.
Arguments pp_op T : clear implicits.
Arguments list_op T : clear implicits.

(** ** The algorithms seen on sequences of cells

    A data cell is a node address paired with the element stored
    there; the functions below describe, on the sequence of data cells
    of a list, what the loops of [unique] and [merge] compute. *)

Section Sequences.

Context {T : Type}.
Variable ltb : T → T → bool.
Variable eqb : T → T → bool.

(** The inner loop of [unique]: drop the cells that follow a cell with
    element [x] for as long as they compare equal to [x]. *)
Fixpoint drop_eq (x : T) (ds : list (loc * T)) : list (loc * T) :=
  match ds with
  | [] => []
  | d :: ds' => if eqb x d.2 then drop_eq x ds' else ds
  end.

(** What is left of [ds] by [unique] when [ds] follows a kept cell with
    element [x]. *)
Fixpoint uniq_after (x : T) (ds : list (loc * T)) : list (loc * T) :=
  match ds with
  | [] => []
  | d :: ds' => if eqb x d.2 then uniq_after x ds' else d :: uniq_after d.2 ds'
  end.

Definition uniq (ds : list (loc * T)) : list (loc * T) :=
  match ds with
  | [] => []
  | d :: ds' => d :: uniq_after d.2 ds'
  end.

(** Following the words of the specification: the maximal runs of
    consecutive equal elements.  A cell joins the run that starts right
    after it when it compares equal to that run's first cell. *)
Fixpoint runs (ds : list (loc * T)) : list (list (loc * T)) :=
  match ds with
  | [] => []
  | d :: ds' =>
      match runs ds' with
      | (e :: r) :: rs => if eqb d.2 e.2 then (d :: e :: r) :: rs else [d] :: (e :: r) :: rs
      | _ => [[d]]
      end
  end.

(** The first cell of each run. *)
Definition run_heads (rs : list (list (loc * T))) : list (loc * T) :=
  flat_map (take 1) rs.

(** Consecutive cells hold equal elements. *)
Definition all_adjacent_equal (r : list (loc * T)) : Prop :=
  ∀ i x y, r !! i = Some x → r !! S i = Some y → eqb x.2 y.2 = true.

(** The loops of [merge]: a cell of [bs] is moved in front of the
    current cell of [as_] when its element is strictly smaller. *)
Fixpoint merge_cells (as_ : list (loc * T)) : list (loc * T) → list (loc * T) :=
  fix go (bs : list (loc * T)) : list (loc * T) :=
    match as_, bs with
    | [], _ => bs
    | _, [] => as_
    | a :: as', b :: bs' =>
        if ltb b.2 a.2 then b :: go bs' else a :: merge_cells as' bs
    end.

(** "not after": [d] is not smaller than [c]. *)
Definition cell_le (c d : loc * T) : Prop := ltb d.2 c.2 = false.

(** "ascending under operator<": no element is smaller than one that
    comes before it. *)
Definition ascending (xs : list T) : Prop :=
  ∀ i j x y, i < j → xs !! i = Some x → xs !! j = Some y → ltb y x = false.

End Sequences.

(** ** Representation invariant (specification, section 3)

    A cell is a node address with the element it stores ([None] for a
    sentinel).  [dll ns pv cs nx] says that the cells [cs] are laid out
    in [ns] as a doubly-linked segment entered from [pv] and left
    towards [nx]. *)

Section Spec.

Context {T : Type}.

Abbreviation cell := (loc * option T)%type.

Definition first_ptr (cs : list cell) (nx : ptr) : ptr :=
  match cs with [] => nx | c :: _ => Some c.1 end.

Fixpoint last_ptr (pv : ptr) (cs : list cell) : ptr :=
  match cs with [] => pv | c :: cs' => last_ptr (Some c.1) cs' end.

Fixpoint dll (ns : gmap loc (node T)) (pv : ptr) (cs : list cell) (nx : ptr) : Prop :=
  match cs with
  | [] => True
  | c :: cs' =>
      ns !! c.1 = Some (Node pv (first_ptr cs' nx) c.2) ∧ dll ns (Some c.1) cs' nx
  end.

Definition data_cells (cs : list (loc * T)) : list cell :=
  map (λ c, (c.1, Some c.2)) cs.

(** The whole chain of a list: head sentinel, data nodes, tail sentinel. *)
Definition chain (hd tl : loc) (cs : list (loc * T)) : list cell :=
  (hd, None) :: data_cells cs ++ [(tl, None)].

(** "a single doubly-linked cycle-free path from head to tail" *)
Definition linked (ns : gmap loc (node T)) (hd tl : loc) (cs : list (loc * T)) : Prop :=
  NoDup (chain hd tl cs).*1 ∧ dll ns None (chain hd tl cs) None.

(** The list object at [this] has sentinels [hd], [tl], the data nodes
    [cs] in traversal order, and stored count [k]. *)
Definition is_list (h : heap T) (this hd tl : loc) (cs : list (loc * T)) (k : Z) : Prop :=
  lists h !! this = Some (ListRep (Some hd) (Some tl) k) ∧
  linked (nodes h) hd tl cs.

(** "element count equals the number of non-sentinel nodes" *)
Definition wf_list (h : heap T) (this hd tl : loc) (cs : list (loc * T)) : Prop :=
  is_list h this hd tl cs (Z.of_nat (length cs)) ∧
  (Z.of_nat (length cs) < size_max)%Z.

(** What one iteration of [reverse] does to a node. *)
Definition swap_links (nd : node T) : node T := Node (next nd) (prev nd) (val nd).

(** The iterator test of [erase], as a proposition. *)
Definition erase_rejects (this : loc) (tl : ptr) (pos : iterator) : Prop :=
  owner pos ≠ Some this ∨ p pos = None ∨ p pos = tl.

(** The addresses a list occupies in the node store. *)
Definition footprint (hd tl : loc) (cs : list (loc * T)) : list loc :=
  (chain hd tl cs).*1.

(** What the copying loop maintains: the target and the source are
    two lists of disjoint nodes. *)
Definition copying (h : heap T) (this other hd tl hdO tlO : loc)
    (ds os : list (loc * T)) (z kO : Z) : Prop :=
  is_list h this hd tl ds (wrap z) ∧
  is_list h other hdO tlO os kO ∧
  this ≠ other ∧
  (∀ l, l ∈ footprint hd tl ds → l ∈ footprint hdO tlO os → False).

(** What the two copying members ask of the lists they work on: the
    copy constructor reads a properly linked list other than the object
    under construction; assignment from another list has a properly
    linked target and a properly linked source that share no node.
    (The stored counts do not matter.) *)
Definition copy_pre (h : heap T) (this : loc) (o : list_op T) : Prop :=
  match o with
  | OpCopyCtor other =>
      this ≠ other ∧ ∃ hdO tlO os kO, is_list h other hdO tlO os kO
  | OpAssign other =>
      this = other ∨
      ∃ hd tl ds k hdO tlO os kO,
        is_list h this hd tl ds k ∧ is_list h other hdO tlO os kO ∧
        (∀ l, l ∈ footprint hd tl ds → l ∈ footprint hdO tlO os → False)
  | _ => True
  end.

End Spec.

(** ** Pushes and pops seen on the sequence of elements

    What the four members do to the sequence of elements, [None] where
    the member raises [container_is_empty]. *)

Section Deque.

Context {T : Type}.

Definition deque_step (xs : list T) (o : pp_op T) : option (list T) :=
  match o with
  | PushBack v => Some (xs ++ [v])
  | PushFront v => Some (v :: xs)
  | PopBack => match xs with [] => None | _ :: _ => Some (removelast xs) end
  | PopFront => match xs with [] => None | _ :: xs' => Some xs' end
  end.

Fixpoint deque_run (xs : list T) (os : list (pp_op T)) : option (list T) :=
  match os with
  | [] => Some xs
  | o :: os' =>
      match deque_step xs o with
      | Some ys => deque_run ys os'
      | None => None
      end
  end.

(** How the node store may differ between two states in which a list
    occupies the addresses [F] and then [F']: nodes that belong to the
    list in neither state are the same, a node the list has gained was
    not allocated before, and a node it has given up is deallocated. *)
Definition hands_over (F F' : list loc) (ns ns' : gmap loc (node T)) : Prop :=
  (∀ l, l ∉ F → l ∉ F' → ns' !! l = ns !! l) ∧
  (∀ l, l ∉ F → l ∈ F' → ns !! l = None) ∧
  (∀ l, l ∈ F → l ∉ F' → ns' !! l = None).

End Deque.

(** ** Concrete states over [T = Z]

    The lists of the examples of the specification, laid out by hand:
    [A = [1,3,5]] (object 1, sentinels 10 and 11, data nodes 12-14),
    [B = [2,3,4]] (object 2, sentinels 20 and 21, data nodes 22-24),
    [D = [1,1,2,2,2,3,1]] (object 3, sentinels 30 and 31, data nodes
    32-38) and the empty list [E] (object 4, sentinels 40 and 41). *)

Definition cells_A : list (loc * Z) :=
  [(12%positive, 1%Z); (13%positive, 3%Z); (14%positive, 5%Z)].
Definition cells_B : list (loc * Z) :=
  [(22%positive, 2%Z); (23%positive, 3%Z); (24%positive, 4%Z)].
Definition cells_D : list (loc * Z) :=
  [(32%positive, 1%Z); (33%positive, 1%Z); (34%positive, 2%Z); (35%positive, 2%Z);
   (36%positive, 2%Z); (37%positive, 3%Z); (38%positive, 1%Z)].

(** The nodes of a chain, from its cells. *)
Fixpoint lay_out {T} (pv : ptr) (cs : list (loc * option T)) (nx : ptr)
    : list (loc * node T) :=
  match cs with
  | [] => []
  | c :: cs' =>
      (c.1, Node pv (first_ptr cs' nx) c.2) :: lay_out (Some c.1) cs' nx
  end.

Definition example_heap : heap Z :=
  Heap (list_to_map (lay_out None (chain 10 11 cells_A) None ++
                     lay_out None (chain 20 21 cells_B) None ++
                     lay_out None (chain 30 31 cells_D) None ++
                     lay_out None (chain 40 41 []) None))
       (list_to_map [(1%positive, ListRep (Some 10%positive) (Some 11%positive) 3);
                     (2%positive, ListRep (Some 20%positive) (Some 21%positive) 3);
                     (3%positive, ListRep (Some 30%positive) (Some 31%positive) 7);
                     (4%positive, ListRep (Some 40%positive) (Some 41%positive) 0)]).

(** A stand-in for [sjtu::sort] where an instance is needed. *)
Definition no_sort (_ : ptr → ptr → bool) (arr : list ptr) : list ptr := arr.

(** * Proofs *)

(** ** Stepping through the primitives *)

Section Stepping.

Context {T : Type}.
Implicit Types (h : heap T).

Lemma bind_ret {S A B} (a : A) (k : A → M S B) s : bind (ret a) k s = k a s.
Proof. done. Qed.

Lemma bind_assoc {S A B C} (m : M S A) (f : A → M S B) (k : B → M S C) s :
  bind (bind m f) k s = bind m (λ a, bind (f a) k) s.
Proof. unfold bind. by destruct (m s). Qed.

Lemma bind_ret_r {S A} (m : M S A) s : bind m ret s = m s.
Proof. unfold bind, ret. by destruct (m s). Qed.

Lemma bind_throw_if_false {S B} b e (k : unit → M S B) s :
  b = false → bind (throw_if b e) k s = k tt s.
Proof. by intros ->. Qed.

Lemma bind_throw_if_true {S B} b e (k : unit → M S B) s :
  b = true → bind (throw_if b e) k s = Throw e s.
Proof. by intros ->. Qed.

Lemma bind_ok {S A B} (m : M S A) (k : A → M S B) s a s' :
  m s = Ok a s' → bind m k s = k a s'.
Proof. intros E. unfold bind. by rewrite E. Qed.

Lemma bind_get_prev {B} h q nd (k : ptr → M (heap T) B) :
  node_at h q = Some nd → bind (get_prev q) k h = k (prev nd) h.
Proof. intros E. unfold get_prev, load, bind, rd, ret. by rewrite E. Qed.

Lemma bind_get_next {B} h q nd (k : ptr → M (heap T) B) :
  node_at h q = Some nd → bind (get_next q) k h = k (next nd) h.
Proof. intros E. unfold get_next, load, bind, rd, ret. by rewrite E. Qed.

Lemma bind_get_elem {B} h q nd v (k : T → M (heap T) B) :
  node_at h q = Some nd → val nd = Some v → bind (get_elem q) k h = k v h.
Proof.
  intros E Ev. unfold get_elem, get_val, load, bind, rd, ret. by rewrite E, Ev.
Qed.

Lemma bind_set_prev {B} h l nd v (k : unit → M (heap T) B) :
  nodes h !! l = Some nd →
  bind (set_prev (Some l) v) k h
  = k tt (Heap (<[l := Node v (next nd) (val nd)]> (nodes h)) (lists h)).
Proof. intros E. unfold set_prev, store, bind. by rewrite E. Qed.

Lemma bind_set_next {B} h l nd v (k : unit → M (heap T) B) :
  nodes h !! l = Some nd →
  bind (set_next (Some l) v) k h
  = k tt (Heap (<[l := Node (prev nd) v (val nd)]> (nodes h)) (lists h)).
Proof. intros E. unfold set_next, store, bind. by rewrite E. Qed.

Lemma bind_delete_node {B} h l nd (k : unit → M (heap T) B) :
  nodes h !! l = Some nd →
  bind (delete_node (Some l)) k h = k tt (Heap (delete l (nodes h)) (lists h)).
Proof. intros E. unfold delete_node, bind. by rewrite E. Qed.

Lemma bind_new_node {B} h v (k : ptr → M (heap T) B) :
  bind (new_node v) k h
  = k (Some (fresh (dom (nodes h))))
      (Heap (<[fresh (dom (nodes h)) := Node None None v]> (nodes h)) (lists h)).
Proof. done. Qed.

Lemma bind_get_head {B} h this r (k : ptr → M (heap T) B) :
  lists h !! this = Some r → bind (get_head this) k h = k (head r) h.
Proof. intros E. unfold get_head, load_list, bind, rd, ret. by rewrite E. Qed.

Lemma bind_get_tail {B} h this r (k : ptr → M (heap T) B) :
  lists h !! this = Some r → bind (get_tail this) k h = k (tail r) h.
Proof. intros E. unfold get_tail, load_list, bind, rd, ret. by rewrite E. Qed.

Lemma bind_get_n {B} h this r (k : Z → M (heap T) B) :
  lists h !! this = Some r → bind (get_n this) k h = k (n r) h.
Proof. intros E. unfold get_n, load_list, bind, rd, ret. by rewrite E. Qed.

Lemma bind_set_n {B} h this r v (k : unit → M (heap T) B) :
  lists h !! this = Some r →
  bind (set_n this v) k h
  = k tt (Heap (nodes h) (<[this := ListRep (head r) (tail r) v]> (lists h))).
Proof. intros E. unfold set_n, store_list, bind. by rewrite E. Qed.

Lemma bind_set_head {B} h this r v (k : unit → M (heap T) B) :
  lists h !! this = Some r →
  bind (set_head this v) k h
  = k tt (Heap (nodes h) (<[this := ListRep v (tail r) (n r)]> (lists h))).
Proof. intros E. unfold set_head, store_list, bind. by rewrite E. Qed.

Lemma bind_set_tail {B} h this r v (k : unit → M (heap T) B) :
  lists h !! this = Some r →
  bind (set_tail this v) k h
  = k tt (Heap (nodes h) (<[this := ListRep (head r) v (n r)]> (lists h))).
Proof. intros E. unfold set_tail, store_list, bind. by rewrite E. Qed.

Lemma bind_incr_n {B} h this r (k : unit → M (heap T) B) :
  lists h !! this = Some r →
  bind (incr_n this) k h
  = k tt (Heap (nodes h) (<[this := ListRep (head r) (tail r) (wrap (n r + 1))]> (lists h))).
Proof.
  intros E. unfold incr_n, get_n, set_n, load_list, store_list, bind, rd, ret.
  by rewrite E; simpl; rewrite E.
Qed.

Lemma bind_decr_n {B} h this r (k : unit → M (heap T) B) :
  lists h !! this = Some r →
  bind (decr_n this) k h
  = k tt (Heap (nodes h) (<[this := ListRep (head r) (tail r) (wrap (n r - 1))]> (lists h))).
Proof.
  intros E. unfold decr_n, get_n, set_n, load_list, store_list, bind, rd, ret.
  by rewrite E; simpl; rewrite E.
Qed.

End Stepping.

(** Solve a lookup in a store built from inserts and deletes. *)
Ltac lk :=
  simpl;
  repeat first [ rewrite lookup_insert_eq
               | rewrite lookup_insert_ne by done
               | rewrite lookup_delete_ne by done ];
  first [ eassumption | reflexivity ].

(** Reduce the projections of records that are given by their fields. *)
Ltac msimpl := cbn [nodes lists prev next val head tail n p owner fst snd].

(** One statement of the program. *)
Ltac mstep :=
  rewrite ?bind_assoc;
  first [ rewrite bind_ret
        | erewrite bind_get_prev by lk
        | erewrite bind_get_next by lk
        | erewrite bind_get_elem by (first [lk | reflexivity])
        | erewrite bind_set_prev by lk
        | erewrite bind_set_next by lk
        | erewrite bind_delete_node by lk
        | erewrite bind_get_head by lk
        | erewrite bind_get_tail by lk
        | erewrite bind_get_n by lk
        | erewrite bind_incr_n by lk
        | erewrite bind_decr_n by lk
        | erewrite bind_set_n by lk
        | erewrite bind_set_head by lk
        | erewrite bind_set_tail by lk
        | rewrite bind_new_node ];
  msimpl.

(** The last statement of a body. *)
Ltac mfinal :=
  match goal with
  | |- ?m ?s = _ => rewrite <- (bind_ret_r m s)
  end; mstep.

(** Facts hidden in a [NoDup] of a concatenation of mapped lists. *)
Ltac nodup_open H :=
  repeat first [ rewrite fmap_app in H | rewrite fmap_cons in H
               | rewrite NoDup_app in H | rewrite NoDup_cons in H ];
  simpl in H.

Ltac notin_open H :=
  repeat first [ rewrite fmap_app in H | rewrite fmap_cons in H ]; simpl in H.

Section Proofs.

Context {T : Type}.
Implicit Types (ns : gmap loc (node T)) (ls : gmap loc list_rep) (h : heap T).
Implicit Types (cs : list (loc * option T)) (ds : list (loc * T)).

Lemma node_erase_ok ns ls l a b v na nb :
  ns !! l = Some (Node (Some a) (Some b) v) → ns !! a = Some na → ns !! b = Some nb →
  a ≠ l → b ≠ l → a ≠ b →
  node_erase (Some l) (Heap ns ls) =
    Ok (Some l) (Heap (<[l := Node None None v]>
                        (<[b := Node (Some a) (next nb) (val nb)]>
                          (<[a := Node (prev na) (Some b) (val na)]> ns))) ls).
Proof.
  intros Hl Ha Hb ? ? ?. unfold node_erase.
  do 8 mstep. by rewrite insert_insert_eq.
Qed.

Lemma node_insert_ok ns ls l a b nl na nb :
  ns !! l = Some nl → ns !! b = Some nb → prev nb = Some a → ns !! a = Some na →
  a ≠ l → b ≠ l → a ≠ b →
  node_insert (Some b) (Some l) (Heap ns ls) =
    Ok (Some l) (Heap (<[b := Node (Some l) (next nb) (val nb)]>
                        (<[a := Node (prev na) (Some l) (val na)]>
                          (<[l := Node (Some a) (Some b) (val nl)]> ns))) ls).
Proof.
  intros Hl Hb Hp Ha ? ? ?. unfold node_insert.
  do 3 mstep. rewrite Hp. erewrite bind_get_prev by lk. rewrite Hp.
  do 2 mstep. by rewrite insert_insert_eq.
Qed.

(** ** Doubly-linked segments *)

Lemma first_ptr_app cs1 cs2 nx :
  first_ptr (cs1 ++ cs2) nx = first_ptr cs1 (first_ptr cs2 nx).
Proof. by destruct cs1. Qed.

Lemma last_ptr_app pv cs1 cs2 :
  last_ptr pv (cs1 ++ cs2) = last_ptr (last_ptr pv cs1) cs2.
Proof. revert pv. induction cs1 as [|c cs1 IH]; intros pv; simpl; [done|apply IH]. Qed.

Lemma last_ptr_snoc pv cs c : last_ptr pv (cs ++ [c]) = Some c.1.
Proof. by rewrite last_ptr_app. Qed.

Lemma first_ptr_nonempty cs nx : cs ≠ [] → ∃ b, first_ptr cs nx = Some b ∧ b ∈ cs.*1.
Proof.
  destruct cs as [|c cs]; [done|]. intros _. exists c.1. split; [done|].
  simpl. apply list_elem_of_here.
Qed.

Lemma last_ptr_nonempty pv cs : cs ≠ [] → ∃ a, last_ptr pv cs = Some a ∧ a ∈ cs.*1.
Proof.
  destruct cs as [|c cs _] using rev_ind; [done|]. intros _. exists c.1.
  rewrite last_ptr_snoc. split; [done|].
  rewrite fmap_app. apply elem_of_app. right. simpl. apply list_elem_of_here.
Qed.

Lemma dll_frame ns ns' pv cs nx :
  (∀ l, l ∈ cs.*1 → ns' !! l = ns !! l) → dll ns pv cs nx → dll ns' pv cs nx.
Proof.
  revert pv. induction cs as [|c cs IH]; intros pv Hf; simpl; [done|].
  intros [Hc Hr]. split.
  - rewrite Hf; [done|]. simpl. apply list_elem_of_here.
  - apply IH; [|done]. intros l Hl. apply Hf. simpl. by apply list_elem_of_further.
Qed.

Lemma dll_app ns pv cs1 cs2 nx :
  dll ns pv (cs1 ++ cs2) nx ↔
  dll ns pv cs1 (first_ptr cs2 nx) ∧ dll ns (last_ptr pv cs1) cs2 nx.
Proof.
  revert pv. induction cs1 as [|c cs1 IH]; intros pv; simpl.
  - naive_solver.
  - rewrite IH, first_ptr_app. naive_solver.
Qed.

(** The node found at a cell in the middle of a segment. *)
Lemma dll_lookup ns pv cs1 c cs2 nx :
  dll ns pv (cs1 ++ c :: cs2) nx →
  ns !! c.1 = Some (Node (last_ptr pv cs1) (first_ptr cs2 nx) c.2).
Proof. rewrite dll_app. simpl. naive_solver. Qed.

Lemma dll_elem_lookup ns pv cs nx l :
  dll ns pv cs nx → l ∈ cs.*1 → ∃ v, (l, v) ∈ cs ∧ ∃ a b, ns !! l = Some (Node a b v).
Proof.
  intros Hd Hl. apply list_elem_of_fmap in Hl as ([l' v] & -> & Hin).
  exists v. split; [done|].
  apply list_elem_of_split in Hin as (cs1 & cs2 & ->).
  apply dll_lookup in Hd. eauto.
Qed.

(** Redirecting the forward link of the last cell of a segment. *)
Lemma dll_set_last ns pv cs c nx nx' :
  c.1 ∉ cs.*1 →
  dll ns pv (cs ++ [c]) nx →
  dll (<[c.1 := Node (last_ptr pv cs) nx' c.2]> ns) pv (cs ++ [c]) nx'.
Proof.
  intros Hn. rewrite !dll_app. simpl. intros (H1 & H2 & _). split_and!; [|lk|done].
  eapply dll_frame; [|done]. intros l Hl. apply lookup_insert_ne. set_solver.
Qed.

(** Redirecting the backward link of the first cell of a segment. *)
Lemma dll_set_first ns pv pv' c cs nx :
  c.1 ∉ cs.*1 →
  dll ns pv (c :: cs) nx →
  dll (<[c.1 := Node pv' (first_ptr cs nx) c.2]> ns) pv' (c :: cs) nx.
Proof.
  intros Hn. simpl. intros [H1 H2]. split; [lk|].
  eapply dll_frame; [|done]. intros l Hl. apply lookup_insert_ne. set_solver.
Qed.

Lemma dom_insert_same ns l nd nd' : ns !! l = Some nd → dom (<[l := nd']> ns) = dom ns.
Proof. intros E. rewrite dom_insert_L. apply elem_of_dom_2 in E. set_solver. Qed.

(** The protected [erase] on a cell that has both neighbours inside the
    segment. *)
Lemma seg_erase ns ls pv pre c post nx :
  pre ≠ [] → post ≠ [] →
  NoDup (pre ++ c :: post).*1 →
  dll ns pv (pre ++ c :: post) nx →
  ∃ ns', node_erase (Some c.1) (Heap ns ls) = Ok (Some c.1) (Heap ns' ls)
         ∧ dll ns' pv (pre ++ post) nx
         ∧ ns' !! c.1 = Some (Node None None c.2)
         ∧ (∀ l, l ∉ (pre ++ c :: post).*1 → ns' !! l = ns !! l)
         ∧ dom ns' = dom ns.
Proof.
  intros Hpre Hpost Hnd Hd.
  destruct pre as [|ca pre _] using rev_ind; [done|]. clear Hpre.
  destruct post as [|cb post]; [done|]. clear Hpost.
  rewrite <- app_assoc in Hnd, Hd. simpl in Hnd, Hd.
  pose proof (dll_lookup _ _ _ _ _ _ Hd) as Ha.
  pose proof (dll_lookup ns pv (pre ++ [ca]) c (cb :: post) nx) as Hc.
  rewrite <- app_assoc in Hc. specialize (Hc Hd). rewrite last_ptr_snoc in Hc.
  pose proof (dll_lookup ns pv (pre ++ [ca; c]) cb post nx) as Hb.
  rewrite <- app_assoc in Hb. specialize (Hb Hd).
  rewrite (last_ptr_app _ pre [ca; c]) in Hb. simpl in Ha, Hc, Hb.
  nodup_open Hnd. destruct Hnd as (Hnd1 & Hnd2 & Hca & Hcc & Hcb & Hnd3).
  assert (ca.1 ≠ c.1) by set_solver.
  assert (cb.1 ≠ c.1) by set_solver.
  assert (ca.1 ≠ cb.1) by set_solver.
  eexists. split; [by eapply node_erase_ok|]. simpl.
  apply dll_app in Hd as [Hd1 Hd2]. simpl in Hd1, Hd2.
  destruct Hd2 as (_ & _ & _ & Hd2).
  split_and!.
  - rewrite <- app_assoc. apply dll_app. simpl. split_and!; [|lk|lk|].
    + eapply dll_frame; [|done]. intros l Hl.
      rewrite !lookup_insert_ne; [done|..]; set_solver.
    + eapply dll_frame; [|done]. intros l Hl.
      rewrite !lookup_insert_ne; [done|..]; set_solver.
  - lk.
  - intros l Hl. notin_open Hl.
    rewrite !lookup_insert_ne; [done|..]; set_solver.
  - erewrite !dom_insert_same; [done|lk..].
Qed.

(** The protected [insert] of a node from outside the segment, between
    two cells of the segment. *)
Lemma seg_insert ns ls pv pre post nx l nl :
  pre ≠ [] → post ≠ [] →
  NoDup (pre ++ post).*1 → l ∉ (pre ++ post).*1 →
  dll ns pv (pre ++ post) nx →
  ns !! l = Some nl →
  ∃ ns', node_insert (first_ptr post nx) (Some l) (Heap ns ls) = Ok (Some l) (Heap ns' ls)
         ∧ dll ns' pv (pre ++ (l, val nl) :: post) nx
         ∧ (∀ l', l' ≠ l → l' ∉ (pre ++ post).*1 → ns' !! l' = ns !! l')
         ∧ dom ns' = dom ns.
Proof.
  intros Hpre Hpost Hnd Hl Hd Hnl.
  destruct pre as [|ca pre _] using rev_ind; [done|]. clear Hpre.
  destruct post as [|cb post]; [done|]. clear Hpost.
  rewrite <- app_assoc in Hnd, Hd, Hl. simpl in Hnd, Hd, Hl.
  pose proof (dll_lookup _ _ _ _ _ _ Hd) as Ha.
  pose proof (dll_lookup ns pv (pre ++ [ca]) cb post nx) as Hb.
  rewrite <- app_assoc in Hb. specialize (Hb Hd). rewrite last_ptr_snoc in Hb.
  simpl in Ha, Hb.
  nodup_open Hnd. destruct Hnd as (Hnd1 & Hnd2 & Hca & Hcb & Hnd3).
  notin_open Hl.
  assert (ca.1 ≠ l) by set_solver.
  assert (cb.1 ≠ l) by set_solver.
  assert (ca.1 ≠ cb.1) by set_solver.
  eexists. split; [by eapply node_insert_ok|]. simpl.
  apply dll_app in Hd as [Hd1 Hd2]. simpl in Hd1, Hd2.
  destruct Hd2 as (_ & _ & Hd2).
  split_and!.
  - rewrite <- app_assoc. apply dll_app. simpl. split_and!; [|lk|lk|lk|].
    + eapply dll_frame; [|done]. intros l' Hl'.
      rewrite !lookup_insert_ne; [done|..]; set_solver.
    + eapply dll_frame; [|done]. intros l' Hl'.
      rewrite !lookup_insert_ne; [done|..]; set_solver.
  - intros l' Hne Hl'. notin_open Hl'.
    rewrite !lookup_insert_ne; [done|..]; set_solver.
  - erewrite !dom_insert_same; [done|lk..].
Qed.

(** ** Whole chains *)

Lemma NoDup_mid {A} (x : A) (l1 l2 : list A) :
  NoDup (l1 ++ x :: l2) ↔ (x ∉ l1 ++ l2) ∧ NoDup (l1 ++ l2).
Proof. rewrite <- Permutation_middle. apply NoDup_cons. Qed.

Lemma data_cells_app ds1 ds2 : data_cells (ds1 ++ ds2) = data_cells ds1 ++ data_cells ds2.
Proof. apply map_app. Qed.

Lemma data_cells_fst ds : (data_cells ds).*1 = ds.*1.
Proof. induction ds as [|d ds IH]; [done|]. simpl. by f_equal. Qed.

Lemma chain_split hd tl ds1 ds2 :
  chain hd tl (ds1 ++ ds2)
  = ((hd, None) :: data_cells ds1) ++ (data_cells ds2 ++ [(tl, None)]).
Proof. unfold chain. by rewrite data_cells_app, <- app_assoc. Qed.

Lemma chain_split_at hd tl ds1 d ds2 :
  chain hd tl (ds1 ++ d :: ds2)
  = ((hd, None) :: data_cells ds1) ++ (d.1, Some d.2) :: (data_cells ds2 ++ [(tl, None)]).
Proof. by rewrite chain_split. Qed.

Lemma footprint_eq hd tl ds : footprint hd tl ds = hd :: ds.*1 ++ [tl].
Proof.
  unfold footprint, chain. rewrite fmap_cons, fmap_app, data_cells_fst. done.
Qed.

Lemma linked_frame ns ns' hd tl ds :
  (∀ l, l ∈ footprint hd tl ds → ns' !! l = ns !! l) →
  linked ns hd tl ds → linked ns' hd tl ds.
Proof. intros Hf [Hnd Hd]. split; [done|]. by eapply dll_frame. Qed.

Lemma linked_head ns hd tl ds :
  linked ns hd tl ds →
  ns !! hd = Some (Node None (first_ptr (data_cells ds) (Some tl)) None).
Proof.
  intros [_ Hd]. unfold chain in Hd. simpl in Hd. destruct Hd as [Hd _].
  by rewrite first_ptr_app in Hd.
Qed.

Lemma linked_tail ns hd tl ds :
  linked ns hd tl ds →
  ns !! tl = Some (Node (last_ptr (Some hd) (data_cells ds)) None None).
Proof.
  intros [_ Hd]. unfold chain in Hd.
  by apply (dll_lookup ns None ((hd, None) :: data_cells ds) (tl, None) [] None) in Hd.
Qed.

Lemma linked_data ns hd tl ds1 d ds2 :
  linked ns hd tl (ds1 ++ d :: ds2) →
  ns !! d.1 = Some (Node (last_ptr (Some hd) (data_cells ds1))
                         (first_ptr (data_cells ds2) (Some tl)) (Some d.2)).
Proof.
  intros [_ Hd]. rewrite chain_split_at in Hd.
  apply dll_lookup in Hd. simpl in Hd. by rewrite first_ptr_app in Hd.
Qed.

Lemma linked_dom ns hd tl ds l :
  linked ns hd tl ds → l ∈ footprint hd tl ds → l ∈ dom ns.
Proof.
  intros [_ Hd] Hl. eapply dll_elem_lookup in Hd as (v & _ & a & b & E); [|done].
  by apply elem_of_dom_2 in E.
Qed.

Lemma linked_fresh ns hd tl ds :
  linked ns hd tl ds → fresh (dom ns) ∉ footprint hd tl ds.
Proof. intros Hl Hin. apply (is_fresh (dom ns)). by eapply linked_dom. Qed.

(** Unlinking a data node of a chain. *)
Lemma linked_erase ns ls hd tl ds1 d ds2 :
  linked ns hd tl (ds1 ++ d :: ds2) →
  ∃ ns', node_erase (Some d.1) (Heap ns ls) = Ok (Some d.1) (Heap ns' ls)
         ∧ linked ns' hd tl (ds1 ++ ds2)
         ∧ ns' !! d.1 = Some (Node None None (Some d.2))
         ∧ (∀ l, l ∉ footprint hd tl (ds1 ++ d :: ds2) → ns' !! l = ns !! l)
         ∧ dom ns' = dom ns.
Proof.
  intros [Hnd Hd]. unfold footprint. rewrite chain_split_at in *.
  destruct (seg_erase ns ls None ((hd, None) :: data_cells ds1) (d.1, Some d.2)
              (data_cells ds2 ++ [(tl, None)]) None) as (ns' & E & Hd' & Hl & Hf & Hdom);
    [done|by destruct (data_cells ds2)|done|done|].
  exists ns'. split_and!; [done| |done|done|done].
  split; [|by rewrite chain_split].
  rewrite chain_split. rewrite fmap_app, !fmap_cons in Hnd. rewrite fmap_app, fmap_cons.
  by apply NoDup_mid in Hnd as [_ Hnd].
Qed.

(** Linking a node from outside the chain before the cell that follows
    [ds1] (a data node or the tail sentinel). *)
Lemma linked_insert ns ls hd tl ds1 ds2 l nl v :
  linked ns hd tl (ds1 ++ ds2) →
  l ∉ footprint hd tl (ds1 ++ ds2) →
  ns !! l = Some nl → val nl = Some v →
  ∃ ns', node_insert (first_ptr (data_cells ds2) (Some tl)) (Some l) (Heap ns ls)
           = Ok (Some l) (Heap ns' ls)
         ∧ linked ns' hd tl (ds1 ++ (l, v) :: ds2)
         ∧ (∀ l', l' ≠ l → l' ∉ footprint hd tl (ds1 ++ ds2) → ns' !! l' = ns !! l')
         ∧ dom ns' = dom ns.
Proof.
  intros [Hnd Hd] Hl Hnl Hv. unfold footprint in *. rewrite chain_split in *.
  destruct (seg_insert ns ls None ((hd, None) :: data_cells ds1)
              (data_cells ds2 ++ [(tl, None)]) None l nl)
    as (ns' & E & Hd' & Hf & Hdom);
    [done|by destruct (data_cells ds2)|done|done|done|done|].
  rewrite first_ptr_app in E. simpl in E. rewrite Hv in Hd'.
  exists ns'. split_and!; [done| |done|done].
  split; [|by rewrite chain_split_at].
  rewrite chain_split_at. rewrite fmap_app, !fmap_cons. simpl.
  rewrite fmap_app, fmap_cons in Hnd, Hl. simpl in Hnd, Hl.
  by apply (NoDup_mid l (hd :: (data_cells ds1).*1)).
Qed.

(** ** Allocation followed by linking, unlinking followed by deallocation *)

Lemma footprint_mid hd tl ds1 (d : loc * T) ds2 l :
  l ∈ footprint hd tl (ds1 ++ d :: ds2) ↔ l = d.1 ∨ l ∈ footprint hd tl (ds1 ++ ds2).
Proof.
  rewrite !footprint_eq, !fmap_app, fmap_cons.
  rewrite !elem_of_cons, !elem_of_app, elem_of_cons. tauto.
Qed.

Lemma footprint_nodup_mid hd tl ds1 (d : loc * T) ds2 :
  NoDup (footprint hd tl (ds1 ++ d :: ds2)) ↔
  (d.1 ∉ footprint hd tl (ds1 ++ ds2)) ∧ NoDup (footprint hd tl (ds1 ++ ds2)).
Proof.
  rewrite !footprint_eq, !fmap_app, fmap_cons, <- !app_assoc. simpl.
  apply (NoDup_mid d.1 (hd :: ds1.*1)).
Qed.

Lemma linked_insert_new ns ls hd tl ds1 ds2 v :
  linked ns hd tl (ds1 ++ ds2) →
  let l := fresh (dom ns) in
  ∃ ns', (∀ B (k : ptr → M (heap T) B),
            bind (node_insert (first_ptr (data_cells ds2) (Some tl)) (Some l)) k
              (Heap (<[l := Node None None (Some v)]> ns) ls)
            = k (Some l) (Heap ns' ls))
         ∧ linked ns' hd tl (ds1 ++ (l, v) :: ds2)
         ∧ (∀ l', l' ≠ l → l' ∉ footprint hd tl (ds1 ++ ds2) → ns' !! l' = ns !! l')
         ∧ dom ns' = {[l]} ∪ dom ns.
Proof.
  intros Hl l. pose proof (linked_fresh _ _ _ _ Hl) as Hfr. fold l in Hfr.
  assert (ns !! l = None) as Hnone by (apply not_elem_of_dom, is_fresh).
  destruct (linked_insert (<[l := Node None None (Some v)]> ns) ls hd tl ds1 ds2 l
              (Node None None (Some v)) v) as (ns' & E & Hl' & Hf & Hdom);
    [|done|lk|done|].
  { eapply linked_frame; [|done]. intros l' Hl'. apply lookup_insert_ne. congruence. }
  exists ns'. split_and!; [intros; by apply bind_ok|done| |by rewrite Hdom, dom_insert_L].
  intros l' ? ?. rewrite Hf by done. by apply lookup_insert_ne.
Qed.

Lemma linked_erase_delete ns ls hd tl ds1 d ds2 :
  linked ns hd tl (ds1 ++ d :: ds2) →
  ∃ ns', (∀ B (k : unit → M (heap T) B),
            bind (node_erase (Some d.1)) (λ _, bind (delete_node (Some d.1)) k) (Heap ns ls)
            = k tt (Heap ns' ls))
         ∧ linked ns' hd tl (ds1 ++ ds2)
         ∧ ns' !! d.1 = None
         ∧ (∀ l, l ≠ d.1 → ns' !! l = ns !! l ∨ l ∈ footprint hd tl (ds1 ++ ds2))
         ∧ (∀ l, l ∉ footprint hd tl (ds1 ++ d :: ds2) → ns' !! l = ns !! l)
         ∧ dom ns' = dom ns ∖ {[d.1]}.
Proof.
  intros Hl. pose proof Hl as [Hnd _].
  destruct (linked_erase ns ls hd tl ds1 d ds2 Hl) as (ns1 & E & Hl1 & Hd & Hf & Hdom).
  exists (delete d.1 ns1). 
  assert (d.1 ∉ footprint hd tl (ds1 ++ ds2)) as Hnotin by by apply footprint_nodup_mid.
  split_and!.
  - intros. rewrite (bind_ok _ _ _ _ _ E). by mstep.
  - eapply linked_frame; [|done]. intros l Hin. apply lookup_delete_ne. congruence.
  - apply lookup_delete_eq.
  - intros l Hne. rewrite lookup_delete_ne by done.
    destruct (decide (l ∈ footprint hd tl (ds1 ++ d :: ds2))) as [Hin|Hout].
    + right. apply footprint_mid in Hin as [?|?]; done.
    + left. by apply Hf.
  - intros l Hout. rewrite lookup_delete_ne; [by apply Hf|].
    intros <-. apply Hout, footprint_mid. by left.
  - by rewrite dom_delete_L, Hdom.
Qed.

(** ** The mutators on a well-formed list *)

Lemma ptr_eqb_refl (q : ptr) : ptr_eqb q q = true.
Proof. by apply bool_decide_eq_true_2. Qed.

Lemma ptr_eqb_ne (a b : ptr) : a ≠ b → ptr_eqb a b = false.
Proof. apply bool_decide_eq_false_2. Qed.

Lemma linked_data_ne_tail ns hd tl ds d : linked ns hd tl ds → d ∈ ds → d.1 ≠ tl.
Proof.
  intros [Hnd _] Hin E. apply list_elem_of_split in Hin as (ds1 & ds2 & ->).
  change (NoDup (footprint hd tl (ds1 ++ d :: ds2))) in Hnd.
  apply footprint_nodup_mid in Hnd as [Hn _]. apply Hn.
  rewrite E, footprint_eq. rewrite elem_of_cons, elem_of_app, list_elem_of_singleton. auto.
Qed.

Lemma linked_data_ne_head ns hd tl ds d : linked ns hd tl ds → d ∈ ds → d.1 ≠ hd.
Proof.
  intros [Hnd _] Hin E. apply list_elem_of_split in Hin as (ds1 & ds2 & ->).
  change (NoDup (footprint hd tl (ds1 ++ d :: ds2))) in Hnd.
  apply footprint_nodup_mid in Hnd as [Hn _]. apply Hn.
  rewrite E, footprint_eq. apply list_elem_of_here.
Qed.

Lemma linked_head_ne_tail ns hd tl ds : linked ns hd tl ds → hd ≠ tl.
Proof.
  intros [Hnd _] ->. change (NoDup (footprint tl tl ds)) in Hnd.
  rewrite footprint_eq in Hnd. apply NoDup_cons in Hnd as [Hn _]. apply Hn.
  rewrite elem_of_app, list_elem_of_singleton. auto.
Qed.

(** [insert] before the cell that follows [ds1]. *)
Lemma insert_spec h this hd tl ds1 ds2 k v :
  is_list h this hd tl (ds1 ++ ds2) k →
  let l := fresh (dom (nodes h)) in
  ∃ h', insert this (Iter (first_ptr (data_cells ds2) (Some tl)) (Some this)) v h
          = Ok (Iter (Some l) (Some this)) h'
        ∧ is_list h' this hd tl (ds1 ++ (l, v) :: ds2) (wrap (k + 1))
        ∧ (∀ l', l' ≠ l → l' ∉ footprint hd tl (ds1 ++ ds2) →
                 nodes h' !! l' = nodes h !! l')
        ∧ dom (nodes h') = {[l]} ∪ dom (nodes h)
        ∧ lists h' = <[this := ListRep (Some hd) (Some tl) (wrap (k + 1))]> (lists h).
Proof.
  destruct h as [ns ls]. intros [Hr Hl] l. simpl in *.
  destruct (linked_insert_new ns ls hd tl ds1 ds2 v Hl) as (ns' & E & Hl' & Hf & Hdom).
  eexists. split.
  - unfold insert. rewrite bind_throw_if_false; cycle 1.
    { simpl. rewrite ptr_eqb_refl. by destruct (data_cells ds2). }
    mstep. rewrite E. by mstep.
  - simpl. split_and!; [split; [lk|done]|done..].
Qed.

Lemma push_back_spec h this hd tl ds k v :
  is_list h this hd tl ds k →
  let l := fresh (dom (nodes h)) in
  ∃ h', push_back this v h = Ok tt h'
        ∧ is_list h' this hd tl (ds ++ [(l, v)]) (wrap (k + 1))
        ∧ (∀ l', l' ≠ l → l' ∉ footprint hd tl ds → nodes h' !! l' = nodes h !! l')
        ∧ dom (nodes h') = {[l]} ∪ dom (nodes h)
        ∧ lists h' = <[this := ListRep (Some hd) (Some tl) (wrap (k + 1))]> (lists h).
Proof.
  destruct h as [ns ls]. intros [Hr Hl] l. simpl in *.
  rewrite <- (app_nil_r ds) in Hl.
  destruct (linked_insert_new ns ls hd tl ds [] v Hl) as (ns' & E & Hl' & Hf & Hdom).
  rewrite app_nil_r in Hf.
  eexists. split.
  - unfold push_back. do 2 mstep. rewrite E.
    by mfinal.
  - simpl. split_and!; [split; [lk|done]|done..].
Qed.

Lemma push_front_spec h this hd tl ds k v :
  is_list h this hd tl ds k →
  let l := fresh (dom (nodes h)) in
  ∃ h', push_front this v h = Ok tt h'
        ∧ is_list h' this hd tl ((l, v) :: ds) (wrap (k + 1))
        ∧ (∀ l', l' ≠ l → l' ∉ footprint hd tl ds → nodes h' !! l' = nodes h !! l')
        ∧ dom (nodes h') = {[l]} ∪ dom (nodes h)
        ∧ lists h' = <[this := ListRep (Some hd) (Some tl) (wrap (k + 1))]> (lists h).
Proof.
  destruct h as [ns ls]. intros [Hr Hl] l. simpl in *.
  pose proof (linked_head _ _ _ _ Hl) as Hhd.
  pose proof (linked_fresh _ _ _ _ Hl) as Hfr.
  assert (fresh (dom ns) ≠ hd).
  { intros E. apply Hfr. rewrite E, footprint_eq. apply list_elem_of_here. }
  destruct (linked_insert_new ns ls hd tl [] ds v Hl) as (ns' & E & Hl' & Hf & Hdom).
  eexists. split.
  - unfold push_front. do 3 mstep. rewrite E.
    by mfinal.
  - simpl. split_and!; [split; [lk|done]|done..].
Qed.

(** [erase] of a data node. *)
Lemma erase_spec h this hd tl ds1 d ds2 k :
  is_list h this hd tl (ds1 ++ d :: ds2) k → k ≠ 0%Z →
  ∃ h', erase this (Iter (Some d.1) (Some this)) h
          = Ok (Iter (first_ptr (data_cells ds2) (Some tl)) (Some this)) h'
        ∧ is_list h' this hd tl (ds1 ++ ds2) (wrap (k - 1))
        ∧ nodes h' !! d.1 = None
        ∧ (∀ l, l ∉ footprint hd tl (ds1 ++ d :: ds2) → nodes h' !! l = nodes h !! l)
        ∧ dom (nodes h') = dom (nodes h) ∖ {[d.1]}
        ∧ lists h' = <[this := ListRep (Some hd) (Some tl) (wrap (k - 1))]> (lists h).
Proof.
  destruct h as [ns ls]. intros [Hr Hl] Hk. simpl in *.
  pose proof (linked_data _ _ _ _ _ _ Hl) as Hd.
  assert (d.1 ≠ tl) by (eapply linked_data_ne_tail; [done|]; set_solver).
  destruct (linked_erase_delete ns ls hd tl ds1 d ds2 Hl)
    as (ns' & E & Hl' & Hnone & _ & Hf & Hdom).
  eexists. split.
  - unfold erase. mstep. rewrite bind_throw_if_false by by apply Z.eqb_neq.
    mstep. rewrite bind_throw_if_false; cycle 1.
    { rewrite ptr_eqb_refl. simpl. apply ptr_eqb_ne. congruence. }
    mstep. rewrite E. by mstep.
  - simpl. split_and!; [split; [lk|done]|done..].
Qed.

Lemma pop_back_spec h this hd tl ds d k :
  is_list h this hd tl (ds ++ [d]) k → k ≠ 0%Z →
  ∃ h', pop_back this h = Ok tt h'
        ∧ is_list h' this hd tl ds (wrap (k - 1))
        ∧ nodes h' !! d.1 = None
        ∧ (∀ l, l ∉ footprint hd tl (ds ++ [d]) → nodes h' !! l = nodes h !! l)
        ∧ dom (nodes h') = dom (nodes h) ∖ {[d.1]}
        ∧ lists h' = <[this := ListRep (Some hd) (Some tl) (wrap (k - 1))]> (lists h).
Proof.
  destruct h as [ns ls]. intros [Hr Hl] Hk. simpl in *.
  pose proof (linked_tail _ _ _ _ Hl) as Htl.
  rewrite data_cells_app, last_ptr_app in Htl. simpl in Htl.
  destruct (linked_erase_delete ns ls hd tl ds d [] Hl)
    as (ns' & E & Hl' & Hnone & _ & Hf & Hdom).
  rewrite app_nil_r in Hl'.
  eexists. split.
  - unfold pop_back. mstep. rewrite bind_throw_if_false by by apply Z.eqb_neq.
    do 2 mstep. rewrite E. by mfinal.
  - simpl. split_and!; [split; [lk|done]|done..].
Qed.

Lemma pop_front_spec h this hd tl ds d k :
  is_list h this hd tl (d :: ds) k → k ≠ 0%Z →
  ∃ h', pop_front this h = Ok tt h'
        ∧ is_list h' this hd tl ds (wrap (k - 1))
        ∧ nodes h' !! d.1 = None
        ∧ (∀ l, l ∉ footprint hd tl (d :: ds) → nodes h' !! l = nodes h !! l)
        ∧ dom (nodes h') = dom (nodes h) ∖ {[d.1]}
        ∧ lists h' = <[this := ListRep (Some hd) (Some tl) (wrap (k - 1))]> (lists h).
Proof.
  destruct h as [ns ls]. intros [Hr Hl] Hk. simpl in *.
  pose proof (linked_head _ _ _ _ Hl) as Hhd. simpl in Hhd.
  destruct (linked_erase_delete ns ls hd tl [] d ds Hl)
    as (ns' & E & Hl' & Hnone & _ & Hf & Hdom).
  eexists. split.
  - unfold pop_front. mstep. rewrite bind_throw_if_false by by apply Z.eqb_neq.
    do 2 mstep. rewrite E. by mfinal.
  - simpl. split_and!; [split; [lk|done]|done..].
Qed.

(** ** Construction, size and emptiness *)

Lemma bind_init_members {B} h this r (k : unit → M (heap T) B) :
  bind (init_members this r) k h = k tt (Heap (nodes h) (<[this := r]> (lists h))).
Proof. done. Qed.

Lemma list_ctor_spec h this :
  let hd := fresh (dom (nodes h)) in
  let tl := fresh ({[hd]} ∪ dom (nodes h)) in
  ∃ h', list_ctor this h = Ok tt h'
        ∧ is_list h' this hd tl [] 0
        ∧ (∀ l, l ≠ hd → l ≠ tl → nodes h' !! l = nodes h !! l)
        ∧ lists h' = <[this := ListRep (Some hd) (Some tl) 0]> (lists h).
Proof.
  destruct h as [ns ls]. intros hd tl. simpl in *.
  assert (hd ∉ dom ns) by apply is_fresh.
  assert (tl ∉ {[hd]} ∪ dom ns) as Htl by apply is_fresh.
  assert (hd ≠ tl) by set_solver.
  eexists. split.
  - unfold list_ctor. do 2 mstep. rewrite dom_insert_L. fold hd. fold tl.
    rewrite bind_init_members. simpl. do 5 mstep.
    by mfinal.
  - simpl. split_and!; [split; [lk|]| |done].
    + split.
      * simpl. apply NoDup_cons. split; [set_solver|]. apply NoDup_singleton.
      * simpl. split_and!; [lk|lk|done].
    + intros l ? ?. by rewrite !lookup_insert_ne.
Qed.

Lemma size_spec h this hd tl ds k :
  is_list h this hd tl ds k → size this h = Ok k h.
Proof.
  intros [Hr _]. unfold size. by mfinal.
Qed.

Lemma empty_spec h this hd tl ds k :
  is_list h this hd tl ds k → empty this h = Ok (k =? 0)%Z h.
Proof. intros [Hr _]. unfold empty. by mstep. Qed.

Lemma wrap_small z : (0 ≤ z < size_max)%Z → wrap z = z.
Proof. intros. unfold wrap. by apply Z.mod_small. Qed.

Lemma run_ops_spec this (os : list (pp_op T)) : ∀ h hd tl ds,
  is_list h this hd tl ds (Z.of_nat (length ds)) →
  pops_allowed (length ds) os = true →
  (Z.of_nat (length ds + pushes os) < size_max)%Z →
  ∃ h' ds', run_ops this os h = Ok tt h'
            ∧ is_list h' this hd tl ds' (Z.of_nat (length ds'))
            ∧ length ds' + pops os = length ds + pushes os.
Proof.
  induction os as [|o os IH]; intros h hd tl ds Hil Hpa Hb; simpl in *.
  { exists h, ds. split_and!; [done|done|lia]. }
  destruct o as [v|v| |]; simpl in *.
  - destruct (push_back_spec h this hd tl ds _ v Hil) as (h1 & E & Hil1 & _).
    rewrite wrap_small in Hil1 by lia.
    destruct (IH h1 hd tl (ds ++ [(fresh (dom (nodes h)), v)])) as (h' & ds' & E' & Hil' & Hlen).
    + rewrite length_app. simpl. by replace (Z.of_nat (length ds + 1)) with (Z.of_nat (length ds) + 1)%Z by lia.
    + rewrite length_app. simpl. by replace (length ds + 1) with (S (length ds)) by lia.
    + rewrite length_app. simpl. lia.
    + exists h', ds'. split_and!; [by rewrite (bind_ok _ _ _ _ _ E)|done|].
      rewrite length_app in Hlen. simpl in Hlen. lia.
  - destruct (push_front_spec h this hd tl ds _ v Hil) as (h1 & E & Hil1 & _).
    rewrite wrap_small in Hil1 by lia.
    destruct (IH h1 hd tl ((fresh (dom (nodes h)), v) :: ds)) as (h' & ds' & E' & Hil' & Hlen).
    + simpl. by replace (Z.of_nat (S (length ds))) with (Z.of_nat (length ds) + 1)%Z by lia.
    + done.
    + simpl. lia.
    + exists h', ds'. split_and!; [by rewrite (bind_ok _ _ _ _ _ E)|done|].
      simpl in Hlen. lia.
  - destruct ds as [|d ds _] using rev_ind; [done|].
    rewrite length_app in *. simpl in *.
    replace (length ds + 1) with (S (length ds)) in Hpa by lia.
    destruct (pop_back_spec h this hd tl ds d _ Hil) as (h1 & E & Hil1 & _); [lia|].
    rewrite wrap_small in Hil1 by lia.
    destruct (IH h1 hd tl ds) as (h' & ds' & E' & Hil' & Hlen).
    + by replace (Z.of_nat (length ds)) with (Z.of_nat (length ds + 1) - 1)%Z by lia.
    + done.
    + lia.
    + exists h', ds'. split_and!; [by rewrite (bind_ok _ _ _ _ _ E)|done|lia].
  - destruct ds as [|d ds]; [done|]. simpl in *.
    destruct (pop_front_spec h this hd tl ds d _ Hil) as (h1 & E & Hil1 & _); [lia|].
    rewrite wrap_small in Hil1 by lia.
    destruct (IH h1 hd tl ds) as (h' & ds' & E' & Hil' & Hlen).
    + by replace (Z.of_nat (length ds)) with (Z.of_nat (S (length ds)) - 1)%Z by lia.
    + done.
    + lia.
    + exists h', ds'. split_and!; [by rewrite (bind_ok _ _ _ _ _ E)|done|lia].
Qed.

(** C4: starting from a freshly constructed list, after any sequence
    of [push_back] / [push_front] / [pop_back] / [pop_front] in which a
    pop is only issued while the list holds an element, every call
    returns, [size()] is the number of pushes minus the number of pops,
    and [empty()] is true exactly when [size()] is 0.  (The count is a
    [size_t]: the number of pushes is taken below 2^64.) *)
Theorem C4_size_is_pushes_minus_pops (h0 : heap T) this (os : list (pp_op T)) :
  pops_allowed 0 os = true →
  (Z.of_nat (pushes os) < size_max)%Z →
  ∃ h1 h2 k b,
    list_ctor this h0 = Ok tt h1 ∧
    run_ops this os h1 = Ok tt h2 ∧
    size this h2 = Ok k h2 ∧
    empty this h2 = Ok b h2 ∧
    k = (Z.of_nat (pushes os) - Z.of_nat (pops os))%Z ∧
    (b = true ↔ k = 0%Z).
Proof.
  intros Hpa Hb.
  destruct (list_ctor_spec h0 this) as (h1 & E1 & Hil & _).
  destruct (run_ops_spec this os h1 _ _ [] Hil Hpa) as (h2 & ds & E2 & Hil2 & Hlen);
    [simpl; lia|]. simpl in Hlen.
  exists h1, h2, (Z.of_nat (length ds)), (Z.of_nat (length ds) =? 0)%Z.
  split_and!; [done|done|by eapply size_spec|by eapply empty_spec|lia|apply Z.eqb_eq].
Qed.

End Proofs.

(** ** Where exceptions can come from *)

Section Effects.
Context {T : Type}.

Lemma no_throw_clean {S A} (m : M S A) : no_throw m → throws_clean m.
Proof. intros H s e s' E. by apply H in E. Qed.

Lemma no_throw_bind {S A B} (m : M S A) (k : A → M S B) :
  no_throw m → (∀ a, no_throw (k a)) → no_throw (bind m k).
Proof.
  intros Hm Hk s e s'. unfold bind. destruct (m s) eqn:E; try done.
  - apply Hk.
  - by apply Hm in E.
Qed.

Lemma throws_clean_bind_reads {S A B} (m : M S A) (k : A → M S B) :
  reads_only m → throws_clean m → (∀ a, throws_clean (k a)) → throws_clean (bind m k).
Proof.
  intros Hr Hm Hk s e s'. unfold bind. destruct (m s) eqn:E; try done.
  - apply Hr in E as ->. apply Hk.
  - intros [= <- <-]. by apply Hm in E.
Qed.

Lemma throws_clean_bind_no_throw {S A B} (m : M S A) (k : A → M S B) :
  throws_clean m → (∀ a, no_throw (k a)) → throws_clean (bind m k).
Proof.
  intros Hm Hk s e s'. unfold bind. destruct (m s) eqn:E; try done.
  - intros E'. by apply Hk in E'.
  - intros [= <- <-]. by apply Hm in E.
Qed.

Lemma reads_only_bind {S A B} (m : M S A) (k : A → M S B) :
  reads_only m → (∀ a, reads_only (k a)) → reads_only (bind m k).
Proof.
  intros Hm Hk s b s'. unfold bind. destruct (m s) eqn:E; try done.
  apply Hm in E as ->. apply Hk.
Qed.

Lemma no_throw_ret {S A} (a : A) : no_throw (S:=S) (ret a).
Proof. done. Qed.
Lemma reads_only_ret {S A} (a : A) : reads_only (S:=S) (ret a).
Proof. by intros s b s' [= _ <-]. Qed.
Lemma no_throw_rd {S A} (o : option A) : no_throw (S:=S) (rd o).
Proof. intros s e s'. unfold rd. by destruct o. Qed.
Lemma reads_only_rd {S A} (o : option A) : reads_only (S:=S) (rd o).
Proof. intros s a s'. unfold rd. destruct o; [|done]. by intros [= _ <-]. Qed.
Lemma no_throw_get {S} : no_throw (@get S).
Proof. done. Qed.
Lemma reads_only_get {S} : reads_only (@get S).
Proof. by intros s a s' [= _ <-]. Qed.
Lemma no_throw_put {S} (s0 : S) : no_throw (put s0).
Proof. done. Qed.
Lemma no_throw_timeout {S A} : no_throw (@timeout S A).
Proof. done. Qed.
Lemma throws_clean_throw_if {S} b e : throws_clean (S:=S) (throw_if b e).
Proof. intros s e' s'. unfold throw_if. destruct b; [|done]. by intros [= _ <-]. Qed.
Lemma reads_only_throw_if {S} b e : reads_only (S:=S) (throw_if b e).
Proof. intros s a s'. unfold throw_if. destruct b; [done|]. by intros [= _ <-]. Qed.
Lemma throws_clean_throw {S A} e : throws_clean (@throw S A e).
Proof. by intros s e' s' [= _ <-]. Qed.

Lemma no_throw_load (q : ptr) : no_throw (load (T:=T) q).
Proof. intros s e s'. unfold load. apply no_throw_rd. Qed.
Lemma reads_only_load (q : ptr) : reads_only (load (T:=T) q).
Proof. intros s e s'. unfold load. apply reads_only_rd. Qed.
Lemma no_throw_store (q : ptr) f : no_throw (store (T:=T) q f).
Proof. intros s e s'. unfold store. by repeat case_match. Qed.
Lemma no_throw_new_node v : no_throw (new_node (T:=T) v).
Proof. done. Qed.
Lemma no_throw_delete_node q : no_throw (delete_node (T:=T) q).
Proof. intros s e s'. unfold delete_node. by repeat case_match. Qed.
Lemma no_throw_load_list this : no_throw (load_list (T:=T) this).
Proof. intros s e s'. unfold load_list. apply no_throw_rd. Qed.
Lemma reads_only_load_list this : reads_only (load_list (T:=T) this).
Proof. intros s e s'. unfold load_list. apply reads_only_rd. Qed.
Lemma no_throw_store_list this f : no_throw (store_list (T:=T) this f).
Proof. intros s e s'. unfold store_list. by repeat case_match. Qed.
Lemma no_throw_init_members this r : no_throw (init_members (T:=T) this r).
Proof. done. Qed.
Lemma no_throw_end_lifetime this : no_throw (end_lifetime (T:=T) this).
Proof. done. Qed.

End Effects.

Create HintDb effects.

(** Decide [no_throw], [reads_only] and [throws_clean] goals by the
    shape of the program. *)
Ltac effects :=
  lazymatch goal with
  | |- no_throw (bind _ _) => apply no_throw_bind; [effects | intros; effects]
  | |- no_throw (if ?b then _ else _) => destruct b; effects
  | |- no_throw (match ?x with _ => _ end) => destruct x; effects
  | |- no_throw (let _ := _ in _) => cbv zeta; effects
  | |- no_throw _ =>
      first [ apply no_throw_ret | apply no_throw_rd | apply no_throw_get
            | apply no_throw_put | apply no_throw_timeout
            | apply no_throw_load | apply no_throw_store
            | apply no_throw_new_node | apply no_throw_delete_node
            | apply no_throw_load_list | apply no_throw_store_list
            | apply no_throw_init_members | apply no_throw_end_lifetime
            | solve [auto with effects] ]
  | |- reads_only (bind _ _) => apply reads_only_bind; [effects | intros; effects]
  | |- reads_only _ =>
      first [ apply reads_only_ret | apply reads_only_rd | apply reads_only_get
            | apply reads_only_load | apply reads_only_load_list
            | apply reads_only_throw_if
            | solve [auto with effects] ]
  | |- throws_clean (bind _ _) =>
      first [ apply throws_clean_bind_no_throw; [effects | intros; effects]
            | apply throws_clean_bind_reads; [effects | effects | intros; effects] ]
  | |- throws_clean (if ?b then _ else _) => destruct b; effects
  | |- throws_clean (match ?x with _ => _ end) => destruct x; effects
  | |- throws_clean (let _ := _ in _) => cbv zeta; effects
  | |- throws_clean _ =>
      first [ apply throws_clean_throw_if | apply throws_clean_throw
            | solve [auto with effects]
            | apply no_throw_clean; effects ]
  end.

Section EffectsNodes.
Context {T : Type}.
Implicit Types (h : heap T).

Lemma no_throw_get_prev q : no_throw (get_prev (T:=T) q).
Proof. unfold get_prev. effects. Qed.
Lemma no_throw_get_next q : no_throw (get_next (T:=T) q).
Proof. unfold get_next. effects. Qed.
Lemma no_throw_get_elem q : no_throw (get_elem (T:=T) q).
Proof. unfold get_elem, get_val. effects. Qed.
Lemma no_throw_set_prev q v : no_throw (set_prev (T:=T) q v).
Proof. unfold set_prev. effects. Qed.
Lemma no_throw_set_next q v : no_throw (set_next (T:=T) q v).
Proof. unfold set_next. effects. Qed.
Lemma no_throw_get_head this : no_throw (get_head (T:=T) this).
Proof. unfold get_head. effects. Qed.
Lemma no_throw_get_tail this : no_throw (get_tail (T:=T) this).
Proof. unfold get_tail. effects. Qed.
Lemma no_throw_get_n this : no_throw (get_n (T:=T) this).
Proof. unfold get_n. effects. Qed.
Lemma no_throw_set_head this v : no_throw (set_head (T:=T) this v).
Proof. unfold set_head. effects. Qed.
Lemma no_throw_set_tail this v : no_throw (set_tail (T:=T) this v).
Proof. unfold set_tail. effects. Qed.
Lemma no_throw_set_n this v : no_throw (set_n (T:=T) this v).
Proof. unfold set_n. effects. Qed.
Lemma reads_only_get_prev q : reads_only (get_prev (T:=T) q).
Proof. unfold get_prev. effects. Qed.
Lemma reads_only_get_next q : reads_only (get_next (T:=T) q).
Proof. unfold get_next. effects. Qed.
Lemma reads_only_get_elem q : reads_only (get_elem (T:=T) q).
Proof. unfold get_elem, get_val. effects. Qed.
Lemma reads_only_get_head this : reads_only (get_head (T:=T) this).
Proof. unfold get_head. effects. Qed.
Lemma reads_only_get_tail this : reads_only (get_tail (T:=T) this).
Proof. unfold get_tail. effects. Qed.
Lemma reads_only_get_n this : reads_only (get_n (T:=T) this).
Proof. unfold get_n. effects. Qed.

End EffectsNodes.

Global Hint Resolve no_throw_get_prev no_throw_get_next no_throw_get_elem
  no_throw_set_prev no_throw_set_next no_throw_get_head no_throw_get_tail
  no_throw_get_n no_throw_set_head no_throw_set_tail no_throw_set_n
  reads_only_get_prev reads_only_get_next reads_only_get_elem
  reads_only_get_head reads_only_get_tail reads_only_get_n : effects.

Section EffectsTopology.
Context {T : Type}.
Implicit Types (h : heap T).

Lemma no_throw_incr_n this : no_throw (incr_n (T:=T) this).
Proof. unfold incr_n. effects. Qed.
Lemma no_throw_decr_n this : no_throw (decr_n (T:=T) this).
Proof. unfold decr_n. effects. Qed.
Lemma no_throw_node_insert pos cur : no_throw (node_insert (T:=T) pos cur).
Proof. unfold node_insert. effects. Qed.
Lemma no_throw_node_erase pos : no_throw (node_erase (T:=T) pos).
Proof. unfold node_erase. effects. Qed.

End EffectsTopology.

Global Hint Resolve no_throw_incr_n no_throw_decr_n no_throw_node_insert
  no_throw_node_erase : effects.

Section EffectsMethods.
Context {T : Type}.
Implicit Types (h : heap T).

Lemma throws_clean_insert this pos v : throws_clean (insert (T:=T) this pos v).
Proof. unfold insert. effects. Qed.
Lemma throws_clean_erase this pos : throws_clean (erase (T:=T) this pos).
Proof. unfold erase. effects. Qed.

End EffectsMethods.

(** ** Iterators at the boundaries *)

(** Evaluate an iterator method whose reads are known. *)
Ltac it_eval Hr :=
  unfold cit_deref, cit_arrow, cit_pre_incr, cit_post_incr, cit_pre_decr,
    cit_post_decr;
  unfold it_deref, it_arrow, it_pre_incr, it_post_incr, it_pre_decr, it_post_decr,
    it_retreat, bind, get, put, ret, throw_if, throw, rd, list_at, node_at,
    is_null, ptr_eqb;
  cbn [p owner]; rewrite ?Hr; cbn [head tail n];
  repeat (case_bool_decide; cbn [orb negb]; try done).

Section Iterators.
Context {T : Type}.
Implicit Types (ns : gmap loc (node T)) (ls : gmap loc list_rep) (h : heap T).
Implicit Types (cs : list (loc * option T)) (ds : list (loc * T)).

Lemma end_spec h this r :
  lists h !! this = Some r → end_ this h = Ok (Iter (tail r) (Some this)) h.
Proof. intros Hr. unfold end_. by mstep. Qed.

Lemma begin_spec h this hd tl ds k :
  is_list h this hd tl ds k →
  begin this h = Ok (Iter (first_ptr (data_cells ds) (Some tl)) (Some this)) h.
Proof.
  intros [Hr Hl]. pose proof (linked_head _ _ _ _ Hl). unfold begin. by do 2 mstep.
Qed.

Lemma at_end_throws h this r :
  lists h !! this = Some r →
  let it := Iter (tail r) (Some this) in
  it_deref h it = Throw invalid_iterator it ∧
  it_arrow h it = Throw invalid_iterator it ∧
  it_pre_incr h it = Throw invalid_iterator it ∧
  it_post_incr h it = Throw invalid_iterator it.
Proof. intros Hr it. subst it. split_and!; it_eval Hr. Qed.

Lemma unbound_throws h :
  let u := Iter None None in
  it_deref h u = Throw invalid_iterator u ∧
  it_arrow h u = Throw invalid_iterator u ∧
  it_pre_incr h u = Throw invalid_iterator u ∧
  it_post_incr h u = Throw invalid_iterator u ∧
  it_pre_decr h u = Throw invalid_iterator u ∧
  it_post_decr h u = Throw invalid_iterator u.
Proof. by split_and!. Qed.

(** C7: dereferencing ([*], [->]) or incrementing (prefix, postfix)
    the iterator returned by [end()] (or [cend()]) raises
    [invalid_iterator], and so does every increment, decrement and
    dereference of a default-constructed iterator; the exception leaves
    the iterator as it was (the list is only read by these methods). *)
Theorem C7_end_and_unbound_iterators_throw (h : heap T) this r :
  lists h !! this = Some r →
  (∃ it, end_ this h = Ok it h ∧ cend this h = Ok it h ∧
         it_deref h it = Throw invalid_iterator it ∧
         it_arrow h it = Throw invalid_iterator it ∧
         it_pre_incr h it = Throw invalid_iterator it ∧
         it_post_incr h it = Throw invalid_iterator it ∧
         cit_deref h it = Throw invalid_iterator it ∧
         cit_arrow h it = Throw invalid_iterator it ∧
         cit_pre_incr h it = Throw invalid_iterator it ∧
         cit_post_incr h it = Throw invalid_iterator it) ∧
  (let u := Iter None None in
   it_deref h u = Throw invalid_iterator u ∧
   it_arrow h u = Throw invalid_iterator u ∧
   it_pre_incr h u = Throw invalid_iterator u ∧
   it_post_incr h u = Throw invalid_iterator u ∧
   it_pre_decr h u = Throw invalid_iterator u ∧
   it_post_decr h u = Throw invalid_iterator u ∧
   cit_deref h u = Throw invalid_iterator u ∧
   cit_arrow h u = Throw invalid_iterator u ∧
   cit_pre_incr h u = Throw invalid_iterator u ∧
   cit_post_incr h u = Throw invalid_iterator u ∧
   cit_pre_decr h u = Throw invalid_iterator u ∧
   cit_post_decr h u = Throw invalid_iterator u).
Proof.
  intros Hr. split.
  - exists (Iter (tail r) (Some this)).
    unfold cend. split_and!; try (by apply end_spec); it_eval Hr.
  - by split_and!.
Qed.

(** Decrementing an iterator at the first data node is accepted and
    leaves the iterator on the head sentinel. *)
Lemma decr_at_first h this hd tl d ds k :
  is_list h this hd tl (d :: ds) k →
  let it := Iter (Some d.1) (Some this) in
  begin this h = Ok it h ∧
  it_pre_decr h it = Ok tt (Iter (Some hd) (Some this)) ∧
  it_post_decr h it = Ok it (Iter (Some hd) (Some this)).
Proof.
  intros Hil it. pose proof (begin_spec _ _ _ _ _ _ Hil) as Hb.
  destruct Hil as [Hr Hl].
  pose proof (linked_data _ hd tl [] d ds Hl) as Hd. simpl in Hd.
  assert (d.1 ≠ hd) by (eapply linked_data_ne_head; [done|]; apply list_elem_of_here).
  assert (d.1 ≠ tl) by (eapply linked_data_ne_tail; [done|]; apply list_elem_of_here).
  split_and!; [done|..]; subst it; it_eval Hr; try congruence; by rewrite Hd.
Qed.

End Iterators.

(** ** [erase]: validation and effect *)

Section Erase.
Context {T : Type}.
Implicit Types (ns : gmap loc (node T)) (ls : gmap loc list_rep) (h : heap T).
Implicit Types (cs : list (loc * option T)) (ds : list (loc * T)).

Lemma erase_test_true this tl pos :
  negb (ptr_eqb (owner pos) (Some this)) || is_null (p pos) || ptr_eqb (p pos) tl = true
  ↔ erase_rejects this tl pos.
Proof.
  unfold erase_rejects, ptr_eqb, is_null.
  repeat case_bool_decide; simpl; naive_solver.
Qed.

Lemma erase_empty h this r pos :
  lists h !! this = Some r → n r = 0%Z →
  erase this pos h = Throw container_is_empty h.
Proof.
  intros Hr Hn. unfold erase. mstep. rewrite Hn. by rewrite bind_throw_if_true.
Qed.

Lemma erase_invalid h this r pos :
  lists h !! this = Some r → n r ≠ 0%Z → erase_rejects this (tail r) pos →
  erase this pos h = Throw invalid_iterator h.
Proof.
  intros Hr Hn Hrej. unfold erase. mstep.
  rewrite bind_throw_if_false by by apply Z.eqb_neq.
  mstep. rewrite bind_throw_if_true; [done|]. by apply erase_test_true.
Qed.

Lemma erase_invalid_inv h this r pos h' :
  lists h !! this = Some r →
  erase this pos h = Throw invalid_iterator h' →
  h' = h ∧ n r ≠ 0%Z ∧ erase_rejects this (tail r) pos.
Proof.
  intros Hr. unfold erase. mstep.
  destruct (n r =? 0)%Z eqn:En.
  { by rewrite bind_throw_if_true. }
  rewrite bind_throw_if_false by done. mstep.
  destruct (negb (ptr_eqb (owner pos) (Some this)) || is_null (p pos)
            || ptr_eqb (p pos) (tail r)) eqn:Et.
  - rewrite bind_throw_if_true by done. intros [= <-].
    split_and!; [done|by apply Z.eqb_neq|by apply erase_test_true].
  - rewrite bind_throw_if_false by done. intros E. exfalso. revert E.
    assert (no_throw (S:=heap T) (nx <- get_next (p pos) ;; node_erase (p pos) ;;
              delete_node (p pos) ;; decr_n this ;; ret (Iter nx (Some this)))) as Hnt
      by effects.
    apply Hnt.
Qed.

(** On a well-formed non-empty list, [erase] at the head sentinel
    passes both tests and then dereferences the null [prev] of the
    sentinel. *)
Lemma erase_at_head h this hd tl ds k :
  is_list h this hd tl ds k → k ≠ 0%Z →
  erase this (Iter (Some hd) (Some this)) h = UB.
Proof.
  intros [Hr Hl] Hk.
  pose proof (linked_head _ _ _ _ Hl) as Hhd.
  pose proof (linked_head_ne_tail _ _ _ _ Hl).
  unfold erase. mstep. rewrite bind_throw_if_false by by apply Z.eqb_neq.
  mstep. rewrite bind_throw_if_false; cycle 1.
  { rewrite ptr_eqb_refl. cbn. apply ptr_eqb_ne. congruence. }
  mstep. unfold node_erase. do 2 mstep. by rewrite bind_assoc.
Qed.

(** C3: [L.erase(pos)] raises [container_is_empty] when the count is
    zero; otherwise it raises [invalid_iterator] when [pos] is owned by
    another list, references no node, or references the tail sentinel;
    on a data node of [L] it succeeds: the node is unlinked and
    deallocated, the count drops by one, and the returned iterator
    references the node that followed ([end()] if there was none). *)
Theorem C3_erase_contract (h : heap T) this r pos :
  lists h !! this = Some r →
  (n r = 0%Z → erase this pos h = Throw container_is_empty h) ∧
  (n r ≠ 0%Z →
   owner pos ≠ Some this ∨ p pos = None ∨ p pos = tail r →
   erase this pos h = Throw invalid_iterator h) ∧
  (∀ hd tl ds1 d ds2,
     wf_list h this hd tl (ds1 ++ d :: ds2) →
     pos = Iter (Some d.1) (Some this) →
     ∃ it h',
       erase this pos h = Ok it h' ∧
       wf_list h' this hd tl (ds1 ++ ds2) ∧
       nodes h' !! d.1 = None ∧
       dom (nodes h') = dom (nodes h) ∖ {[d.1]} ∧
       size this h' = Ok (n r - 1)%Z h' ∧
       owner it = Some this ∧
       match ds2 with
       | [] => end_ this h' = Ok it h'
       | d' :: _ => p it = Some d'.1
       end).
Proof.
  intros Hr. split_and!.
  - by eapply erase_empty.
  - intros. by eapply erase_invalid.
  - intros hd tl ds1 d ds2 [Hil Hb] ->.
    pose proof Hil as [Hr' _]. rewrite Hr in Hr'. injection Hr' as ->.
    rewrite length_app in *. simpl in *.
    destruct (erase_spec h this hd tl ds1 d ds2 _ Hil) as (h' & E & Hil' & Hnone & _ & Hdom & _);
      [lia|].
    rewrite wrap_small in Hil' by lia.
    replace (Z.of_nat (length ds1 + S (length ds2)) - 1)%Z
      with (Z.of_nat (length (ds1 ++ ds2))) in * by (rewrite length_app; lia).
    eexists _, h'. split_and!; [done| |done|done|by eapply size_spec|done|].
    + split; [done|]. rewrite length_app. lia.
    + destruct ds2 as [|d' ds2]; [|done]. simpl.
      destruct Hil' as [Hr' _]. by rewrite (end_spec _ _ _ Hr').
Qed.

(** C9 (the code departs from the specification): the iterator test
    of [erase] rejects exactly an owner mismatch, a null node reference
    and the tail sentinel.  An iterator on the head sentinel, which
    decrementing an iterator at the first data node yields, is invalid
    as well, yet it passes the test: no [invalid_iterator] is raised,
    and the unlinking that follows dereferences the sentinel's null
    [prev] link, which is undefined behaviour. *)
Theorem C9_erase_accepts_head_sentinel (h : heap T) this hd tl d ds :
  wf_list h this hd tl (d :: ds) →
  (∀ pos h', erase this pos h = Throw invalid_iterator h' ↔
             h' = h ∧ (owner pos ≠ Some this ∨ p pos = None ∨ p pos = Some tl)) ∧
  (∃ it, begin this h = Ok it h ∧
         it_pre_decr h it = Ok tt (Iter (Some hd) (Some this)) ∧
         it_post_decr h it = Ok it (Iter (Some hd) (Some this))) ∧
  erase this (Iter (Some hd) (Some this)) h = UB.
Proof.
  intros [Hil Hb]. pose proof Hil as [Hr _]. simpl in *. split_and!.
  - intros pos h'. split.
    + intros E. by apply (erase_invalid_inv _ _ _ _ _ Hr) in E as (-> & _ & ?).
    + intros [-> Hrej]. eapply erase_invalid; [done|simpl; lia|done].
  - eexists. by eapply decr_at_first.
  - eapply erase_at_head; [done|lia].
Qed.

End Erase.

(** ** [reverse] *)

Section Reverse.
Context {T : Type}.
Implicit Types (ns : gmap loc (node T)) (ls : gmap loc list_rep) (h : heap T).
Implicit Types (cs : list (loc * option T)) (ds : list (loc * T)).

Lemma swap_links_involutive (nd : node T) : swap_links (swap_links nd) = nd.
Proof. by destruct nd. Qed.

Lemma last_ptr_rev cs nx : last_ptr nx (rev cs) = first_ptr cs nx.
Proof.
  destruct cs as [|c cs]; [done|]. simpl. by rewrite last_ptr_app.
Qed.

Lemma first_ptr_rev cs pv : first_ptr (rev cs) pv = last_ptr pv cs.
Proof.
  revert pv. induction cs as [|c cs IH]; intros pv; [done|]. simpl.
  rewrite first_ptr_app, IH. by destruct cs.
Qed.

(** A segment whose nodes all had their links swapped is the reversed
    segment, entered from the other side. *)
Lemma dll_rev ns ns' pv cs nx :
  NoDup cs.*1 →
  (∀ l, l ∈ cs.*1 → ns' !! l = swap_links <$> ns !! l) →
  dll ns pv cs nx → dll ns' nx (rev cs) pv.
Proof.
  revert pv. induction cs as [|c cs IH]; intros pv Hnd Hsw; [done|].
  simpl. intros [Hc Hd]. rewrite fmap_cons in Hnd. apply NoDup_cons in Hnd as [Hn Hnd].
  apply dll_app. split.
  - simpl. apply IH; [done| |done]. intros l Hl. apply Hsw. simpl. by apply list_elem_of_further.
  - simpl. split; [|done]. rewrite Hsw, Hc by (simpl; apply list_elem_of_here).
    simpl. unfold swap_links. simpl. by rewrite last_ptr_rev.
Qed.

Lemma reverse_loop_spec ls cs : ∀ ns pv fuel,
  NoDup cs.*1 → dll ns pv cs None → length cs < fuel →
  ∃ ns', reverse_loop fuel (first_ptr cs None) (Heap ns ls) = Ok tt (Heap ns' ls)
         ∧ (∀ l, l ∈ cs.*1 → ns' !! l = swap_links <$> ns !! l)
         ∧ (∀ l, l ∉ cs.*1 → ns' !! l = ns !! l).
Proof.
  induction cs as [|c cs IH]; intros ns pv fuel Hnd Hd Hf.
  { destruct fuel; [simpl in Hf; lia|]. exists ns. split_and!; [done| |done].
    intros l Hl. by apply elem_of_nil in Hl. }
  destruct fuel; [simpl in Hf; lia|]. simpl in Hf, Hd. destruct Hd as [Hc Hd].
  rewrite fmap_cons in Hnd. apply NoDup_cons in Hnd as [Hn Hnd].
  destruct (IH (<[c.1 := Node (first_ptr cs None) pv c.2]> ns) (Some c.1) fuel)
    as (ns' & E & Hin & Hout); [done| |lia|].
  { eapply dll_frame; [|done]. intros l Hl. apply lookup_insert_ne.
    intros E. apply Hn. by rewrite E. }
  exists ns'. split_and!.
  - cbn [reverse_loop first_ptr]. unfold is_null. rewrite bool_decide_eq_false_2 by done.
    do 5 mstep. rewrite insert_insert_eq. exact E.
  - intros l Hl. simpl in Hl. apply elem_of_cons in Hl as [->|Hl].
    + rewrite Hout by done. rewrite lookup_insert_eq, Hc. done.
    + rewrite Hin by done. rewrite lookup_insert_ne; [done|].
      intros E'. apply Hn. by rewrite E'.
  - intros l Hl. simpl in Hl. apply not_elem_of_cons in Hl as [? ?].
    rewrite Hout by done. by apply lookup_insert_ne.
Qed.

Lemma chain_rev hd tl ds : chain tl hd (rev ds) = rev (chain hd tl ds).
Proof.
  unfold chain, data_cells. simpl. rewrite rev_app_distr. simpl.
  by rewrite map_rev.
Qed.

Lemma footprint_rev hd tl ds l : l ∈ footprint tl hd (rev ds) ↔ l ∈ footprint hd tl ds.
Proof.
  unfold footprint. rewrite chain_rev. by rewrite <- Permutation_rev.
Qed.

Lemma reverse_spec h this hd tl ds k fuel :
  is_list h this hd tl ds k → length ds + 2 < fuel →
  ∃ h', reverse fuel this h = Ok tt h'
        ∧ is_list h' this tl hd (rev ds) k
        ∧ (∀ l, l ∈ footprint hd tl ds → nodes h' !! l = swap_links <$> nodes h !! l)
        ∧ (∀ l, l ∉ footprint hd tl ds → nodes h' !! l = nodes h !! l)
        ∧ lists h' = <[this := ListRep (Some tl) (Some hd) k]> (lists h).
Proof.
  destruct h as [ns ls]. intros [Hr [Hnd Hd]] Hf. simpl in *.
  destruct (reverse_loop_spec ls (chain hd tl ds) ns None fuel) as (ns' & E & Hin & Hout);
    [done|done|..].
  { unfold chain. simpl. rewrite length_app. unfold data_cells. rewrite length_map. simpl. lia. }
  eexists. split.
  - unfold reverse. mstep. simpl in E. rewrite (bind_ok _ _ _ _ _ E).
    do 3 mstep. by mfinal.
  - simpl. rewrite insert_insert_eq. split_and!; [split; [lk|]|done|done|done].
    split.
    + rewrite chain_rev. by rewrite <- Permutation_rev.
    + rewrite chain_rev. by eapply dll_rev.
Qed.

Lemma deref_data h this hd tl ds1 d ds2 k :
  is_list h this hd tl (ds1 ++ d :: ds2) k →
  let it := Iter (Some d.1) (Some this) in
  it_deref h it = Ok d.2 it.
Proof.
  intros [Hr Hl] it.
  pose proof (linked_data _ _ _ _ _ _ Hl) as Hd.
  assert (d.1 ≠ hd) by (eapply linked_data_ne_head; [done|]; set_solver).
  assert (d.1 ≠ tl) by (eapply linked_data_ne_tail; [done|]; set_solver).
  subst it. it_eval Hr; try congruence. by rewrite Hd.
Qed.

(** C5: [reverse()] reverses the sequence of data nodes: the very same
    nodes (addresses), each still holding its element, are traversed in
    the opposite order, and nothing is allocated, freed or copied.  A
    second [reverse()] gives back the state before the first one, so an
    iterator to a data node dereferences to the same value as before. *)
Theorem C5_reverse_relinks_and_is_involutive (h : heap T) this hd tl ds fuel :
  wf_list h this hd tl ds → length ds + 2 < fuel →
  ∃ h1 h2,
    reverse fuel this h = Ok tt h1 ∧
    wf_list h1 this tl hd (rev ds) ∧
    (∀ l, val <$> nodes h1 !! l = val <$> nodes h !! l) ∧
    reverse fuel this h1 = Ok tt h2 ∧
    h2 = h ∧
    (∀ d, d ∈ ds →
          let it := Iter (Some d.1) (Some this) in
          it_deref h it = Ok d.2 it ∧ it_deref h1 it = Ok d.2 it ∧
          it_deref h2 it = Ok d.2 it).
Proof.
  intros [Hil Hb] Hf.
  destruct (reverse_spec h this hd tl ds _ fuel Hil Hf) as (h1 & E1 & Hil1 & Hin1 & Hout1 & Hls1).
  destruct (reverse_spec h1 this tl hd (rev ds) _ fuel Hil1) as (h2 & E2 & Hil2 & Hin2 & Hout2 & Hls2).
  { by rewrite length_rev. }
  assert (h2 = h) as Heq.
  { destruct h as [ns ls], h1 as [ns1 ls1], h2 as [ns2 ls2]. simpl in *. f_equal.
    - apply map_eq. intros l.
      destruct (decide (l ∈ footprint hd tl ds)) as [Hl|Hl].
      + rewrite Hin2 by by apply footprint_rev. rewrite Hin1 by done.
        destruct (ns !! l) as [nd|]; [|done]. simpl. by rewrite swap_links_involutive.
      + rewrite Hout2 by by rewrite footprint_rev. by apply Hout1.
    - subst. rewrite insert_insert_eq. apply insert_id. by destruct Hil as [? _]. }
  exists h1, h2. split_and!; [done| |..|done|done|].
  - split; [by rewrite length_rev|by rewrite length_rev].
  - intros l. destruct (decide (l ∈ footprint hd tl ds)) as [Hl|Hl].
    + rewrite Hin1 by done. by destruct (nodes h !! l).
    + by rewrite Hout1.
  - intros d Hd it.
    assert (it_deref h it = Ok d.2 it) as Hh.
    { apply list_elem_of_split in Hd as (ds1 & ds2 & ->). by eapply deref_data. }
    split_and!; [done| |by rewrite Heq].
    assert (d ∈ rev ds) as Hd' by by rewrite <- Permutation_rev.
    apply list_elem_of_split in Hd' as (ds1 & ds2 & Hrev). rewrite Hrev in Hil1.
    by eapply deref_data.
Qed.

End Reverse.

(** ** [unique] on sequences *)

Section UniqueSeq.
Context {T : Type}.
Variable eqb : T → T → bool.
Hypothesis eqb_sym : ∀ x y, eqb x y = true → eqb y x = true.
Hypothesis eqb_trans : ∀ x y z, eqb x y = true → eqb y z = true → eqb x z = true.
Implicit Types (ds : list (loc * T)).

Lemma uniq_after_congr x x' ds :
  eqb x x' = true → uniq_after eqb x ds = uniq_after eqb x' ds.
Proof using eqb_sym eqb_trans.
  intros Hx. induction ds as [|d ds IH]; [done|]. simpl.
  destruct (eqb x d.2) eqn:E1, (eqb x' d.2) eqn:E2; try done.
  - apply eqb_sym in Hx. by rewrite (eqb_trans _ _ _ Hx E1) in E2.
  - by rewrite (eqb_trans _ _ _ Hx E2) in E1.
Qed.

Lemma uniq_after_drop x ds : uniq_after eqb x ds = uniq eqb (drop_eq eqb x ds).
Proof.
  induction ds as [|d ds IH]; [done|]. simpl. by destruct (eqb x d.2).
Qed.

Lemma drop_eq_length x ds : length (drop_eq eqb x ds) ≤ length ds.
Proof.
  induction ds as [|d ds IH]; [done|]. simpl. destruct (eqb x d.2); simpl; lia.
Qed.

Lemma runs_cons d ds :
  ∃ r rs, runs eqb (d :: ds) = (d :: r) :: rs.
Proof.
  simpl. destruct (runs eqb ds) as [|[|e r] rs]; [by eexists _, _..|].
  destruct (eqb d.2 e.2); by eexists _, _.
Qed.

Lemma run_heads_runs d ds :
  run_heads (runs eqb (d :: ds)) = d :: uniq_after eqb d.2 ds.
Proof using eqb_sym eqb_trans.
  revert d. induction ds as [|e ds IH]; intros d; [done|].
  specialize (IH e). destruct (runs_cons e ds) as (r & rs & Hr).
  change (runs eqb (d :: e :: ds)) with
    (match runs eqb (e :: ds) with
     | (e' :: r') :: rs' =>
         if eqb d.2 e'.2 then (d :: e' :: r') :: rs' else [d] :: (e' :: r') :: rs'
     | _ => [[d]]
     end).
  rewrite Hr in *. simpl. unfold run_heads in IH. simpl in IH.
  destruct (eqb d.2 e.2) eqn:E; unfold run_heads; simpl.
  - injection IH as IH. rewrite IH. f_equal. symmetry. by apply uniq_after_congr.
  - by rewrite IH.
Qed.

Lemma uniq_runs ds : uniq eqb ds = run_heads (runs eqb ds).
Proof using eqb_sym eqb_trans.
  destruct ds as [|d ds]; [done|]. by rewrite run_heads_runs.
Qed.

(** The runs partition the sequence ... *)
Lemma runs_concat ds : concat (runs eqb ds) = ds.
Proof.
  induction ds as [|d ds IH]; [done|].
  destruct ds as [|e ds]; [done|].
  destruct (runs_cons e ds) as (r & rs & Hr).
  change (runs eqb (d :: e :: ds)) with
    (match runs eqb (e :: ds) with
     | (e' :: r') :: rs' =>
         if eqb d.2 e'.2 then (d :: e' :: r') :: rs' else [d] :: (e' :: r') :: rs'
     | _ => [[d]]
     end).
  rewrite Hr in *. destruct (eqb d.2 e.2); simpl in *; by rewrite IH.
Qed.

(** ... each of them has a first cell ... *)
Lemma runs_length ds : length (run_heads (runs eqb ds)) = length (runs eqb ds).
Proof.
  induction ds as [|d ds IH]; [done|].
  destruct ds as [|e ds]; [done|].
  destruct (runs_cons e ds) as (r & rs & Hr).
  change (runs eqb (d :: e :: ds)) with
    (match runs eqb (e :: ds) with
     | (e' :: r') :: rs' =>
         if eqb d.2 e'.2 then (d :: e' :: r') :: rs' else [d] :: (e' :: r') :: rs'
     | _ => [[d]]
     end).
  rewrite Hr in *. unfold run_heads in *.
  destruct (eqb d.2 e.2); simpl in *; lia.
Qed.

(** ... consecutive cells of a run are equal, and a run does not extend
    into the next one. *)
Lemma runs_equal ds r : r ∈ runs eqb ds → all_adjacent_equal eqb r.
Proof.
  revert r. induction ds as [|d ds IH]; intros r0 Hin.
  { by apply elem_of_nil in Hin. }
  destruct ds as [|e ds].
  { apply list_elem_of_singleton in Hin as ->. by intros [|i] x y. }
  destruct (runs_cons e ds) as (r & rs & Hr).
  change (runs eqb (d :: e :: ds)) with
    (match runs eqb (e :: ds) with
     | (e' :: r') :: rs' =>
         if eqb d.2 e'.2 then (d :: e' :: r') :: rs' else [d] :: (e' :: r') :: rs'
     | _ => [[d]]
     end) in Hin.
  rewrite Hr in *. destruct (eqb d.2 e.2) eqn:E.
  - apply elem_of_cons in Hin as [->|Hin].
    + intros [|i] x y Hx Hy; simpl in *.
      * by injection Hx as <-; injection Hy as <-.
      * eapply (IH (e :: r)); [apply list_elem_of_here|done..].
    + apply IH. by apply list_elem_of_further.
  - apply elem_of_cons in Hin as [->|Hin]; [by intros [|i] x y|by apply IH].
Qed.

Lemma runs_maximal ds i r1 r2 x y :
  runs eqb ds !! i = Some r1 → runs eqb ds !! S i = Some r2 →
  last r1 = Some x → r2 !! 0 = Some y → eqb x.2 y.2 = false.
Proof.
  revert i r1 r2 x y. induction ds as [|d ds IH]; intros i r1 r2 x y H1 H2 Hx Hy; [done|].
  destruct ds as [|e ds]; [done|].
  destruct (runs_cons e ds) as (r & rs & Hr).
  change (runs eqb (d :: e :: ds)) with
    (match runs eqb (e :: ds) with
     | (e' :: r') :: rs' =>
         if eqb d.2 e'.2 then (d :: e' :: r') :: rs' else [d] :: (e' :: r') :: rs'
     | _ => [[d]]
     end) in H1, H2.
  rewrite Hr in *. destruct (eqb d.2 e.2) eqn:E.
  - destruct i as [|i]; simpl in *.
    + injection H1 as <-. eapply (IH 0); [done|done| |done].
      by rewrite last_cons_cons in Hx.
    + by eapply (IH (S i)).
  - destruct i as [|i]; simpl in *.
    + injection H1 as <-. injection H2 as <-. simpl in *.
      by injection Hx as <-; injection Hy as <-.
    + by eapply (IH i).
Qed.

End UniqueSeq.


(** ** [unique] on the heap *)

Section Unique.
Context {T : Type}.
Variable eqb : T → T → bool.
Implicit Types (ns : gmap loc (node T)) (ls : gmap loc list_rep) (h : heap T).
Implicit Types (cs : list (loc * option T)) (ds : list (loc * T)).

Lemma footprint_mono hd tl ds ds' l :
  (∀ d, d ∈ ds' → d ∈ ds) → l ∈ footprint hd tl ds' → l ∈ footprint hd tl ds.
Proof.
  intros Hsub. rewrite !footprint_eq, !elem_of_cons, !elem_of_app.
  intros [?|[Hl|?]]; [by left| |by right; right]. right. left.
  apply list_elem_of_fmap in Hl as (d & -> & Hd). apply list_elem_of_fmap. eauto.
Qed.

Lemma elem_of_drop_eq x ds d : d ∈ drop_eq eqb x ds → d ∈ ds.
Proof.
  induction ds as [|e ds IH]; [done|]. simpl. destruct (eqb x e.2); [|done].
  intros. by apply list_elem_of_further, IH.
Qed.

(** One removal: [erase(dup); delete dup; --n]. *)
Lemma wf_erase_step h this hd tl ds1 d ds2 :
  wf_list h this hd tl (ds1 ++ d :: ds2) →
  ∃ h', (∀ B (k : unit → M (heap T) B),
           bind (node_erase (Some d.1))
             (λ _, bind (delete_node (Some d.1)) (λ _, bind (decr_n this) k)) h
           = k tt h')
        ∧ wf_list h' this hd tl (ds1 ++ ds2)
        ∧ nodes h' !! d.1 = None
        ∧ (∀ l, l ∉ footprint hd tl (ds1 ++ d :: ds2) → nodes h' !! l = nodes h !! l)
        ∧ (∀ this', this' ≠ this → lists h' !! this' = lists h !! this').
Proof.
  destruct h as [ns ls]. intros [[Hr Hl] Hb]. simpl in *.
  destruct (linked_erase_delete ns ls hd tl ds1 d ds2 Hl)
    as (ns' & E & Hl' & Hnone & _ & Hf & Hdom).
  eexists. split_and!.
  - intros B k. rewrite E. by mstep.
  - rewrite length_app in Hb. simpl in Hb.
    split; [split; [|done]|rewrite length_app; lia]. simpl.
    rewrite lookup_insert_eq. do 2 f_equal. rewrite !length_app. simpl.
    rewrite wrap_small by lia. lia.
  - done.
  - done.
  - intros this' Hne. simpl. by rewrite lookup_insert_ne.
Qed.

Lemma unique_inner_spec this hd tl rest : ∀ fuel h ds1 c,
  wf_list h this hd tl (ds1 ++ c :: rest) → length rest < fuel →
  ∃ h', unique_inner eqb fuel this (Some c.1) (first_ptr (data_cells rest) (Some tl)) h
          = Ok (first_ptr (data_cells (drop_eq eqb c.2 rest)) (Some tl)) h'
        ∧ wf_list h' this hd tl (ds1 ++ c :: drop_eq eqb c.2 rest)
        ∧ (∀ l, l ∉ footprint hd tl (ds1 ++ c :: rest) → nodes h' !! l = nodes h !! l)
        ∧ (∀ l, l ∈ footprint hd tl (ds1 ++ c :: rest) →
                l ∉ footprint hd tl (ds1 ++ c :: drop_eq eqb c.2 rest) →
                nodes h' !! l = None)
        ∧ (∀ this', this' ≠ this → lists h' !! this' = lists h !! this').
Proof.
  induction rest as [|x rest IH]; intros fuel h ds1 c Hwf Hf;
    (destruct fuel as [|fuel]; [simpl in Hf; lia|]); simpl in Hf;
    pose proof Hwf as [[Hr Hl] Hb].
  { exists h. split_and!; [|done|done|done|done].
    cbn [unique_inner]. mstep. by rewrite ptr_eqb_refl. }
  assert (x.1 ≠ tl) by (eapply linked_data_ne_tail; [done|]; set_solver).
  pose proof (linked_data _ _ _ _ _ _ Hl) as Hc.
  pose proof (linked_data (nodes h) hd tl (ds1 ++ [c]) x rest) as Hx.
  rewrite <- app_assoc in Hx. specialize (Hx Hl).
  cbn [unique_inner drop_eq]. destruct (eqb c.2 x.2) eqn:E.
  - destruct (wf_erase_step h this hd tl (ds1 ++ [c]) x rest)
      as (h1 & E1 & Hwf1 & Hnone & Hf1 & Hls1).
    { by rewrite <- app_assoc. }
    rewrite <- app_assoc in Hwf1, Hf1. simpl in Hwf1, Hf1.
    destruct (IH fuel h1 ds1 c Hwf1) as (h' & E' & Hwf2 & Hf2 & Hg2 & Hls2); [lia|].
    exists h'. split_and!.
    + mstep. cbn [first_ptr data_cells map fst]. rewrite ptr_eqb_ne by congruence.
      do 2 mstep. rewrite E. mstep. rewrite E1. exact E'.
    + done.
    + intros l Hl'. rewrite Hf2, Hf1; [done|done|].
      intros Hin. apply Hl'. eapply footprint_mono; [|done].
      intros d. rewrite !elem_of_app, !elem_of_cons. tauto.
    + intros l Hin Hout.
      destruct (decide (l ∈ footprint hd tl (ds1 ++ c :: rest))) as [Hin1|Hout1].
      * by apply Hg2.
      * rewrite Hf2 by done.
        replace (ds1 ++ c :: x :: rest) with ((ds1 ++ [c]) ++ x :: rest) in Hin
          by by rewrite <- app_assoc.
        apply footprint_mid in Hin as [->|Hin]; [done|].
        by rewrite <- app_assoc in Hin.
    + intros this' Hne. by rewrite Hls2, Hls1.
  - exists h. split_and!; [|done|done|done|done].
    mstep. cbn [first_ptr data_cells map fst]. rewrite ptr_eqb_ne by congruence.
    do 2 mstep. by rewrite E.
Qed.

Lemma elem_of_uniq ds d : d ∈ uniq eqb ds → d ∈ ds.
Proof.
  assert (∀ x ds, d ∈ uniq_after eqb x ds → d ∈ ds) as Haux.
  { intros x ds'. revert x. induction ds' as [|e ds' IH]; intros x; [done|]. simpl.
    destruct (eqb x e.2).
    - intros. by eapply list_elem_of_further, IH.
    - rewrite !elem_of_cons. intros [->|?]; [by left|right; by eapply IH]. }
  destruct ds as [|e ds]; [done|]. simpl.
  rewrite !elem_of_cons. intros [->|?]; [by left|right; by eapply Haux].
Qed.

Lemma unique_outer_spec this hd tl : ∀ fuel todo h done,
  wf_list h this hd tl (done ++ todo) → length todo < fuel →
  ∃ h', unique_outer eqb fuel this (first_ptr (data_cells todo) (Some tl)) h = Ok tt h'
        ∧ wf_list h' this hd tl (done ++ uniq eqb todo)
        ∧ (∀ l, l ∉ footprint hd tl (done ++ todo) → nodes h' !! l = nodes h !! l)
        ∧ (∀ l, l ∈ footprint hd tl (done ++ todo) →
                l ∉ footprint hd tl (done ++ uniq eqb todo) →
                nodes h' !! l = None)
        ∧ (∀ this', this' ≠ this → lists h' !! this' = lists h !! this').
Proof.
  induction fuel as [|fuel IH]; intros todo h done Hwf Hf; [lia|].
  pose proof Hwf as [[Hr Hl] Hb].
  destruct todo as [|c rest].
  { exists h. split_and!; [|done..].
    cbn [unique_outer]. mstep. by rewrite ptr_eqb_refl. }
  simpl in Hf.
  assert (c.1 ≠ tl) by (eapply linked_data_ne_tail; [done|]; set_solver).
  pose proof (linked_data _ _ _ _ _ _ Hl) as Hc.
  destruct (unique_inner_spec this hd tl rest (S fuel) h done c Hwf)
    as (h1 & E1 & Hwf1 & Hf1 & Hg1 & Hls1); [lia|].
  pose proof (drop_eq_length eqb c.2 rest).
  destruct (IH (drop_eq eqb c.2 rest) h1 (done ++ [c])) as (h' & E' & Hwf2 & Hf2 & Hg2 & Hls2).
  { by rewrite <- app_assoc. }
  { lia. }
  rewrite <- !app_assoc in *. simpl in *. rewrite <- uniq_after_drop in *.
  exists h'. split_and!.
  - mstep. cbn [first_ptr data_cells map fst]. rewrite ptr_eqb_ne by congruence.
    mstep. rewrite (bind_ok _ _ _ _ _ E1). exact E'.
  - done.
  - intros l Hl'. rewrite Hf2, Hf1; [done|done|].
    intros Hin. apply Hl'. eapply footprint_mono; [|done].
    intros d. rewrite !elem_of_app, !elem_of_cons.
    intros [?|[?|?%elem_of_drop_eq]]; tauto.
  - intros l Hin Hout.
    destruct (decide (l ∈ footprint hd tl (done ++ c :: drop_eq eqb c.2 rest))) as [Hin1|Hout1].
    + by apply Hg2.
    + rewrite Hf2 by done. by apply Hg1.
  - intros this' Hne. by rewrite Hls2, Hls1.
Qed.

Lemma unique_spec this hd tl h ds fuel :
  wf_list h this hd tl ds → length ds < fuel →
  ∃ h', unique eqb fuel this h = Ok tt h'
        ∧ wf_list h' this hd tl (uniq eqb ds)
        ∧ (∀ l, l ∉ footprint hd tl ds → nodes h' !! l = nodes h !! l)
        ∧ (∀ l, l ∈ footprint hd tl ds → l ∉ footprint hd tl (uniq eqb ds) →
                nodes h' !! l = None)
        ∧ (∀ this', this' ≠ this → lists h' !! this' = lists h !! this').
Proof.
  intros Hwf Hf. pose proof Hwf as [[Hr Hl] Hb].
  destruct (decide (length ds ≤ 1)) as [Hle|Hgt].
  - exists h. assert (uniq eqb ds = ds) as ->.
    { destruct ds as [|d [|e ds]]; [done|done|simpl in Hle; lia]. }
    split_and!; [|done..]. unfold unique. mstep.
    by rewrite (proj2 (Z.leb_le _ _)) by lia.
  - destruct (unique_outer_spec this hd tl fuel ds h [] Hwf Hf)
      as (h' & E' & Hwf' & Hf' & Hg' & Hls').
    exists h'. split_and!; [|done..]. unfold unique. mstep.
    rewrite (proj2 (Z.leb_gt _ _)) by lia.
    pose proof (linked_head _ _ _ _ Hl). by do 2 mstep.
Qed.

End Unique.


(** ** [unique]: main theorem *)

Section UniqueClaim.
Context {T : Type}.
Variable eqb : T → T → bool.
Hypothesis eqb_sym : ∀ x y, eqb x y = true → eqb y x = true.
Hypothesis eqb_trans : ∀ x y z, eqb x y = true → eqb y z = true → eqb x z = true.
Implicit Types (h : heap T) (ds : list (loc * T)).

Lemma NoDup_fst_inj ds (d e : loc * T) :
  NoDup ds.*1 → d ∈ ds → e ∈ ds → d.1 = e.1 → d = e.
Proof.
  induction ds as [|x ds IH]; intros Hnd Hd He Heq.
  { by apply elem_of_nil in Hd. }
  rewrite fmap_cons in Hnd. apply NoDup_cons in Hnd as [Hx Hnd].
  apply elem_of_cons in Hd as [->|Hd]; apply elem_of_cons in He as [->|He]; try done.
  - exfalso. apply Hx. rewrite Heq. apply list_elem_of_fmap. eauto.
  - exfalso. apply Hx. rewrite <- Heq. apply list_elem_of_fmap. eauto.
  - by apply IH.
Qed.

Lemma linked_nodup_data (ns : gmap loc (node T)) hd tl ds : linked ns hd tl ds → NoDup ds.*1.
Proof.
  intros [Hnd _]. change (NoDup (footprint hd tl ds)) in Hnd.
  rewrite footprint_eq in Hnd. apply NoDup_cons in Hnd as [_ Hnd].
  by apply NoDup_app in Hnd as [? _].
Qed.

Lemma unique_noop h this r fuel :
  lists h !! this = Some r → (n r ≤ 1)%Z → unique eqb fuel this h = Ok tt h.
Proof.
  intros Hr Hn. unfold unique. mstep. by rewrite (proj2 (Z.leb_le _ _)) by lia.
Qed.

(** C6: [unique()] keeps exactly the first node of every maximal run
    of consecutive equal elements (the runs partition the sequence,
    the cells of a run are pairwise equal neighbours and a run is not
    continued by the next one), deallocates the other nodes, leaves the
    count equal to the number of runs, and changes nothing when the
    count is at most 1. *)
Theorem C6_unique_keeps_first_of_each_run (h : heap T) this hd tl ds fuel :
  wf_list h this hd tl ds → length ds < fuel →
  ∃ h',
    unique eqb fuel this h = Ok tt h' ∧
    wf_list h' this hd tl (run_heads (runs eqb ds)) ∧
    concat (runs eqb ds) = ds ∧
    (∀ r, r ∈ runs eqb ds → all_adjacent_equal eqb r) ∧
    (∀ i r1 r2 x y, runs eqb ds !! i = Some r1 → runs eqb ds !! S i = Some r2 →
                    last r1 = Some x → r2 !! 0 = Some y → eqb x.2 y.2 = false) ∧
    size this h' = Ok (Z.of_nat (length (runs eqb ds))) h' ∧
    (∀ d, d ∈ ds → d ∉ run_heads (runs eqb ds) → nodes h' !! d.1 = None) ∧
    (length ds ≤ 1 → h' = h).
Proof using eqb_sym eqb_trans.
  intros Hwf Hf.
  destruct (unique_spec eqb this hd tl h ds fuel Hwf Hf) as (h' & E & Hwf' & _ & Hg & _).
  rewrite uniq_runs in * by done.
  exists h'. split_and!; [done|done|apply runs_concat|apply runs_equal|apply runs_maximal|..].
  - destruct Hwf' as [Hil _]. rewrite runs_length in Hil. by eapply size_spec.
  - intros d Hd Hnot. destruct Hwf as [[_ Hl] _].
    assert (d.1 ≠ hd) by by eapply linked_data_ne_head.
    assert (d.1 ≠ tl) by by eapply linked_data_ne_tail.
    apply Hg.
    + rewrite footprint_eq, elem_of_cons, elem_of_app. right. left.
      apply list_elem_of_fmap. eauto.
    + rewrite footprint_eq, elem_of_cons, elem_of_app, list_elem_of_singleton.
      intros [?|[Hin|?]]; [done| |done].
      apply list_elem_of_fmap in Hin as (e & Heq & He). apply Hnot.
      assert (e ∈ ds) by (rewrite <- uniq_runs in He by done; by eapply elem_of_uniq).
      by rewrite (NoDup_fst_inj ds d e (linked_nodup_data _ _ _ _ Hl)).
  - intros Hle. destruct Hwf as [[Hr _] _].
    rewrite (unique_noop h this _ fuel Hr) in E by (simpl; lia). by injection E.
Qed.

End UniqueClaim.


(** ** [merge] on the heap *)

Section Merge.
Context {T : Type}.
Variable ltb : T → T → bool.
Implicit Types (ns : gmap loc (node T)) (ls : gmap loc list_rep) (h : heap T).
Implicit Types (cs : list (loc * option T)) (ds : list (loc * T)).

Lemma wrap_succ z : wrap (wrap z + 1) = wrap (z + 1).
Proof. unfold wrap. by rewrite Zplus_mod_idemp_l. Qed.

Lemma merge_cells_nil_l bs : merge_cells ltb [] bs = bs.
Proof. by destruct bs. Qed.

Lemma merge_cells_nil_r as_ : merge_cells ltb as_ [] = as_.
Proof. by destruct as_. Qed.

Lemma merge_cells_cons a as_ b bs :
  merge_cells ltb (a :: as_) (b :: bs)
  = if ltb b.2 a.2 then b :: merge_cells ltb (a :: as_) bs
    else a :: merge_cells ltb as_ (b :: bs).
Proof. done. Qed.

(** Moving the first node of [other] in front of the cell after [dA]:
    [other.erase(bi); insert(.., bi); ++n; --other.n]. *)
Lemma merge_move h this other hdA tlA hdB tlB dA rA b bs z :
  is_list h this hdA tlA (dA ++ rA) (wrap z) →
  wf_list h other hdB tlB (b :: bs) →
  this ≠ other →
  (∀ l, l ∈ footprint hdA tlA (dA ++ rA) → l ∈ footprint hdB tlB (b :: bs) → False) →
  ∃ h1 h',
    node_erase (Some b.1) h = Ok (Some b.1) h1 ∧
    lists h1 = lists h ∧
    (∀ B (k : unit → M (heap T) B),
       bind (node_insert (first_ptr (data_cells rA) (Some tlA)) (Some b.1))
         (λ _, bind (incr_n this) (λ _, bind (decr_n other) k)) h1 = k tt h') ∧
    is_list h' this hdA tlA (dA ++ b :: rA) (wrap (z + 1)) ∧
    wf_list h' other hdB tlB bs ∧
    (∀ l, l ∈ footprint hdA tlA (dA ++ b :: rA) → l ∈ footprint hdB tlB bs → False) ∧
    (∀ l, l ∉ footprint hdA tlA (dA ++ rA) → l ∉ footprint hdB tlB (b :: bs) →
          nodes h' !! l = nodes h !! l) ∧
    (∀ x, x ≠ this → x ≠ other → lists h' !! x = lists h !! x).
Proof.
  destruct h as [ns ls]. destruct b as [bl bv].
  intros [HrA HlA] [[HrB HlB] HbB] Hne Hdisj. simpl in *.
  destruct (linked_erase ns ls hdB tlB [] (bl, bv) bs HlB) as (ns1 & E1 & HlB1 & Hb1 & Hf1 & _).
  simpl in *.
  assert (bl ∈ footprint hdB tlB ((bl, bv) :: bs)) as HblB.
  { apply (footprint_mid hdB tlB [] (bl, bv) bs). by left. }
  assert (bl ∉ footprint hdB tlB bs) as HblB'.
  { destruct HlB as [Hnd _]. change (NoDup (footprint hdB tlB ([] ++ (bl, bv) :: bs))) in Hnd.
    by apply footprint_nodup_mid in Hnd as [? _]. }
  assert (bl ∉ footprint hdA tlA (dA ++ rA)) as HblA by (intros ?; by eapply Hdisj).
  assert (linked ns1 hdA tlA (dA ++ rA)) as HlA1.
  { eapply linked_frame; [|done]. intros l Hl. apply Hf1. intros ?. by eapply Hdisj. }
  destruct (linked_insert ns1 ls hdA tlA dA rA bl (Node None None (Some bv)) bv HlA1)
    as (ns2 & E2 & HlA2 & Hf2 & _); [done..|].
  assert (linked ns2 hdB tlB bs) as HlB2.
  { eapply linked_frame; [|done]. intros l Hl. apply Hf2.
    - by intros ->.
    - intros ?. eapply Hdisj; [done|].
      apply (footprint_mid hdB tlB [] (bl, bv) bs). by right. }
  eexists _, _. split_and!.
  - exact E1.
  - done.
  - intros B k. rewrite (bind_ok _ _ _ _ _ E2). by do 2 mstep.
  - split; [|done]. simpl. rewrite lookup_insert_ne by done.
    rewrite lookup_insert_eq. by rewrite wrap_succ.
  - split; [split; [|done]|lia]. simpl. rewrite lookup_insert_eq.
    do 2 f_equal. rewrite wrap_small by lia. lia.
  - intros l HA HB. apply footprint_mid in HA as [->|HA]; [done|].
    eapply Hdisj; [done|]. apply (footprint_mid hdB tlB [] (bl, bv) bs). by right.
  - intros l HA HB. simpl. rewrite Hf2, Hf1; [done|done| |done].
    intros ->. by apply HB.
  - intros x ? ?. simpl. by rewrite !lookup_insert_ne.
Qed.

End Merge.


Section MergeLoops.
Context {T : Type}.
Variable ltb : T → T → bool.
Implicit Types (ns : gmap loc (node T)) (ls : gmap loc list_rep) (h : heap T).
Implicit Types (cs : list (loc * option T)) (ds : list (loc * T)).

Lemma merge_cells_length (as_ bs : list (loc * T)) :
  length (merge_cells ltb as_ bs) = length as_ + length bs.
Proof.
  revert bs. induction as_ as [|a as_ IHa]; intros bs.
  - by rewrite merge_cells_nil_l.
  - induction bs as [|b bs IHb]; [rewrite merge_cells_nil_r; simpl; lia|].
    rewrite merge_cells_cons. destruct (ltb b.2 a.2); cbn [length].
    + rewrite IHb. simpl. lia.
    + rewrite IHa. simpl. lia.
Qed.

Lemma merge_loop_spec this other hdA tlA hdB tlB : ∀ fuel rA rB dA h z,
  is_list h this hdA tlA (dA ++ rA) (wrap z) →
  wf_list h other hdB tlB rB →
  this ≠ other →
  (∀ l, l ∈ footprint hdA tlA (dA ++ rA) → l ∈ footprint hdB tlB rB → False) →
  length rA + length rB < fuel →
  ∃ h' r bs',
    merge_loop ltb fuel this other (first_ptr (data_cells rA) (Some tlA))
      (first_ptr (data_cells rB) (Some tlB)) h
    = Ok (first_ptr (data_cells bs') (Some tlB)) h' ∧
    is_list h' this hdA tlA (dA ++ r)
      (wrap (z + Z.of_nat (length rB) - Z.of_nat (length bs'))) ∧
    wf_list h' other hdB tlB bs' ∧
    r ++ bs' = merge_cells ltb rA rB ∧
    (∀ l, l ∈ footprint hdA tlA (dA ++ r) → l ∈ footprint hdB tlB bs' → False) ∧
    (∀ l, l ∉ footprint hdA tlA (dA ++ rA) → l ∉ footprint hdB tlB rB →
          nodes h' !! l = nodes h !! l) ∧
    (∀ x, x ≠ this → x ≠ other → lists h' !! x = lists h !! x).
Proof.
  induction fuel as [|fuel IH]; intros rA rB dA h z HA HB Hne Hdisj Hf; [lia|].
  pose proof HA as [HrA HlA]. pose proof HB as [[HrB HlB] HbB].
  destruct rA as [|a rA].
  { exists h, [], rB. split_and!; try done.
    - cbn [merge_loop]. mstep. by rewrite ptr_eqb_refl.
    - by replace (z + Z.of_nat (length rB) - Z.of_nat (length rB))%Z with z by lia.
    - by rewrite merge_cells_nil_l. }
  assert (a.1 ≠ tlA) by (eapply linked_data_ne_tail; [done|]; set_solver).
  pose proof (linked_data _ _ _ _ _ _ HlA) as Ha.
  destruct rB as [|b rB].
  { exists h, (a :: rA), []. split_and!; try done.
    - cbn [merge_loop]. mstep. cbn [first_ptr data_cells map fst].
      rewrite ptr_eqb_ne by congruence. mstep. by rewrite ptr_eqb_refl.
    - by replace (z + Z.of_nat (length (@nil (loc * T))) - Z.of_nat (length (@nil (loc * T))))%Z
        with z by (simpl; lia).
    - by rewrite merge_cells_nil_r, app_nil_r. }
  assert (b.1 ≠ tlB) by (eapply linked_data_ne_tail; [done|]; set_solver).
  pose proof (linked_data _ hdB tlB [] b rB HlB) as Hb.
  simpl in Hf. rewrite merge_cells_cons.
  destruct (ltb b.2 a.2) eqn:E.
  - destruct (merge_move h this other hdA tlA hdB tlB dA (a :: rA) b rB z HA HB Hne Hdisj)
      as (h1 & h2 & E1 & Hls1 & E2 & HA2 & HB2 & Hdisj2 & Hf2 & Hg2).
    destruct (IH (a :: rA) rB (dA ++ [b]) h2 (z + 1)%Z)
      as (h' & r & bs' & E' & HA' & HB' & Hm & Hdisj' & Hf' & Hg');
      [by rewrite <- app_assoc|done|done|by rewrite <- app_assoc|simpl; lia|].
    rewrite <- app_assoc in HA', Hdisj', Hf'. simpl in HA', Hdisj', Hf'.
    exists h', (b :: r), bs'. split_and!.
    + cbn [merge_loop]. mstep. cbn [first_ptr data_cells map fst].
      rewrite ptr_eqb_ne by congruence. mstep. rewrite ptr_eqb_ne by congruence.
      do 2 mstep. rewrite E. mstep. rewrite (bind_ok _ _ _ _ _ E1). rewrite E2. exact E'.
    + simpl length.
      by replace (z + Z.of_nat (S (length rB)) - Z.of_nat (length bs'))%Z
        with (z + 1 + Z.of_nat (length rB) - Z.of_nat (length bs'))%Z by lia.
    + done.
    + simpl. by rewrite Hm.
    + done.
    + intros l HlA' HlB'. rewrite Hf', Hf2; [done|done|done| |].
      * intros Hin. apply footprint_mid in Hin as [->|?]; [|done].
        apply HlB'. apply (footprint_mid hdB tlB [] b rB). by left.
      * intros Hin. apply HlB'. apply (footprint_mid hdB tlB [] b rB). by right.
    + intros x ? ?. by rewrite Hg', Hg2.
  - destruct (IH rA (b :: rB) (dA ++ [a]) h z)
      as (h' & r & bs' & E' & HA' & HB' & Hm & Hdisj' & Hf' & Hg');
      [by rewrite <- app_assoc|done|done|by rewrite <- app_assoc|simpl; lia|].
    rewrite <- app_assoc in HA', Hdisj', Hf'. simpl in HA', Hdisj', Hf'.
    exists h', (a :: r), bs'. split_and!; try done.
    + cbn [merge_loop]. mstep. cbn [first_ptr data_cells map fst].
      rewrite ptr_eqb_ne by congruence. mstep. rewrite ptr_eqb_ne by congruence.
      do 2 mstep. rewrite E. mstep. exact E'.
    + simpl. by rewrite Hm.
Qed.

Lemma merge_rest_spec this other hdA tlA hdB tlB : ∀ fuel rB dA h z,
  is_list h this hdA tlA dA (wrap z) →
  wf_list h other hdB tlB rB →
  this ≠ other →
  (∀ l, l ∈ footprint hdA tlA dA → l ∈ footprint hdB tlB rB → False) →
  length rB < fuel →
  ∃ h',
    merge_rest fuel this other (first_ptr (data_cells rB) (Some tlB)) h = Ok tt h' ∧
    is_list h' this hdA tlA (dA ++ rB) (wrap (z + Z.of_nat (length rB))) ∧
    wf_list h' other hdB tlB [] ∧
    (∀ l, l ∉ footprint hdA tlA dA → l ∉ footprint hdB tlB rB →
          nodes h' !! l = nodes h !! l) ∧
    (∀ x, x ≠ this → x ≠ other → lists h' !! x = lists h !! x).
Proof.
  induction fuel as [|fuel IH]; intros rB dA h z HA HB Hne Hdisj Hf; [lia|].
  pose proof HA as [HrA HlA]. pose proof HB as [[HrB HlB] HbB].
  destruct rB as [|b rB].
  { exists h. split_and!; try done.
    - cbn [merge_rest]. mstep. by rewrite ptr_eqb_refl.
    - rewrite app_nil_r. by replace (z + Z.of_nat (length (@nil (loc * T))))%Z with z
        by (simpl; lia). }
  assert (b.1 ≠ tlB) by (eapply linked_data_ne_tail; [done|]; set_solver).
  pose proof (linked_data _ hdB tlB [] b rB HlB) as Hb.
  simpl in Hf.
  destruct (merge_move h this other hdA tlA hdB tlB dA [] b rB z)
    as (h1 & h2 & E1 & Hls1 & E2 & HA2 & HB2 & Hdisj2 & Hf2 & Hg2);
    [by rewrite app_nil_r|done|done|by rewrite app_nil_r|].
  rewrite app_nil_r in Hf2.
  destruct (IH rB (dA ++ [b]) h2 (z + 1)%Z)
    as (h' & E' & HA' & HB' & Hf' & Hg'); [done|done|done|done|lia|].
  rewrite <- app_assoc in HA'. simpl in HA'.
  exists h'. split_and!.
  - cbn [merge_rest]. mstep. cbn [first_ptr data_cells map fst].
    rewrite ptr_eqb_ne by congruence. mstep. rewrite (bind_ok _ _ _ _ _ E1).
    erewrite bind_get_tail by (rewrite Hls1; exact HrA). msimpl.
    simpl in E2. rewrite E2. exact E'.
  - simpl length.
    by replace (z + Z.of_nat (S (length rB)))%Z with (z + 1 + Z.of_nat (length rB))%Z by lia.
  - done.
  - intros l HlA' HlB'. rewrite Hf', Hf2; [done|done|done| |].
    + intros Hin. apply (footprint_mid hdA tlA dA b []) in Hin as [->|Hin].
      * apply HlB'. apply (footprint_mid hdB tlB [] b rB). by left.
      * by rewrite app_nil_r in Hin.
    + intros Hin. apply HlB'. apply (footprint_mid hdB tlB [] b rB). by right.
  - intros x ? ?. by rewrite Hg', Hg2.
Qed.

Lemma merge_spec this other hdA tlA hdB tlB h as_ bs fuel :
  wf_list h this hdA tlA as_ →
  wf_list h other hdB tlB bs →
  this ≠ other →
  (∀ l, l ∈ footprint hdA tlA as_ → l ∈ footprint hdB tlB bs → False) →
  length as_ + length bs < fuel →
  ∃ h',
    merge ltb fuel this other h = Ok tt h' ∧
    is_list h' this hdA tlA (merge_cells ltb as_ bs)
      (wrap (Z.of_nat (length as_) + Z.of_nat (length bs))) ∧
    wf_list h' other hdB tlB [] ∧
    (∀ x, x ≠ this → x ≠ other → lists h' !! x = lists h !! x).
Proof.
  intros [HA HbA] HB Hne Hdisj Hf.
  pose proof HA as [HrA HlA]. pose proof HB as [[HrB HlB] HbB].
  rewrite <- (wrap_small (Z.of_nat (length as_))) in HA by lia.
  destruct (merge_loop_spec this other hdA tlA hdB tlB fuel as_ bs [] h _ HA HB Hne Hdisj Hf)
    as (h1 & r & bs' & E1 & HA1 & HB1 & Hm & Hdisj1 & Hf1 & Hg1).
  simpl in HA1, Hdisj1, Hf1.
  assert (length r + length bs' = length as_ + length bs) as Hlen.
  { apply (f_equal length) in Hm. by rewrite length_app, merge_cells_length in Hm. }
  destruct (merge_rest_spec this other hdA tlA hdB tlB fuel bs' r h1 _ HA1 HB1 Hne Hdisj1)
    as (h2 & E2 & HA2 & HB2 & Hf2 & Hg2); [lia|].
  rewrite Hm in HA2.
  pose proof HB2 as [[HrB2 HlB2] _].
  pose proof (linked_head _ _ _ _ HlB2) as Hhd2.
  pose proof (linked_tail _ _ _ _ HlB2) as Htl2.
  pose proof (linked_head _ _ _ _ HlA) as HhdA.
  pose proof (linked_head _ _ _ _ HlB) as HhdB.
  pose proof (linked_head_ne_tail _ _ _ _ HlB2).
  exists h2. split_and!.
  - unfold merge. rewrite bool_decide_eq_false_2 by done.
    do 4 mstep. rewrite (bind_ok _ _ _ _ _ E1). rewrite (bind_ok _ _ _ _ _ E2).
    do 5 mstep. mfinal. unfold ret. f_equal.
    destruct h2 as [ns2 ls2]. simpl in *. f_equal.
    rewrite (insert_id ns2 hdB) by done. by rewrite insert_id.
  - replace (Z.of_nat (length as_) + Z.of_nat (length bs))%Z
      with (Z.of_nat (length as_) + Z.of_nat (length bs) - Z.of_nat (length bs')
            + Z.of_nat (length bs'))%Z by lia.
    done.
  - done.
  - intros x ? ?. by rewrite Hg2, Hg1.
Qed.

End MergeLoops.


(** ** [merge] on sequences *)

Section SortedLookup.
Context {A : Type} (R : A → A → Prop).

Lemma StronglySorted_lookup (l : list A) i j x y :
  StronglySorted R l → i < j → l !! i = Some x → l !! j = Some y → R x y.
Proof.
  intros Hs. revert i j. induction Hs as [|a l Hs IH Hall]; intros i j Hij Hi Hj; [done|].
  destruct j as [|j]; [lia|]. destruct i as [|i]; simpl in *.
  - injection Hi as <-. rewrite Forall_forall in Hall. apply Hall.
    by eapply list_elem_of_lookup_2.
  - apply (IH i j); [lia|done..].
Qed.

Lemma lookup_StronglySorted (l : list A) :
  (∀ i j x y, i < j → l !! i = Some x → l !! j = Some y → R x y) → StronglySorted R l.
Proof.
  induction l as [|a l IH]; intros H; constructor.
  - apply IH. intros i j x y Hij Hi Hj. apply (H (S i) (S j)); [lia|done..].
  - apply Forall_forall. intros y Hy. apply list_elem_of_lookup_1 in Hy as [j Hj].
    apply (H 0 (S j)); [lia|done..].
Qed.

End SortedLookup.

Section MergeSeq.
Context {T : Type}.
Variable ltb : T → T → bool.
(** [operator<] is a strict weak ordering: it is asymmetric and its
    complement is transitive. *)
Hypothesis ltb_asym : ∀ x y, ltb x y = true → ltb y x = false.
Hypothesis ltb_negtrans : ∀ x y z, ltb y x = false → ltb z y = false → ltb z x = false.
Implicit Types (ds bs : list (loc * T)).

Lemma ascending_cells ds : ascending ltb ds.*2 ↔ StronglySorted (cell_le ltb) ds.
Proof.
  split.
  - intros H. apply lookup_StronglySorted. intros i j x y Hij Hi Hj.
    apply (H i j); [done|by rewrite list_lookup_fmap, Hi|by rewrite list_lookup_fmap, Hj].
  - intros H i j x y Hij Hi Hj. rewrite list_lookup_fmap in Hi, Hj.
    destruct (ds !! i) as [c|] eqn:Ei; [|done]. destruct (ds !! j) as [d|] eqn:Ej; [|done].
    injection Hi as <-. injection Hj as <-.
    by apply (StronglySorted_lookup (cell_le ltb) ds i j c d).
Qed.

Lemma merge_cells_perm (as_ : list (loc * T)) bs : merge_cells ltb as_ bs ≡ₚ as_ ++ bs.
Proof.
  revert bs. induction as_ as [|a as_ IHa]; intros bs.
  { by rewrite merge_cells_nil_l. }
  induction bs as [|b bs IHb].
  { by rewrite merge_cells_nil_r, app_nil_r. }
  rewrite merge_cells_cons. destruct (ltb b.2 a.2).
  - rewrite IHb. by rewrite (Permutation_middle (a :: as_) bs b).
  - by rewrite IHa.
Qed.

Lemma merge_cells_sorted (as_ : list (loc * T)) bs :
  StronglySorted (cell_le ltb) as_ → StronglySorted (cell_le ltb) bs →
  StronglySorted (cell_le ltb) (merge_cells ltb as_ bs).
Proof using ltb_asym ltb_negtrans.
  revert bs. induction as_ as [|a as_ IHa]; intros bs Ha Hb.
  { by rewrite merge_cells_nil_l. }
  induction bs as [|b bs IHb].
  { by rewrite merge_cells_nil_r. }
  apply StronglySorted_cons in Ha as [Haa Ha'].
  apply StronglySorted_cons in Hb as [Hbb Hb'].
  rewrite merge_cells_cons. destruct (ltb b.2 a.2) eqn:E.
  - apply StronglySorted_cons. split.
    + rewrite merge_cells_perm. apply Forall_app. split; [|done].
      apply Forall_cons. split; [by apply ltb_asym|].
      eapply Forall_impl; [exact Haa|]. intros x Hx. unfold cell_le in *.
      apply (ltb_negtrans b.2 a.2 x.2); [by apply ltb_asym|exact Hx].
    + by apply IHb.
  - apply StronglySorted_cons. split.
    + rewrite merge_cells_perm. apply Forall_app. split; [done|].
      apply Forall_cons. split; [done|].
      eapply Forall_impl; [exact Hbb|]. intros x Hx. unfold cell_le in *.
      by apply (ltb_negtrans a.2 b.2 x.2).
    + apply IHa; [done|]. by apply StronglySorted_cons.
Qed.

Lemma StronglySorted_left_vacuous {A} (R : A → A → Prop) (l : list A) :
  (∀ x y, x ∈ l → R x y) → StronglySorted R l.
Proof.
  induction l as [|a l IH]; intros H; constructor.
  - apply IH. intros x y Hx. apply H. by apply list_elem_of_further.
  - apply Forall_forall. intros y _. apply H. apply list_elem_of_here.
Qed.

Lemma StronglySorted_right_vacuous {A} (R : A → A → Prop) (l : list A) :
  (∀ x y, y ∈ l → R x y) → StronglySorted R l.
Proof.
  induction l as [|a l IH]; intros H; constructor.
  - apply IH. intros x y Hy. apply H. by apply list_elem_of_further.
  - apply Forall_forall. intros y Hy. apply H. by apply list_elem_of_further.
Qed.

(** A cell that came from [bs] (address in [LB]) stands before a cell
    that came from [as_] (address in [LA]) only if it is strictly
    smaller. *)
Lemma merge_cells_cross (LA LB : list loc) (as_ : list (loc * T)) bs :
  (∀ a, a ∈ as_ → a.1 ∉ LB) →
  (∀ b, b ∈ bs → b.1 ∉ LA) →
  StronglySorted (cell_le ltb) as_ →
  StronglySorted (λ x y, x.1 ∈ LB → y.1 ∈ LA → ltb x.2 y.2 = true)
    (merge_cells ltb as_ bs).
Proof using ltb_negtrans.
  revert bs. induction as_ as [|a as_ IHa]; intros bs HA HB Ha.
  { rewrite merge_cells_nil_l. apply StronglySorted_right_vacuous.
    intros x y Hy _ Hin. by apply HB in Hy. }
  induction bs as [|b bs IHb].
  { rewrite merge_cells_nil_r. apply StronglySorted_left_vacuous.
    intros x y Hx Hin. by apply HA in Hx. }
  pose proof Ha as Ha0. apply StronglySorted_cons in Ha as [Haa Ha'].
  rewrite merge_cells_cons. destruct (ltb b.2 a.2) eqn:E.
  - apply StronglySorted_cons. split.
    + rewrite merge_cells_perm. apply Forall_app. split.
      * apply Forall_cons. split; [done|].
        eapply Forall_impl; [exact Haa|]. intros y Hy _ _. unfold cell_le in Hy.
        destruct (ltb b.2 y.2) eqn:E'; [done|].
        by rewrite (ltb_negtrans _ _ _ Hy E') in E.
      * apply Forall_forall. intros y Hy _ Hin. exfalso.
        eapply HB; [|done]. by apply list_elem_of_further.
    + apply IHb. intros b' Hb'. apply HB. by apply list_elem_of_further.
  - apply StronglySorted_cons. split.
    + apply Forall_forall. intros y _ Hin. exfalso. eapply HA; [|done]. apply list_elem_of_here.
    + apply IHa; [|done|done]. intros a' Ha''. apply HA. by apply list_elem_of_further.
Qed.

(** Selecting the cells of one source gives back that source, in its
    order. *)
Lemma merge_cells_filter_l (P : loc * T → Prop) `{!∀ c, Decision (P c)}
    (as_ : list (loc * T)) bs :
  (∀ a, a ∈ as_ → P a) → (∀ b, b ∈ bs → ¬ P b) →
  filter P (merge_cells ltb as_ bs) = as_.
Proof.
  revert bs. induction as_ as [|a as_ IHa]; intros bs HA HB.
  { rewrite merge_cells_nil_l. induction bs as [|b bs IHb]; [done|].
    rewrite filter_cons_False by (apply HB, list_elem_of_here).
    apply IHb. intros b' Hb'. apply HB. by apply list_elem_of_further. }
  induction bs as [|b bs IHb].
  { rewrite merge_cells_nil_r. clear IHa. induction as_ as [|a' as_ IH] in a, HA |- *.
    - rewrite filter_cons_True by (apply HA, list_elem_of_here). done.
    - rewrite filter_cons_True by (apply HA, list_elem_of_here). f_equal.
      apply IH. intros a'' Ha''. apply HA. by apply list_elem_of_further. }
  rewrite merge_cells_cons. destruct (ltb b.2 a.2).
  - rewrite filter_cons_False by (apply HB, list_elem_of_here).
    apply IHb. intros b' Hb'. apply HB. by apply list_elem_of_further.
  - rewrite filter_cons_True by (apply HA, list_elem_of_here). f_equal.
    apply IHa; [|done]. intros a' Ha'. apply HA. by apply list_elem_of_further.
Qed.

Lemma merge_cells_filter_r (P : loc * T → Prop) `{!∀ c, Decision (P c)}
    (as_ : list (loc * T)) bs :
  (∀ a, a ∈ as_ → ¬ P a) → (∀ b, b ∈ bs → P b) →
  filter P (merge_cells ltb as_ bs) = bs.
Proof.
  revert bs. induction as_ as [|a as_ IHa]; intros bs HA HB.
  { rewrite merge_cells_nil_l. induction bs as [|b bs IHb]; [done|].
    rewrite filter_cons_True by (apply HB, list_elem_of_here). f_equal.
    apply IHb. intros b' Hb'. apply HB. by apply list_elem_of_further. }
  induction bs as [|b bs IHb].
  { rewrite merge_cells_nil_r. clear IHa. induction as_ as [|a' as_ IH] in a, HA |- *.
    - rewrite filter_cons_False by (apply HA, list_elem_of_here). done.
    - rewrite filter_cons_False by (apply HA, list_elem_of_here).
      apply IH. intros a'' Ha''. apply HA. by apply list_elem_of_further. }
  rewrite merge_cells_cons. destruct (ltb b.2 a.2).
  - rewrite filter_cons_True by (apply HB, list_elem_of_here). f_equal.
    apply IHb. intros b' Hb'. apply HB. by apply list_elem_of_further.
  - rewrite filter_cons_False by (apply HA, list_elem_of_here).
    apply IHa; [|done]. intros a' Ha'. apply HA. by apply list_elem_of_further.
Qed.

End MergeSeq.


(** ** [merge]: main theorem *)

Section MergeClaim.
Context {T : Type}.
Variable ltb : T → T → bool.
Hypothesis ltb_asym : ∀ x y, ltb x y = true → ltb y x = false.
Hypothesis ltb_negtrans : ∀ x y z, ltb y x = false → ltb z y = false → ltb z x = false.

Lemma merge_self (h : heap T) this fuel : merge ltb fuel this this h = Ok tt h.
Proof. unfold merge. by rewrite bool_decide_eq_true_2. Qed.

Lemma data_in_footprint hd tl (ds : list (loc * T)) l :
  l ∈ ds.*1 → l ∈ footprint hd tl ds.
Proof. intros. rewrite footprint_eq, elem_of_cons, elem_of_app. auto. Qed.

(** C1: for two distinct lists [A], [B] whose sequences are ascending,
    [A.merge(B)] leaves in [A] the nodes of both lists (the very same
    nodes, with their elements) in ascending order and empties [B];
    the nodes that came from [A] keep their relative order, and so do
    the nodes that came from [B]; a node from [B] stands before a node
    from [A] only when it is strictly smaller, hence among equal
    elements those of [A] come first.  Merging a list with itself
    changes nothing. *)
Theorem C1_merge_is_stable_ascending_merge :
  (∀ (h : heap T) A fuel, merge ltb fuel A A h = Ok tt h) ∧
  (∀ (h : heap T) A B hdA tlA hdB tlB (as_ bs : list (loc * T)) fuel,
     A ≠ B →
     wf_list h A hdA tlA as_ →
     wf_list h B hdB tlB bs →
     (∀ l, l ∈ footprint hdA tlA as_ → l ∈ footprint hdB tlB bs → False) →
     ascending ltb as_.*2 →
     ascending ltb bs.*2 →
     length as_ + length bs < fuel →
     ∃ h' zs,
       merge ltb fuel A B h = Ok tt h' ∧
       is_list h' A hdA tlA zs (wrap (Z.of_nat (length as_) + Z.of_nat (length bs))) ∧
       wf_list h' B hdB tlB [] ∧
       size B h' = Ok 0%Z h' ∧
       zs ≡ₚ as_ ++ bs ∧
       ascending ltb zs.*2 ∧
       filter (λ c, c.1 ∈ as_.*1) zs = as_ ∧
       filter (λ c, c.1 ∈ bs.*1) zs = bs ∧
       (∀ i j x y, i < j → zs !! i = Some x → zs !! j = Some y →
                   x.1 ∈ bs.*1 → y.1 ∈ as_.*1 → ltb x.2 y.2 = true)).
Proof using ltb_asym ltb_negtrans.
  split; [apply merge_self|].
  intros h A B hdA tlA hdB tlB as_ bs fuel Hne HA HB Hdisj Hsa Hsb Hf.
  destruct (merge_spec ltb A B hdA tlA hdB tlB h as_ bs fuel HA HB Hne Hdisj Hf)
    as (h' & E & HA' & HB' & _).
  assert (∀ a, a ∈ as_ → a.1 ∉ bs.*1) as Hab.
  { intros a Ha Hin. apply (Hdisj a.1); apply data_in_footprint; [|done].
    apply list_elem_of_fmap. eauto. }
  assert (∀ b, b ∈ bs → b.1 ∉ as_.*1) as Hba.
  { intros b Hb Hin. apply (Hdisj b.1); apply data_in_footprint; [done|].
    apply list_elem_of_fmap. eauto. }
  apply ascending_cells in Hsa, Hsb.
  exists h', (merge_cells ltb as_ bs). split_and!; [done|done|done|..].
  - destruct HB' as [HB' _]. by eapply size_spec.
  - apply merge_cells_perm.
  - apply ascending_cells. by apply merge_cells_sorted.
  - apply merge_cells_filter_l; [|done]. intros a Ha. apply list_elem_of_fmap. eauto.
  - apply merge_cells_filter_r; [done|]. intros b Hb. apply list_elem_of_fmap. eauto.
  - intros i j x y Hij Hi Hj Hx Hy.
    by apply (StronglySorted_lookup _ _ i j x y
                (merge_cells_cross ltb ltb_negtrans as_.*1 bs.*1 as_ bs Hab Hba Hsa)).
Qed.

End MergeClaim.


(** ** [clear], copying and assignment *)

Section Copy.
Context {T : Type}.
Implicit Types (ns : gmap loc (node T)) (ls : gmap loc list_rep) (h : heap T).
Implicit Types (cs : list (loc * option T)) (ds : list (loc * T)).

Lemma clear_loop_spec this r tl ls ds : ∀ ns pv fuel,
  ls !! this = Some r → tail r = Some tl →
  NoDup ds.*1 → tl ∉ ds.*1 →
  dll ns pv (data_cells ds) (Some tl) →
  length ds < fuel →
  ∃ ns', clear_loop fuel this (first_ptr (data_cells ds) (Some tl)) (Heap ns ls)
           = Ok tt (Heap ns' ls)
         ∧ (∀ l, l ∈ ds.*1 → ns' !! l = None)
         ∧ (∀ l, l ∉ ds.*1 → ns' !! l = ns !! l).
Proof.
  intros ns pv fuel Hr Htl. revert ns pv fuel.
  induction ds as [|d ds IH]; intros ns pv fuel Hnd Hnt Hd Hf;
    (destruct fuel as [|fuel]; [simpl in Hf; lia|]).
  { exists ns. split_and!; [|by intros l ?%elem_of_nil|done].
    cbn [clear_loop]. mstep. rewrite Htl. by rewrite ptr_eqb_refl. }
  simpl in Hd, Hf, Hnd, Hnt. destruct Hd as [Hd1 Hd2].
  apply NoDup_cons in Hnd as [Hn Hnd]. apply not_elem_of_cons in Hnt as [Hne Hnt].
  destruct (IH (delete d.1 ns) (Some d.1) fuel) as (ns' & E & Hin & Hout); [done|done| |lia|].
  { eapply dll_frame; [|done]. intros l Hl. apply lookup_delete_ne.
    rewrite data_cells_fst in Hl. intros E. apply Hn. by rewrite E. }
  exists ns'. split_and!.
  - cbn [clear_loop]. mstep. rewrite Htl. cbn [first_ptr data_cells map fst].
    rewrite ptr_eqb_ne by congruence. do 4 mstep.
    rewrite !delete_insert_eq. exact E.
  - intros l Hl. apply elem_of_cons in Hl as [->|Hl]; [|by apply Hin].
    rewrite Hout by done. apply lookup_delete_eq.
  - intros l Hl. apply not_elem_of_cons in Hl as [? ?].
    rewrite Hout by done. by apply lookup_delete_ne.
Qed.

Lemma clear_spec h this hd tl ds k fuel :
  is_list h this hd tl ds k → length ds < fuel →
  ∃ h', clear fuel this h = Ok tt h'
        ∧ wf_list h' this hd tl []
        ∧ (∀ l, l ∈ ds.*1 → nodes h' !! l = None)
        ∧ (∀ l, l ∉ footprint hd tl ds → nodes h' !! l = nodes h !! l)
        ∧ lists h' = <[this := ListRep (Some hd) (Some tl) 0]> (lists h).
Proof.
  destruct h as [ns ls]. intros [Hr Hl] Hf. simpl in *.
  pose proof (linked_head _ _ _ _ Hl) as Hhd.
  pose proof (linked_tail _ _ _ _ Hl) as Htl.
  pose proof (linked_head_ne_tail _ _ _ _ Hl) as Hne.
  pose proof Hl as [Hnd Hd]. change (NoDup (footprint hd tl ds)) in Hnd.
  rewrite footprint_eq in Hnd. apply NoDup_cons in Hnd as [Hhdn Hnd].
  apply NoDup_app in Hnd as (Hnd & Hdt & _).
  assert (tl ∉ ds.*1) as Htn.
  { intros Hin. apply (Hdt _ Hin). apply list_elem_of_here. }
  assert (hd ∉ ds.*1) as Hhn.
  { intros Hin. apply Hhdn. apply elem_of_app. by left. }
  unfold chain in Hd. simpl in Hd. destruct Hd as [_ Hd].
  apply dll_app in Hd as [Hd _]. simpl in Hd.
  destruct (clear_loop_spec this _ tl ls ds ns (Some hd) fuel Hr eq_refl Hnd Htn Hd Hf)
    as (ns' & E & Hin & Hout).
  assert (ns' !! hd = ns !! hd) as Hhd' by by apply Hout.
  assert (ns' !! tl = ns !! tl) as Htl' by by apply Hout.
  rewrite Hhd in Hhd'. rewrite Htl in Htl'.
  eexists. split.
  - unfold clear. do 2 mstep. rewrite (bind_ok _ _ _ _ _ E).
    do 6 mstep. by mfinal.
  - simpl. split_and!; [| | |done].
    + split; [|by vm_compute]. split; [lk|]. split.
      * simpl. apply NoDup_cons. split; [|apply NoDup_singleton].
        rewrite not_elem_of_cons. split; [done|apply not_elem_of_nil].
      * simpl. split_and!; [lk|lk|done].
    + intros l Hl'. rewrite !lookup_insert_ne; [by apply Hin|..]; by intros <-.
    + intros l Hl'. rewrite footprint_eq in Hl'.
      apply not_elem_of_cons in Hl' as [? Hl']. apply not_elem_of_app in Hl' as [? Hl'].
      apply not_elem_of_cons in Hl' as [? _].
      rewrite !lookup_insert_ne by done. by apply Hout.
Qed.

Lemma bind_on_it_ok {A B} (m : heap T → M iterator A) it a it' h
    (k : A * iterator → M (heap T) B) :
  m h it = Ok a it' → bind (on_it m it) k h = k (a, it') h.
Proof. intros E. unfold bind, on_it. by rewrite E. Qed.

Lemma incr_data h this hd tl ds1 d ds2 k :
  is_list h this hd tl (ds1 ++ d :: ds2) k →
  it_pre_incr h (Iter (Some d.1) (Some this))
  = Ok tt (Iter (first_ptr (data_cells ds2) (Some tl)) (Some this)).
Proof.
  intros [Hr Hl].
  pose proof (linked_data _ _ _ _ _ _ Hl) as Hd.
  assert (d.1 ≠ tl) by (eapply linked_data_ne_tail; [done|]; set_solver).
  it_eval Hr; try congruence. by rewrite Hd.
Qed.

Lemma copy_loop_done h this other hd tl hdO tlO ds os z kO fuel :
  copying h this other hd tl hdO tlO ds os z kO →
  copy_loop (S fuel) this other (Iter (Some tlO) (Some other)) h = Ok tt h.
Proof.
  intros (_ & [HrO _] & _). cbn [copy_loop]. unfold cend.
  rewrite (bind_ok _ _ _ _ _ (end_spec _ _ _ HrO)).
  unfold it_neq, it_eq. cbn. by rewrite !ptr_eqb_refl.
Qed.

Lemma copy_loop_step h this other hd tl hdO tlO ds seen d rest z kO :
  copying h this other hd tl hdO tlO ds (seen ++ d :: rest) z kO →
  let l := fresh (dom (nodes h)) in
  ∃ h1,
    (∀ fuel,
       copy_loop (S fuel) this other (Iter (Some d.1) (Some other)) h
       = copy_loop fuel this other
           (Iter (first_ptr (data_cells rest) (Some tlO)) (Some other)) h1) ∧
    copying h1 this other hd tl hdO tlO (ds ++ [(l, d.2)]) (seen ++ d :: rest) (z + 1) kO ∧
    (l ∉ dom (nodes h)) ∧
    dom (nodes h1) = {[l]} ∪ dom (nodes h) ∧
    (∀ l', l' ≠ l → l' ∉ footprint hd tl ds → nodes h1 !! l' = nodes h !! l') ∧
    (∀ x, x ≠ this → lists h1 !! x = lists h !! x).
Proof.
  intros (HA & HO & Hne & Hdisj) l.
  pose proof HA as [HrA HlA]. pose proof HO as [HrO HlO].
  assert (d.1 ≠ tlO) by (eapply linked_data_ne_tail; [done|]; set_solver).
  destruct (push_back_spec h this hd tl ds _ d.2 HA) as (h1 & E1 & HA1 & Hf1 & Hdom1 & Hls1).
  fold l in HA1, Hf1, Hdom1.
  assert (l ∉ dom (nodes h)) as Hfresh by apply is_fresh.
  assert (l ∉ footprint hdO tlO (seen ++ d :: rest)) as HlO'.
  { intros Hin. apply Hfresh. by eapply linked_dom. }
  assert (is_list h1 other hdO tlO (seen ++ d :: rest) kO) as HO1.
  { split.
    - rewrite Hls1. by rewrite lookup_insert_ne.
    - eapply linked_frame; [|done]. intros l' Hl'. apply Hf1.
      + by intros ->.
      + intros ?. by eapply Hdisj. }
  rewrite wrap_succ in HA1.
  exists h1. split; [|split].
  - intros fuel. cbn [copy_loop]. unfold cend.
    rewrite (bind_ok _ _ _ _ _ (end_spec _ _ _ HrO)).
    unfold it_neq, it_eq. cbn [p owner head tail n].
    rewrite (ptr_eqb_ne (Some d.1)) by congruence. cbn [andb negb].
    unfold cit_deref, cit_pre_incr.
    rewrite (bind_on_it_ok _ _ _ _ _ _ (deref_data _ _ _ _ _ _ _ _ HO)). msimpl.
    rewrite (bind_ok _ _ _ _ _ E1).
    by rewrite (bind_on_it_ok _ _ _ _ _ _ (incr_data _ _ _ _ _ _ _ _ HO1)).
  - split_and!; [done..|]. intros l' HinA HinO.
    apply (footprint_mid hd tl ds (l, d.2) []) in HinA as [->|HinA]; [done|].
    rewrite app_nil_r in HinA. by eapply Hdisj.
  - split_and!; [done..|]. intros x Hx. rewrite Hls1. by rewrite lookup_insert_ne.
Qed.

Lemma copy_loop_spec this other hd tl hdO tlO kO : ∀ fuel rest seen h ds z,
  copying h this other hd tl hdO tlO ds (seen ++ rest) z kO →
  length rest < fuel →
  ∃ h' new,
    copy_loop fuel this other (Iter (first_ptr (data_cells rest) (Some tlO)) (Some other)) h
    = Ok tt h' ∧
    copying h' this other hd tl hdO tlO (ds ++ new) (seen ++ rest)
      (z + Z.of_nat (length rest)) kO ∧
    new.*2 = rest.*2.
Proof.
  induction fuel as [|fuel IH]; intros rest seen h ds z Hc Hf; [lia|].
  destruct rest as [|d rest].
  { exists h, []. rewrite !app_nil_r. rewrite app_nil_r in Hc.
    split; [by eapply copy_loop_done|]. split; [|done].
    by replace (z + Z.of_nat (length (@nil (loc * T))))%Z with z by (simpl; lia). }
  simpl in Hf.
  destruct (copy_loop_step _ _ _ _ _ _ _ _ _ _ _ _ _ Hc) as (h1 & E1 & Hc1 & _).
  replace (seen ++ d :: rest) with ((seen ++ [d]) ++ rest) in Hc1
    by by rewrite <- app_assoc.
  destruct (IH rest (seen ++ [d]) h1 _ _ Hc1) as (h' & new & E' & Hc' & Hnew); [lia|].
  rewrite <- !app_assoc in Hc'. simpl in Hc'.
  exists h', ((fresh (dom (nodes h)), d.2) :: new). split; [|split].
  - cbn [first_ptr data_cells map fst]. by rewrite E1.
  - by replace (z + Z.of_nat (length (d :: rest)))%Z
      with (z + 1 + Z.of_nat (length rest))%Z by (simpl; lia).
  - by rewrite !fmap_cons, Hnew.
Qed.

(** Whatever the fuel, copying from a well-formed list does not raise. *)
Lemma copy_loop_no_throw this other hd tl hdO tlO kO : ∀ fuel rest seen h ds z,
  copying h this other hd tl hdO tlO ds (seen ++ rest) z kO →
  ∀ e h',
    copy_loop fuel this other (Iter (first_ptr (data_cells rest) (Some tlO)) (Some other)) h
    ≠ Throw e h'.
Proof.
  induction fuel as [|fuel IH]; intros rest seen h ds z Hc e h'; [done|].
  destruct rest as [|d rest].
  { rewrite app_nil_r in Hc. cbn [first_ptr data_cells map].
    by erewrite copy_loop_done. }
  destruct (copy_loop_step _ _ _ _ _ _ _ _ _ _ _ _ _ Hc) as (h1 & E1 & Hc1 & _).
  replace (seen ++ d :: rest) with ((seen ++ [d]) ++ rest) in Hc1
    by by rewrite <- app_assoc.
  cbn [first_ptr data_cells map fst]. rewrite E1. by eapply IH.
Qed.

End Copy.


(** ** Assignment: main theorem *)

Section Assign.
Context {T : Type}.
Implicit Types (h : heap T) (ds : list (loc * T)).

Lemma assign_self h this fuel : assign fuel this this h = Ok tt h.
Proof. unfold assign. by rewrite bool_decide_eq_true_2. Qed.

Lemma footprint_nil_sub hd tl ds l :
  l ∈ footprint hd tl (@nil (loc * T)) → l ∈ footprint hd tl ds.
Proof.
  rewrite !footprint_eq. simpl. rewrite !elem_of_cons, elem_of_app, list_elem_of_singleton.
  intros [?|[?|?%elem_of_nil]]; [by left|by right; right|done].
Qed.

Lemma assign_spec h this other hd tl hdO tlO ds os kO fuel :
  wf_list h this hd tl ds →
  is_list h other hdO tlO os kO →
  this ≠ other →
  (∀ l, l ∈ footprint hd tl ds → l ∈ footprint hdO tlO os → False) →
  length ds < fuel → length os < fuel →
  ∃ h1 h' new,
    clear fuel this h = Ok tt h1 ∧
    wf_list h1 this hd tl [] ∧
    (∀ l, l ∈ ds.*1 → nodes h1 !! l = None) ∧
    assign fuel this other h = Ok tt h' ∧
    is_list h' this hd tl new (wrap (Z.of_nat (length os))) ∧
    new.*2 = os.*2 ∧
    is_list h' other hdO tlO os kO.
Proof.
  intros [HA HbA] HO Hne Hdisj Hf1 Hf2.
  destruct (clear_spec h this hd tl ds _ fuel HA Hf1) as (h1 & E1 & HA1 & Hgone & Hfr & Hls).
  assert (is_list h1 other hdO tlO os kO) as HO1.
  { destruct HO as [HrO HlO]. split.
    - rewrite Hls. by rewrite lookup_insert_ne.
    - eapply linked_frame; [|done]. intros l Hl. apply Hfr. intros ?. by eapply Hdisj. }
  destruct HA1 as [HA1 Hb1]. simpl in HA1.
  destruct (copy_loop_spec this other hd tl hdO tlO kO fuel os [] h1 [] 0)
    as (h' & new & E' & (HA' & HO' & _) & Hnew); [|done|].
  { split_and!; [done..|].
    intros l HlA HlO. eapply Hdisj; [|done]. by apply footprint_nil_sub. }
  exists h1, h', new. split_and!; try done.
  unfold assign. rewrite bool_decide_eq_false_2 by done.
  rewrite (bind_ok _ _ _ _ _ E1). unfold cbegin.
  rewrite (bind_ok _ _ _ _ _ (begin_spec _ _ _ _ _ _ HO1)). exact E'.
Qed.

(** C10: assigning a list to itself returns at once and leaves the
    whole state (every node, both sentinels, the count) as it was,
    whereas assigning from another list first releases every data node
    of the target and then copies the source's elements into new
    nodes. *)
Theorem C10_self_assignment_is_a_no_op :
  (∀ (h : heap T) this fuel, assign fuel this this h = Ok tt h) ∧
  (∀ (h : heap T) this other hd tl hdO tlO ds os fuel,
     wf_list h this hd tl ds →
     wf_list h other hdO tlO os →
     this ≠ other →
     (∀ l, l ∈ footprint hd tl ds → l ∈ footprint hdO tlO os → False) →
     length ds < fuel → length os < fuel →
     ∃ h1 h' new,
       clear fuel this h = Ok tt h1 ∧
       wf_list h1 this hd tl [] ∧
       (∀ l, l ∈ ds.*1 → nodes h1 !! l = None) ∧
       assign fuel this other h = Ok tt h' ∧
       wf_list h' this hd tl new ∧
       new.*2 = os.*2 ∧
       wf_list h' other hdO tlO os).
Proof.
  split; [apply assign_self|].
  intros h this other hd tl hdO tlO ds os fuel HA [HO HbO] Hne Hdisj Hf1 Hf2.
  destruct (assign_spec h this other hd tl hdO tlO ds os _ fuel HA HO Hne Hdisj Hf1 Hf2)
    as (h1 & h' & new & E1 & HA1 & Hgone & E & HA' & Hnew & HO').
  exists h1, h', new. split_and!; try done.
  assert (length new = length os) as Hlen.
  { apply (f_equal length) in Hnew. by rewrite !length_fmap in Hnew. }
  rewrite wrap_small in HA' by lia. split; [by rewrite Hlen|lia].
Qed.

End Assign.


(** ** No member function changes the state and then fails *)

Section NoThrowLoops.
Context {T : Type}.
Variable ltb : T → T → bool.
Variable eqb : T → T → bool.
Variable sort_alg : (ptr → ptr → bool) → list ptr → list ptr.

Lemma no_throw_clear_loop fuel : ∀ this cur, no_throw (clear_loop (T:=T) fuel this cur).
Proof. induction fuel as [|fuel IH]; intros this cur; cbn [clear_loop]; effects. Qed.

Lemma no_throw_merge_loop fuel : ∀ this other ai bi,
  no_throw (merge_loop ltb fuel this other ai bi).
Proof. induction fuel as [|fuel IH]; intros; cbn [merge_loop]; effects. Qed.

Lemma no_throw_merge_rest fuel : ∀ this other bi,
  no_throw (merge_rest (T:=T) fuel this other bi).
Proof. induction fuel as [|fuel IH]; intros; cbn [merge_rest]; effects. Qed.

Lemma no_throw_reverse_loop fuel : ∀ cur, no_throw (reverse_loop (T:=T) fuel cur).
Proof. induction fuel as [|fuel IH]; intros; cbn [reverse_loop]; effects. Qed.

Lemma no_throw_unique_inner fuel : ∀ this cur nx,
  no_throw (unique_inner eqb fuel this cur nx).
Proof. induction fuel as [|fuel IH]; intros; cbn [unique_inner]; effects. Qed.

Lemma no_throw_sort_collect fuel : ∀ this k cur arr,
  no_throw (sort_collect (T:=T) fuel this k cur arr).
Proof. induction fuel as [|fuel IH]; intros; cbn [sort_collect]; effects. Qed.

Lemma no_throw_sort_check arr : no_throw (sort_check (T:=T) arr).
Proof. induction arr as [|a arr IH]; cbn [sort_check]; effects. Qed.

Lemma no_throw_sort_relink arr : no_throw (sort_relink (T:=T) arr).
Proof.
  induction arr as [|a arr IH]; cbn [sort_relink]; [effects|].
  destruct arr; effects.
Qed.

End NoThrowLoops.

Global Hint Resolve no_throw_clear_loop no_throw_merge_loop no_throw_merge_rest
  no_throw_reverse_loop no_throw_unique_inner no_throw_sort_collect
  no_throw_sort_check no_throw_sort_relink : effects.

Section NoThrowMethods.
Context {T : Type}.
Variable ltb : T → T → bool.
Variable eqb : T → T → bool.
Variable sort_alg : (ptr → ptr → bool) → list ptr → list ptr.

Lemma no_throw_unique_outer fuel : ∀ this cur,
  no_throw (unique_outer eqb fuel this cur).
Proof. induction fuel as [|fuel IH]; intros; cbn [unique_outer]; effects. Qed.

Lemma no_throw_clear fuel this : no_throw (clear (T:=T) fuel this).
Proof. unfold clear. effects. Qed.

Lemma no_throw_list_ctor this : no_throw (list_ctor (T:=T) this).
Proof. unfold list_ctor. effects. Qed.

Lemma no_throw_push_back this v : no_throw (push_back (T:=T) this v).
Proof. unfold push_back. effects. Qed.

Lemma no_throw_push_front this v : no_throw (push_front (T:=T) this v).
Proof. unfold push_front. effects. Qed.

Lemma no_throw_sort fuel this : no_throw (sort ltb sort_alg fuel this).
Proof. unfold sort. effects. Qed.

Lemma no_throw_merge fuel this other : no_throw (merge ltb fuel this other).
Proof. unfold merge. effects. Qed.

Lemma no_throw_reverse fuel this : no_throw (reverse (T:=T) fuel this).
Proof. unfold reverse. effects. Qed.

Lemma throws_clean_front this : throws_clean (front (T:=T) this).
Proof. unfold front. effects. Qed.

Lemma throws_clean_back this : throws_clean (back (T:=T) this).
Proof. unfold back. effects. Qed.

Lemma throws_clean_pop_back this : throws_clean (pop_back (T:=T) this).
Proof. unfold pop_back. effects. Qed.

Lemma throws_clean_pop_front this : throws_clean (pop_front (T:=T) this).
Proof. unfold pop_front. effects. Qed.

Lemma no_throw_begin this : no_throw (begin (T:=T) this).
Proof. unfold begin. effects. Qed.

Lemma no_throw_end this : no_throw (end_ (T:=T) this).
Proof. unfold end_. effects. Qed.

Lemma no_throw_empty this : no_throw (empty (T:=T) this).
Proof. unfold empty. effects. Qed.

Lemma no_throw_size this : no_throw (size (T:=T) this).
Proof. unfold size. effects. Qed.

Lemma throws_clean_it_post_incr (h : heap T) : throws_clean (it_post_incr h).
Proof. unfold it_post_incr. effects. Qed.
Lemma throws_clean_it_pre_incr (h : heap T) : throws_clean (it_pre_incr h).
Proof. unfold it_pre_incr. effects. Qed.
Lemma throws_clean_it_post_decr (h : heap T) : throws_clean (it_post_decr h).
Proof. unfold it_post_decr, it_retreat. effects. Qed.
Lemma throws_clean_it_pre_decr (h : heap T) : throws_clean (it_pre_decr h).
Proof. unfold it_pre_decr, it_retreat. effects. Qed.
Lemma throws_clean_it_deref (h : heap T) : throws_clean (it_deref h).
Proof. unfold it_deref. effects. Qed.
Lemma throws_clean_it_arrow (h : heap T) : throws_clean (it_arrow h).
Proof. unfold it_arrow. effects. Qed.

End NoThrowMethods.


Global Hint Resolve no_throw_unique_outer no_throw_clear no_throw_list_ctor
  no_throw_push_back no_throw_push_front no_throw_sort no_throw_merge
  no_throw_reverse no_throw_begin no_throw_end no_throw_empty no_throw_size
  throws_clean_front throws_clean_back throws_clean_pop_back
  throws_clean_pop_front throws_clean_insert throws_clean_erase
  throws_clean_it_post_incr throws_clean_it_pre_incr throws_clean_it_post_decr
  throws_clean_it_pre_decr throws_clean_it_deref throws_clean_it_arrow : effects.

Section CopyingMembers.
Context {T : Type}.
Variable ltb : T → T → bool.
Variable eqb : T → T → bool.
Variable sort_alg : (ptr → ptr → bool) → list ptr → list ptr.
Implicit Types (h : heap T) (ds : list (loc * T)).

Lemma no_throw_unique fuel this : no_throw (unique eqb fuel this).
Proof. unfold unique. effects. Qed.

Lemma no_throw_list_dtor fuel this : no_throw (list_dtor (T:=T) fuel this).
Proof. unfold list_dtor. effects. Qed.

(** More fuel does not change a result. *)
Lemma bind_ok_mono {S A B} (m : M S A) (k k' : A → M S B) s b s' :
  (∀ a s1, k a s1 = Ok b s' → k' a s1 = Ok b s') →
  bind m k s = Ok b s' → bind m k' s = Ok b s'.
Proof. intros Hk. unfold bind. destruct (m s); try done. apply Hk. Qed.

Lemma bind_ok_mono_l {S A B} (m m' : M S A) (k : A → M S B) s b s' :
  (∀ a s1, m s = Ok a s1 → m' s = Ok a s1) →
  bind m k s = Ok b s' → bind m' k s = Ok b s'.
Proof.
  intros H. unfold bind. destruct (m s) eqn:E; try done. by rewrite (H _ _ eq_refl).
Qed.

Lemma clear_loop_S fuel this cur :
  clear_loop (T:=T) (S fuel) this cur
  = (tl <- get_tail this ;;
     if ptr_eqb cur tl then ret tt
     else nx <- get_next cur ;; set_next cur None ;; set_prev cur None ;;
          delete_node cur ;; clear_loop fuel this nx).
Proof. done. Qed.

Lemma clear_loop_mono fuel : ∀ this cur h a h',
  clear_loop fuel this cur h = Ok a h' → clear_loop (S fuel) this cur h = Ok a h'.
Proof.
  induction fuel as [|fuel IH]; intros this cur h a h'; [done|].
  rewrite (clear_loop_S (S fuel)), (clear_loop_S fuel).
  apply bind_ok_mono. intros tl s1.
  destruct (ptr_eqb cur tl); [done|].
  repeat (apply bind_ok_mono; intros ? ?). apply IH.
Qed.

Lemma clear_loop_mono_le fuel fuel' this cur h a h' :
  fuel ≤ fuel' →
  clear_loop fuel this cur h = Ok a h' → clear_loop fuel' this cur h = Ok a h'.
Proof.
  induction 1 as [|fuel' _ IH]; [done|]. intros E. by apply clear_loop_mono, IH.
Qed.

Lemma clear_mono_le fuel fuel' this h a h' :
  fuel ≤ fuel' → clear fuel this h = Ok a h' → clear fuel' this h = Ok a h'.
Proof.
  intros Hle. unfold clear.
  do 2 (apply bind_ok_mono; intros ? ?).
  apply bind_ok_mono_l. intros ? ?. by apply clear_loop_mono_le.
Qed.

Lemma assign_no_throw h this other hd tl hdO tlO ds os k kO fuel e h' :
  this ≠ other →
  is_list h this hd tl ds k →
  is_list h other hdO tlO os kO →
  (∀ l, l ∈ footprint hd tl ds → l ∈ footprint hdO tlO os → False) →
  assign fuel this other h ≠ Throw e h'.
Proof.
  intros Hne HA HO Hdisj.
  unfold assign. rewrite bool_decide_eq_false_2 by done.
  unfold bind at 1. destruct (clear fuel this h) as [[] h1| | |] eqn:E1; try done.
  - destruct (clear_spec h this hd tl ds _ (fuel + S (length ds)) HA)
      as (h1' & E1' & HA1 & _ & Hfr & Hls); [lia|].
    rewrite (clear_mono_le fuel _ _ _ _ _ (Nat.le_add_r _ _) E1) in E1'.
    injection E1' as <-.
    assert (is_list h1 other hdO tlO os kO) as HO1.
    { destruct HO as [HrO HlO]. split.
      - rewrite Hls. by rewrite lookup_insert_ne.
      - eapply linked_frame; [|done]. intros l Hl. apply Hfr. intros ?. by eapply Hdisj. }
    unfold cbegin. rewrite (bind_ok _ _ _ _ _ (begin_spec _ _ _ _ _ _ HO1)).
    destruct HA1 as [HA1 _]. simpl in HA1.
    eapply (copy_loop_no_throw this other hd tl hdO tlO _ fuel os [] h1 [] 0).
    split_and!; [done..|].
    intros l HlA HlO. eapply Hdisj; [|done]. by apply footprint_nil_sub.
  - by apply no_throw_clear in E1.
Qed.

Lemma copy_ctor_no_throw h this other hdO tlO os kO fuel e h' :
  this ≠ other →
  is_list h other hdO tlO os kO →
  list_copy_ctor fuel this other h ≠ Throw e h'.
Proof.
  intros Hne HO.
  destruct (list_ctor_spec h this) as (h0 & E0 & HA0 & Hfr & Hls).
  set (hd := fresh (dom (nodes h))) in *.
  set (tl := fresh ({[hd]} ∪ dom (nodes h))) in *.
  assert (hd ∉ dom (nodes h)) as Hhd by apply is_fresh.
  assert (tl ∉ {[hd]} ∪ dom (nodes h)) as Htl by apply is_fresh.
  assert (∀ l, l ∈ footprint hdO tlO os → l ≠ hd ∧ l ≠ tl) as Hsep.
  { intros l Hl. destruct HO as [_ HlO]. apply (linked_dom _ _ _ _ _ HlO) in Hl.
    split; intros ->; [done|]. apply Htl. set_solver. }
  assert (is_list h0 other hdO tlO os kO) as HO0.
  { destruct HO as [HrO HlO]. split.
    - rewrite Hls. by rewrite lookup_insert_ne.
    - eapply linked_frame; [|done]. intros l Hl. apply Hsep in Hl as [? ?]. by apply Hfr. }
  unfold list_copy_ctor. rewrite (bind_ok _ _ _ _ _ E0).
  unfold cbegin. rewrite (bind_ok _ _ _ _ _ (begin_spec _ _ _ _ _ _ HO0)).
  eapply (copy_loop_no_throw this other hd tl hdO tlO _ fuel os [] h0 [] 0).
  split_and!; [done..|].
  intros l HlA HlO. apply Hsep in HlO as [? ?].
  rewrite footprint_eq in HlA. simpl in HlA.
  rewrite !elem_of_cons in HlA. destruct HlA as [?|[?|?%elem_of_nil]]; done.
Qed.

(** C8: a member function of the list that raises [container_is_empty]
    or [invalid_iterator] leaves the whole state (every node, every
    link, the count) as it found it, and an iterator member that raises
    leaves the iterator as it was. *)
Theorem C8_failure_leaves_the_state_unchanged :
  (∀ fuel this (o : list_op T) (h : heap T) e h',
     copy_pre h this o →
     exec ltb eqb sort_alg fuel this o h = Throw e h' → h' = h) ∧
  (∀ (h : heap T) const o it e it',
     exec_it h const o it = Throw e it' → it' = it).
Proof.
  split.
  - intros fuel this o h e h' Hpre.
    destruct o; cbn [exec]; unfold void, cbegin, cend;
      try (match goal with |- ?m h = _ → _ => generalize h e h'; change (throws_clean m) end;
           effects; fail).
    + cbn in Hpre. destruct Hpre as (Hne & hdO & tlO & os & kO & HO).
      intros E. by eapply copy_ctor_no_throw in E.
    + intros E. by apply no_throw_list_dtor in E.
    + cbn in Hpre.
      destruct Hpre as [->|(hd & tl & ds & k & hdO & tlO & os & kO & HA & HO & Hd)].
      * rewrite assign_self. done.
      * destruct (decide (this = other)) as [->|Hne]; [by rewrite assign_self|].
        intros E. by eapply assign_no_throw in E.
    + intros E. by apply no_throw_unique in E.
  - intros h const o it e it'.
    destruct o, const; cbn [exec_it]; unfold void, cit_post_incr, cit_pre_incr,
      cit_post_decr, cit_pre_decr, cit_deref, cit_arrow;
      (match goal with |- ?m it = _ → _ => generalize it e it'; change (throws_clean m) end;
       effects).
Qed.

End CopyingMembers.


(** * The claims on the examples of the specification *)

Lemma Zltb_asym (x y : Z) : (x <? y)%Z = true → (y <? x)%Z = false.
Proof. rewrite Z.ltb_lt, Z.ltb_ge. lia. Qed.

Lemma Zltb_negtrans (x y z : Z) :
  (y <? x)%Z = false → (z <? y)%Z = false → (z <? x)%Z = false.
Proof. rewrite !Z.ltb_ge. lia. Qed.

Lemma Zeqb_sym (x y : Z) : (x =? y)%Z = true → (y =? x)%Z = true.
Proof. rewrite !Z.eqb_eq. lia. Qed.

Lemma Zeqb_trans (x y z : Z) :
  (x =? y)%Z = true → (y =? z)%Z = true → (x =? z)%Z = true.
Proof. rewrite !Z.eqb_eq. lia. Qed.

(** Decide well-formedness of a list of the example state. *)
Ltac solve_wf :=
  lazymatch goal with
  | |- wf_list _ _ _ _ _ => split; [solve_wf | vm_compute; reflexivity]
  | |- is_list _ _ _ _ _ _ =>
      split; [vm_compute; reflexivity
             | split; [refine (bool_decide_unpack _ _); vm_compute; exact I
                      | vm_compute; repeat split ] ]
  end.

Lemma example_wf_A : wf_list example_heap 1 10 11 cells_A.
Proof. solve_wf. Qed.
Lemma example_wf_B : wf_list example_heap 2 20 21 cells_B.
Proof. solve_wf. Qed.
Lemma example_wf_D : wf_list example_heap 3 30 31 cells_D.
Proof. solve_wf. Qed.
Lemma example_wf_E : wf_list example_heap 4 40 41 [].
Proof. solve_wf. Qed.

Lemma example_disjoint_A_B l :
  l ∈ footprint 10 11 cells_A → l ∈ footprint 20 21 cells_B → False.
Proof.
  rewrite !footprint_eq. unfold cells_A, cells_B. rewrite !fmap_cons, !fmap_nil.
  cbn [fst app]. rewrite !elem_of_cons, !elem_of_nil. intros H1 H2.
  repeat (destruct H1 as [->|H1]); try done;
    repeat (destruct H2 as [H2|H2]); done.
Qed.

Lemma example_ascending_A : ascending Z.ltb cells_A.*2.
Proof. apply ascending_cells. repeat constructor. Qed.

Lemma example_ascending_B : ascending Z.ltb cells_B.*2.
Proof. apply ascending_cells. repeat constructor. Qed.

(** The merge example of the specification: [A = [1,3,5]], [B = [2,3,4]]. *)
Lemma C1_witness :
  ∃ h' zs,
    merge Z.ltb 7 1 2 example_heap = Ok tt h' ∧
    is_list h' 1 10 11 zs 6 ∧
    size 2 h' = Ok 0%Z h' ∧
    zs ≡ₚ cells_A ++ cells_B ∧
    ascending Z.ltb zs.*2 ∧
    filter (λ c, c.1 ∈ cells_A.*1) zs = cells_A ∧
    filter (λ c, c.1 ∈ cells_B.*1) zs = cells_B.
Proof.
  destruct (proj2 (C1_merge_is_stable_ascending_merge Z.ltb Zltb_asym Zltb_negtrans)
              example_heap 1%positive 2%positive 10%positive 11%positive
              20%positive 21%positive cells_A cells_B 7)
    as (h' & zs & H1 & H2 & _ & H4 & H5 & H6 & H7 & H8 & _).
  - done.
  - exact example_wf_A.
  - exact example_wf_B.
  - exact example_disjoint_A_B.
  - exact example_ascending_A.
  - exact example_ascending_B.
  - vm_compute. lia.
  - exists h', zs.
    exact (conj H1 (conj H2 (conj H4 (conj H5 (conj H6 (conj H7 H8)))))).
Defined.

(** What the merge of the example leaves in [A], node by node: the [3]
    of [A] (node 13) precedes the [3] of [B] (node 23). *)
Example merge_example :
  ∃ h', merge Z.ltb 7 1 2 example_heap = Ok tt h' ∧
        is_list h' 1 10 11
          [(12%positive, 1%Z); (22%positive, 2%Z); (13%positive, 3%Z);
           (23%positive, 3%Z); (24%positive, 4%Z); (14%positive, 5%Z)] 6 ∧
        wf_list h' 2 20 21 [].
Proof.
  eexists. split; [vm_compute; reflexivity|]. split; solve_wf.
Qed.

Lemma C3_witness :
  (n (ListRep (Some 10%positive) (Some 11%positive) 3) = 0%Z →
   erase 1 (Iter (Some 13%positive) (Some 1%positive)) example_heap = Throw container_is_empty example_heap) ∧
  ∃ it h',
    erase 1 (Iter (Some 13%positive) (Some 1%positive)) example_heap = Ok it h' ∧
    wf_list h' 1 10 11 [(12%positive, 1%Z); (14%positive, 5%Z)] ∧
    nodes h' !! 13%positive = None ∧
    size 1 h' = Ok 2%Z h' ∧
    it = Iter (Some 14%positive) (Some 1%positive).
Proof.
  destruct (C3_erase_contract example_heap 1%positive
              (ListRep (Some 10%positive) (Some 11%positive) 3) (Iter (Some 13%positive) (Some 1%positive)))
    as (H1 & _ & H3); [vm_compute; reflexivity|].
  split; [exact H1|].
  destruct (H3 10%positive 11%positive [(12%positive, 1%Z)] (13%positive, 3%Z)
              [(14%positive, 5%Z)] example_wf_A eq_refl)
    as (it & h' & E & Hwf & Hnone & _ & Hsz & Ho & Hp).
  exists it, h'. refine (conj E (conj Hwf (conj Hnone (conj Hsz _)))).
  destruct it as [q o]. simpl in Ho, Hp. by rewrite Ho, Hp.
Defined.

Lemma C4_witness :
  ∃ h1 h2 k b,
    list_ctor 1 (Heap ∅ ∅) = Ok tt h1 ∧
    run_ops 1 [PushBack 1%Z; PushFront 2%Z; PopBack; PushBack 3%Z] h1 = Ok tt h2 ∧
    size 1 h2 = Ok k h2 ∧ empty 1 h2 = Ok b h2 ∧ k = 2%Z ∧ (b = true ↔ k = 0%Z).
Proof.
  apply (C4_size_is_pushes_minus_pops (Heap ∅ ∅) 1%positive
           [PushBack 1%Z; PushFront 2%Z; PopBack; PushBack 3%Z]).
  - reflexivity.
  - vm_compute. reflexivity.
Defined.

Lemma C5_witness :
  ∃ h1 h2,
    reverse 6 1 example_heap = Ok tt h1 ∧
    wf_list h1 1 11 10 (rev cells_A) ∧
    reverse 6 1 h1 = Ok tt h2 ∧
    h2 = example_heap ∧
    it_deref h2 (Iter (Some 13%positive) (Some 1%positive))
    = Ok 3%Z (Iter (Some 13%positive) (Some 1%positive)).
Proof.
  destruct (C5_reverse_relinks_and_is_involutive example_heap 1%positive
              10%positive 11%positive cells_A 6 example_wf_A)
    as (h1 & h2 & E1 & Hwf & _ & E2 & Heq & Hd).
  - vm_compute. lia.
  - exists h1, h2. refine (conj E1 (conj Hwf (conj E2 (conj Heq _)))).
    apply (Hd (13%positive, 3%Z)). unfold cells_A.
    apply list_elem_of_further, list_elem_of_here.
Defined.

(** [reverse()] on [[1,3,5]]: the same three nodes, in the order
    14, 13, 12, between the sentinels that have changed roles. *)
Example reverse_example :
  ∃ h', reverse 6 1 example_heap = Ok tt h' ∧
        wf_list h' 1 11 10 [(14%positive, 5%Z); (13%positive, 3%Z); (12%positive, 1%Z)].
Proof. eexists. split; [vm_compute; reflexivity|solve_wf]. Qed.

(** The example of the specification: [unique()] on [[1,1,2,2,2,3,1]]. *)
Lemma C6_witness :
  ∃ h',
    unique Z.eqb 8 3 example_heap = Ok tt h' ∧
    wf_list h' 3 30 31
      [(32%positive, 1%Z); (34%positive, 2%Z); (37%positive, 3%Z); (38%positive, 1%Z)] ∧
    size 3 h' = Ok 4%Z h' ∧
    nodes h' !! 33%positive = None.
Proof.
  destruct (C6_unique_keeps_first_of_each_run Z.eqb Zeqb_sym Zeqb_trans example_heap
              3%positive 30%positive 31%positive cells_D 8 example_wf_D)
    as (h' & E & Hwf & _ & _ & _ & Hsz & Hgone & _).
  - vm_compute. lia.
  - exists h'. refine (conj E (conj Hwf (conj Hsz _))).
    apply (Hgone (33%positive, 1%Z)).
    + unfold cells_D. apply list_elem_of_further, list_elem_of_here.
    + assert (run_heads (runs Z.eqb cells_D)
              = [(32%positive, 1%Z); (34%positive, 2%Z); (37%positive, 3%Z);
                 (38%positive, 1%Z)]) as -> by (vm_compute; reflexivity).
      rewrite !elem_of_cons, elem_of_nil. intros H.
      repeat (destruct H as [H|H]; [discriminate H|]). done.
Defined.

Lemma C7_witness :
  ∃ it,
    end_ 1 example_heap = Ok it example_heap ∧
    it_deref example_heap it = Throw invalid_iterator it ∧
    it_pre_incr example_heap it = Throw invalid_iterator it ∧
    it_post_decr example_heap (Iter None None) = Throw invalid_iterator (Iter None None).
Proof.
  destruct (C7_end_and_unbound_iterators_throw example_heap 1%positive
              (ListRep (Some 10%positive) (Some 11%positive) 3))
    as [(it & E & _ & H1 & _ & H2 & _) (_ & _ & _ & _ & _ & H3 & _)].
  - vm_compute. reflexivity.
  - exists it. exact (conj E (conj H1 (conj H2 H3))).
Defined.

(** [pop_back()] on the empty list [E] raises and changes nothing. *)
Lemma C8_witness :
  exec Z.ltb Z.eqb no_sort 1 4 OpPopBack example_heap
  = Throw container_is_empty example_heap ∧
  example_heap = example_heap.
Proof.
  assert (exec Z.ltb Z.eqb no_sort 1 4 OpPopBack example_heap
          = Throw container_is_empty example_heap) as E by (vm_compute; reflexivity).
  split; [exact E|].
  exact (proj1 (C8_failure_leaves_the_state_unchanged Z.ltb Z.eqb no_sort)
           1 4%positive OpPopBack example_heap container_is_empty example_heap I E).
Defined.

Lemma C9_witness :
  (∃ it, begin 1 example_heap = Ok it example_heap ∧
         it_pre_decr example_heap it = Ok tt (Iter (Some 10%positive) (Some 1%positive))) ∧
  erase 1 (Iter (Some 10%positive) (Some 1%positive)) example_heap = UB.
Proof.
  destruct (C9_erase_accepts_head_sentinel example_heap 1%positive 10%positive 11%positive
              (12%positive, 1%Z) [(13%positive, 3%Z); (14%positive, 5%Z)] example_wf_A)
    as (_ & (it & Hb & Hd & _) & Hub).
  split; [exists it; exact (conj Hb Hd)|exact Hub].
Defined.

(** On [A = [1,3,5]], [erase] at the head sentinel does not return:
    the sentinel is neither unlinked nor deallocated. *)
Example erase_head_sentinel_example :
  ¬ ∃ it h', erase 1 (Iter (Some 10%positive) (Some 1%positive)) example_heap = Ok it h'
             ∧ nodes h' !! 10%positive = None.
Proof. intros (it & h' & E & _). vm_compute in E. discriminate E. Qed.

Lemma C10_witness :
  ∃ h1 h' new,
    clear 4 1 example_heap = Ok tt h1 ∧
    nodes h1 !! 13%positive = None ∧
    assign 4 1 2 example_heap = Ok tt h' ∧
    wf_list h' 1 10 11 new ∧
    new.*2 = [2; 3; 4]%Z.
Proof.
  destruct (proj2 C10_self_assignment_is_a_no_op example_heap 1%positive 2%positive
              10%positive 11%positive 20%positive 21%positive cells_A cells_B 4
              example_wf_A example_wf_B)
    as (h1 & h' & new & E1 & _ & Hgone & E & Hwf & Hnew & _).
  - done.
  - exact example_disjoint_A_B.
  - vm_compute. lia.
  - vm_compute. lia.
  - exists h1, h', new. refine (conj E1 (conj _ (conj E (conj Hwf Hnew)))).
    apply Hgone. unfold cells_A. rewrite !fmap_cons.
    apply list_elem_of_further, list_elem_of_here.
Defined.

(** Self-assignment on the example. *)
Example self_assign_example : assign 0 1 1 example_heap = Ok tt example_heap.
Proof. apply assign_self. Qed.

(** C2 (the code departs from the specification): on [A = [1,3,5]] both
    decrements of the iterator returned by [begin()] return normally
    and leave the iterator on the head sentinel (node 10); no
    [invalid_iterator] is raised. *)
Theorem C2_decrement_of_begin_does_not_throw :
  let it := Iter (Some 12%positive) (Some 1%positive) in
  let at_head := Iter (Some 10%positive) (Some 1%positive) in
  begin 1 example_heap = Ok it example_heap ∧
  it_pre_decr example_heap it = Ok tt at_head ∧
  it_post_decr example_heap it = Ok it at_head ∧
  it_pre_decr example_heap at_head = Throw invalid_iterator at_head.
Proof. by vm_compute. Qed.


(** * Further properties of the container

    ** Two states that hold the same list *)

Section Agreement.
Context {T : Type}.
Implicit Types (ns : gmap loc (node T)) (h : heap T) (ds : list (loc * T)).

(** The cells of a chain fix the contents of every node of the chain. *)
Lemma linked_agree ns ns' hd tl ds l :
  linked ns hd tl ds → linked ns' hd tl ds →
  l ∈ footprint hd tl ds → ns' !! l = ns !! l.
Proof.
  intros [_ H1] [_ H2] Hl. unfold footprint in Hl.
  apply list_elem_of_fmap in Hl as (c & -> & Hin).
  apply list_elem_of_split in Hin as (cs1 & cs2 & E). rewrite E in H1, H2.
  apply dll_lookup in H1, H2. by rewrite H1, H2.
Qed.

(** Two states in which the same list is laid out in the same way and
    which agree on everything else are the same state. *)
Lemma heap_eq h h' this hd tl ds k :
  is_list h this hd tl ds k → is_list h' this hd tl ds k →
  (∀ l, l ∉ footprint hd tl ds → nodes h' !! l = nodes h !! l) →
  (∀ x, x ≠ this → lists h' !! x = lists h !! x) →
  h' = h.
Proof.
  intros [Hr Hl] [Hr' Hl'] Hn Hx. destruct h as [ns ls], h' as [ns' ls']. simpl in *.
  f_equal; apply map_eq; intros i.
  - destruct (decide (i ∈ footprint hd tl ds)); [by eapply linked_agree|by apply Hn].
  - destruct (decide (i = this)) as [->|]; [by rewrite Hr, Hr'|by apply Hx].
Qed.

Lemma footprint_snoc hd tl ds (d : loc * T) l :
  l ∈ footprint hd tl (ds ++ [d]) ↔ l = d.1 ∨ l ∈ footprint hd tl ds.
Proof. rewrite (footprint_mid hd tl ds d [] l). by rewrite app_nil_r. Qed.

Lemma footprint_cons hd tl ds (d : loc * T) l :
  l ∈ footprint hd tl (d :: ds) ↔ l = d.1 ∨ l ∈ footprint hd tl ds.
Proof. apply (footprint_mid hd tl [] d ds l). Qed.

Lemma fresh_unallocated ns : ns !! fresh (dom ns) = None.
Proof. apply not_elem_of_dom, is_fresh. Qed.

End Agreement.

(** ** Access to the ends *)

Section Ends.
Context {T : Type}.
Implicit Types (ns : gmap loc (node T)) (h : heap T) (ds : list (loc * T)).

Lemma front_spec h this hd tl d ds k :
  is_list h this hd tl (d :: ds) k → k ≠ 0%Z → front this h = Ok d.2 h.
Proof.
  intros [Hr Hl] Hk. pose proof (linked_head _ _ _ _ Hl) as Hh.
  pose proof (linked_data _ hd tl [] d ds Hl) as Hd.
  unfold front. mstep. rewrite bind_throw_if_false by by apply Z.eqb_neq.
  do 2 mstep. simpl. unfold get_elem, get_val, load, bind, rd, ret, node_at.
  simpl in Hd. by rewrite Hd.
Qed.

Lemma back_spec h this hd tl d ds k :
  is_list h this hd tl (ds ++ [d]) k → k ≠ 0%Z → back this h = Ok d.2 h.
Proof.
  intros [Hr Hl] Hk. pose proof (linked_tail _ _ _ _ Hl) as Ht.
  pose proof (linked_data _ hd tl ds d [] Hl) as Hd.
  rewrite data_cells_app in Ht. cbn [data_cells map] in Ht. rewrite last_ptr_snoc in Ht.
  unfold back. mstep. rewrite bind_throw_if_false by by apply Z.eqb_neq.
  do 2 mstep. simpl. unfold get_elem, get_val, load, bind, rd, ret, node_at.
  by rewrite Hd.
Qed.

Lemma empty_throws h this r :
  lists h !! this = Some r → n r = 0%Z →
  front this h = Throw container_is_empty h ∧
  back this h = Throw container_is_empty h ∧
  pop_front this h = Throw container_is_empty h ∧
  pop_back this h = Throw container_is_empty h.
Proof.
  intros Hr Hn. unfold front, back, pop_front, pop_back.
  split_and!; mstep; rewrite Hn; by rewrite bind_throw_if_true.
Qed.

Lemma last_snoc ds d : last ds = Some d → ∃ ds', ds = ds' ++ [d].
Proof.
  destruct ds as [|d0 ds] using rev_ind; [done|].
  rewrite last_snoc. intros [= ->]. eauto.
Qed.

End Ends.


(** ** Insertion *)

Section Insertion.
Context {T : Type}.
Implicit Types (ns : gmap loc (node T)) (h : heap T) (ds : list (loc * T)).

Lemma insert_test_true this (pos : iterator) :
  negb (ptr_eqb (owner pos) (Some this)) || is_null (p pos) = true
  ↔ owner pos ≠ Some this ∨ p pos = None.
Proof. unfold ptr_eqb, is_null. repeat case_bool_decide; simpl; naive_solver. Qed.

Lemma insert_invalid_iff h this pos v h' :
  insert this pos v h = Throw invalid_iterator h'
  ↔ h' = h ∧ (owner pos ≠ Some this ∨ p pos = None).
Proof.
  unfold insert.
  destruct (negb (ptr_eqb (owner pos) (Some this)) || is_null (p pos)) eqn:Et.
  - rewrite bind_throw_if_true by done. apply insert_test_true in Et. naive_solver.
  - rewrite bind_throw_if_false by done.
    assert (¬ (owner pos ≠ Some this ∨ p pos = None)) as Hn.
    { rewrite <- insert_test_true. by rewrite Et. }
    split; [|tauto]. intros E. exfalso. revert E.
    assert (no_throw (S:=heap T) (cur <- new_node (Some v) ;; node_insert (p pos) cur ;;
              incr_n this ;; ret (Iter cur (Some this)))) as Hnt by effects.
    apply Hnt.
Qed.

(** X1: [insert(pos, value)] raises [invalid_iterator] exactly when
    [pos] is owned by another list or references no node, and then
    nothing has changed.  At a data node or at [end()] of a properly
    linked list it allocates one node, links it directly before [pos],
    counts it, and returns an iterator to it: that iterator
    dereferences to [value], one increment leads from it to [pos], the
    nodes that were in the list keep their places, and no node outside
    the list is touched. *)
Theorem X1_insert_contract (h : heap T) this pos v :
  (∀ h', insert this pos v h = Throw invalid_iterator h'
         ↔ h' = h ∧ (owner pos ≠ Some this ∨ p pos = None)) ∧
  (∀ hd tl ds1 ds2,
     wf_list h this hd tl (ds1 ++ ds2) →
     (Z.of_nat (length (ds1 ++ ds2)) + 1 < size_max)%Z →
     pos = Iter (first_ptr (data_cells ds2) (Some tl)) (Some this) →
     ∃ l h',
       insert this pos v h = Ok (Iter (Some l) (Some this)) h' ∧
       nodes h !! l = None ∧
       wf_list h' this hd tl (ds1 ++ (l, v) :: ds2) ∧
       size this h' = Ok (Z.of_nat (length (ds1 ++ ds2)) + 1)%Z h' ∧
       it_deref h' (Iter (Some l) (Some this)) = Ok v (Iter (Some l) (Some this)) ∧
       it_pre_incr h' (Iter (Some l) (Some this)) = Ok tt pos ∧
       (∀ l', l' ≠ l → l' ∉ footprint hd tl (ds1 ++ ds2) →
              nodes h' !! l' = nodes h !! l')).
Proof.
  split; [intros h'; apply insert_invalid_iff|].
  intros hd tl ds1 ds2 [Hil Hlt] Hb ->.
  destruct (insert_spec h this hd tl ds1 ds2 _ v Hil) as (h' & E & Hil' & Hf & _ & _).
  set (l := fresh (dom (nodes h))) in *.
  rewrite wrap_small in Hil' by lia.
  exists l, h'. split_and!; [done|apply fresh_unallocated| |by eapply size_spec| | |done].
  - split; [|rewrite length_app in *; simpl; lia].
    replace (Z.of_nat (length (ds1 ++ (l, v) :: ds2)))
      with (Z.of_nat (length (ds1 ++ ds2)) + 1)%Z; [done|].
    rewrite !length_app. simpl. lia.
  - apply (deref_data h' this hd tl ds1 (l, v) ds2 _ Hil').
  - apply (incr_data h' this hd tl ds1 (l, v) ds2 _ Hil').
Qed.

Lemma insert_at_head h this hd tl ds k v :
  is_list h this hd tl ds k →
  insert this (Iter (Some hd) (Some this)) v h = UB.
Proof.
  intros [Hr Hl]. pose proof (linked_head _ _ _ _ Hl) as Hh.
  assert (hd ≠ fresh (dom (nodes h))) as Hne.
  { intros E. apply (is_fresh (dom (nodes h))). rewrite <- E. by apply elem_of_dom_2 in Hh. }
  unfold insert. cbn [p owner]. rewrite bind_throw_if_false; cycle 1.
  { by rewrite ptr_eqb_refl. }
  mstep. unfold node_insert. do 4 mstep. by rewrite bind_assoc.
Qed.

(** X2: an iterator on the head sentinel passes the test of [insert]
    (it is owned by the list and references a node), and linking the
    new node before the sentinel then goes through the sentinel's null
    [prev] link: the behaviour is undefined.  Such an iterator is what
    a decrement of [begin()] yields on a list that is not empty. *)
Theorem X2_insert_before_head_sentinel_is_undefined (h : heap T) this hd tl ds k v :
  is_list h this hd tl ds k →
  insert this (Iter (Some hd) (Some this)) v h = UB ∧
  (ds ≠ [] →
   ∃ b, begin this h = Ok b h ∧ it_pre_decr h b = Ok tt (Iter (Some hd) (Some this))).
Proof.
  intros Hil. split; [by eapply insert_at_head|].
  destruct ds as [|d ds]; [done|]. intros _.
  destruct (decr_at_first h this hd tl d ds k Hil) as (Hb & Hd & _). eauto.
Qed.

(** X3: erasing the element that [insert] has just put in gives back
    the state before the insertion, and returns the position that was
    handed to [insert]. *)
Theorem X3_insert_erase_round_trip (h : heap T) this hd tl ds1 ds2 v :
  wf_list h this hd tl (ds1 ++ ds2) →
  (Z.of_nat (length (ds1 ++ ds2)) + 1 < size_max)%Z →
  let pos := Iter (first_ptr (data_cells ds2) (Some tl)) (Some this) in
  ∃ it h', insert this pos v h = Ok it h' ∧ erase this it h' = Ok pos h.
Proof.
  intros [Hil Hlt] Hb pos.
  destruct (insert_spec h this hd tl ds1 ds2 _ v Hil) as (h' & E1 & Hil' & Hf1 & _ & Hls1).
  set (l := fresh (dom (nodes h))) in *.
  rewrite wrap_small in Hil', Hls1 by lia.
  destruct (erase_spec h' this hd tl ds1 (l, v) ds2 _ Hil')
    as (h'' & E2 & Hil'' & Hn & Hf2 & _ & Hls2); [lia|].
  replace (Z.of_nat (length (ds1 ++ ds2)) + 1 - 1)%Z
    with (Z.of_nat (length (ds1 ++ ds2))) in Hil'', Hls2 by lia.
  rewrite wrap_small in Hil'', Hls2 by lia.
  exists (Iter (Some l) (Some this)), h'. split; [done|].
  simpl in E2. rewrite E2. f_equal. eapply heap_eq; [done|done| |].
  - intros l' Hl'. destruct (decide (l' = l)) as [->|Hne].
    + simpl in Hn. rewrite Hn. symmetry. apply fresh_unallocated.
    + rewrite Hf2; [by apply Hf1|]. rewrite footprint_mid. simpl. tauto.
  - intros x Hx. rewrite Hls2, Hls1. by rewrite !lookup_insert_ne.
Qed.

End Insertion.
(** ** The two ends of the list *)

Section EndsClaims.
Context {T : Type}.
Implicit Types (ns : gmap loc (node T)) (h : heap T) (ds : list (loc * T)).

(** X4: on a properly linked list [front()] returns the element of the
    first data node and [back()] that of the last one; on the empty
    list both raise [container_is_empty]; neither changes the state. *)
Theorem X4_front_back_contract (h : heap T) this hd tl ds :
  wf_list h this hd tl ds →
  front this h = match ds with
                 | [] => Throw container_is_empty h
                 | d :: _ => Ok d.2 h
                 end ∧
  back this h = match last ds with
                | None => Throw container_is_empty h
                | Some d => Ok d.2 h
                end.
Proof.
  intros [Hil Hlt]. split.
  - destruct ds as [|d ds].
    + by apply (empty_throws h this _ (proj1 Hil)).
    + by eapply front_spec.
  - destruct (last ds) as [d|] eqn:El.
    + apply last_snoc in El as [ds' ->]. eapply back_spec; [done|].
      rewrite length_app. simpl. lia.
    + apply last_None in El as ->. by apply (empty_throws h this _ (proj1 Hil)).
Qed.

(** X5: [push_back(value)] appends one newly allocated node, after
    which [back()] is [value]; [push_front(value)] puts one in front,
    after which [front()] is [value].  The nodes that were in the list
    keep their places and no node outside the list is touched. *)
Theorem X5_push_then_access (h : heap T) this hd tl ds v :
  wf_list h this hd tl ds →
  (Z.of_nat (length ds) + 1 < size_max)%Z →
  (∃ l h', push_back this v h = Ok tt h' ∧
           nodes h !! l = None ∧
           wf_list h' this hd tl (ds ++ [(l, v)]) ∧
           back this h' = Ok v h' ∧
           (∀ l', l' ≠ l → l' ∉ footprint hd tl ds → nodes h' !! l' = nodes h !! l')) ∧
  (∃ l h', push_front this v h = Ok tt h' ∧
           nodes h !! l = None ∧
           wf_list h' this hd tl ((l, v) :: ds) ∧
           front this h' = Ok v h' ∧
           (∀ l', l' ≠ l → l' ∉ footprint hd tl ds → nodes h' !! l' = nodes h !! l')).
Proof.
  intros [Hil Hlt] Hb. split.
  - destruct (push_back_spec h this hd tl ds _ v Hil) as (h' & E & Hil' & Hf & _).
    set (l := fresh (dom (nodes h))) in *. rewrite wrap_small in Hil' by lia.
    exists l, h'. split_and!; [done|apply fresh_unallocated| | |done].
    + split; rewrite length_app; simpl; [|lia].
      by replace (Z.of_nat (length ds + 1)) with (Z.of_nat (length ds) + 1)%Z by lia.
    + apply (back_spec h' this hd tl (l, v) ds _ Hil'). lia.
  - destruct (push_front_spec h this hd tl ds _ v Hil) as (h' & E & Hil' & Hf & _).
    set (l := fresh (dom (nodes h))) in *. rewrite wrap_small in Hil' by lia.
    exists l, h'. split_and!; [done|apply fresh_unallocated| | |done].
    + split; simpl; [|lia].
      by replace (Z.of_nat (S (length ds))) with (Z.of_nat (length ds) + 1)%Z by lia.
    + apply (front_spec h' this hd tl (l, v) ds _ Hil'). lia.
Qed.

(** X6: [pop_front()] and [pop_back()] raise [container_is_empty] on
    the empty list and change nothing; otherwise they unlink the first
    (the last) data node and deallocate it, the other nodes of the list
    keep their places and no node outside the list is touched. *)
Theorem X6_pop_contract (h : heap T) this hd tl ds :
  wf_list h this hd tl ds →
  (ds = [] → pop_front this h = Throw container_is_empty h ∧
             pop_back this h = Throw container_is_empty h) ∧
  (∀ d ds', ds = d :: ds' →
     ∃ h', pop_front this h = Ok tt h' ∧
           wf_list h' this hd tl ds' ∧
           nodes h' !! d.1 = None ∧
           (∀ l, l ∉ footprint hd tl ds → nodes h' !! l = nodes h !! l)) ∧
  (∀ ds' d, ds = ds' ++ [d] →
     ∃ h', pop_back this h = Ok tt h' ∧
           wf_list h' this hd tl ds' ∧
           nodes h' !! d.1 = None ∧
           (∀ l, l ∉ footprint hd tl ds → nodes h' !! l = nodes h !! l)).
Proof.
  intros [Hil Hlt]. split_and!.
  - intros ->. destruct (empty_throws h this _ (proj1 Hil)) as (_ & _ & H1 & H2); done.
  - intros d ds' ->. simpl in *.
    destruct (pop_front_spec h this hd tl ds' d _ Hil) as (h' & E & Hil' & Hn & Hf & _); [lia|].
    rewrite wrap_small in Hil' by lia.
    exists h'. split_and!; [done| |done|done].
    split; [|lia].
    by replace (Z.of_nat (length ds')) with (Z.of_nat (S (length ds')) - 1)%Z by lia.
  - intros ds' d ->. rewrite length_app in *. simpl in *.
    destruct (pop_back_spec h this hd tl ds' d _ Hil) as (h' & E & Hil' & Hn & Hf & _); [lia|].
    rewrite wrap_small in Hil' by lia.
    exists h'. split_and!; [done| |done|done].
    split; [|lia].
    by replace (Z.of_nat (length ds')) with (Z.of_nat (length ds' + 1) - 1)%Z by lia.
Qed.

(** X7: a push followed by the pop at the same end gives back the
    state before the push: the node is deallocated again, the links of
    its neighbours and the count are restored. *)
Theorem X7_push_pop_round_trip (h : heap T) this hd tl ds v :
  wf_list h this hd tl ds →
  (Z.of_nat (length ds) + 1 < size_max)%Z →
  (push_back this v ;; pop_back this) h = Ok tt h ∧
  (push_front this v ;; pop_front this) h = Ok tt h.
Proof.
  intros [Hil Hlt] Hb. split.
  - destruct (push_back_spec h this hd tl ds _ v Hil) as (h' & E1 & Hil' & Hf1 & _ & Hls1).
    set (l := fresh (dom (nodes h))) in *. rewrite wrap_small in Hil', Hls1 by lia.
    destruct (pop_back_spec h' this hd tl ds (l, v) _ Hil')
      as (h'' & E2 & Hil'' & Hn & Hf2 & _ & Hls2); [lia|].
    replace (Z.of_nat (length ds) + 1 - 1)%Z with (Z.of_nat (length ds)) in Hil'', Hls2 by lia.
    rewrite wrap_small in Hil'', Hls2 by lia.
    rewrite (bind_ok _ _ _ _ _ E1), E2. f_equal. eapply heap_eq; [done|done| |].
    + intros l' Hl'. destruct (decide (l' = l)) as [->|Hne].
      * simpl in Hn. rewrite Hn. symmetry. apply fresh_unallocated.
      * rewrite Hf2; [by apply Hf1|]. rewrite footprint_snoc. simpl. tauto.
    + intros x Hx. rewrite Hls2, Hls1. by rewrite !lookup_insert_ne.
  - destruct (push_front_spec h this hd tl ds _ v Hil) as (h' & E1 & Hil' & Hf1 & _ & Hls1).
    set (l := fresh (dom (nodes h))) in *. rewrite wrap_small in Hil', Hls1 by lia.
    destruct (pop_front_spec h' this hd tl ds (l, v) _ Hil')
      as (h'' & E2 & Hil'' & Hn & Hf2 & _ & Hls2); [lia|].
    replace (Z.of_nat (length ds) + 1 - 1)%Z with (Z.of_nat (length ds)) in Hil'', Hls2 by lia.
    rewrite wrap_small in Hil'', Hls2 by lia.
    rewrite (bind_ok _ _ _ _ _ E1), E2. f_equal. eapply heap_eq; [done|done| |].
    + intros l' Hl'. destruct (decide (l' = l)) as [->|Hne].
      * simpl in Hn. rewrite Hn. symmetry. apply fresh_unallocated.
      * rewrite Hf2; [by apply Hf1|]. rewrite footprint_cons. simpl. tauto.
    + intros x Hx. rewrite Hls2, Hls1. by rewrite !lookup_insert_ne.
Qed.

End EndsClaims.


(** ** Sequences of pushes and pops; construction and destruction *)

Section Lifecycle.
Context {T : Type}.
Implicit Types (ns : gmap loc (node T)) (h : heap T) (ds : list (loc * T)).

Lemma hands_over_trans (F F1 F' : list loc) ns ns1 ns' :
  hands_over F F1 ns ns1 → hands_over F1 F' ns1 ns' → hands_over F F' ns ns'.
Proof.
  intros (A1 & B1 & C1) (A2 & B2 & C2). split_and!; intros l H1 H2.
  - destruct (decide (l ∈ F1)).
    + rewrite C2 by done. symmetry. by apply B1.
    + rewrite A2 by done. by apply A1.
  - destruct (decide (l ∈ F1)).
    + by apply B1.
    + rewrite <- A1 by done. by apply B2.
  - destruct (decide (l ∈ F1)).
    + by apply C2.
    + rewrite A2 by done. by apply C1.
Qed.

Lemma run_ops_model this hd tl (os : list (pp_op T)) : ∀ h ds,
  wf_list h this hd tl ds →
  (Z.of_nat (length ds + pushes os) < size_max)%Z →
  match deque_run ds.*2 os with
  | Some ys =>
      ∃ h' ds', run_ops this os h = Ok tt h'
                ∧ wf_list h' this hd tl ds'
                ∧ ds'.*2 = ys
                ∧ hands_over (footprint hd tl ds) (footprint hd tl ds') (nodes h) (nodes h')
                ∧ (∀ x, x ≠ this → lists h' !! x = lists h !! x)
  | None => ∃ h', run_ops this os h = Throw container_is_empty h'
  end.
Proof.
  induction os as [|o os IH]; intros h ds Hwf Hb.
  { simpl. exists h, ds. by split_and!. }
  pose proof Hwf as [Hil Hlt].
  destruct o as [v|v| |]; cbn [deque_run deque_step run_ops run_op]; simpl in Hb.
  - destruct (push_back_spec h this hd tl ds _ v Hil) as (h1 & E & Hil1 & Hf & _ & Hls).
    set (l := fresh (dom (nodes h))) in *. rewrite wrap_small in Hil1 by lia.
    assert (wf_list h1 this hd tl (ds ++ [(l, v)])) as Hwf1.
    { split; rewrite length_app; simpl; [|lia].
      by replace (Z.of_nat (length ds + 1)) with (Z.of_nat (length ds) + 1)%Z by lia. }
    specialize (IH h1 _ Hwf1). rewrite fmap_app in IH. simpl in IH.
    rewrite length_app in IH. simpl in IH.
    rewrite (bind_ok _ _ _ _ _ E).
    destruct (deque_run (ds.*2 ++ [v]) os) as [ys|].
    + destruct IH as (h' & ds' & E' & Hwf' & Hys & Hho & Hx); [lia|].
      exists h', ds'. split_and!; [done|done|done| |].
      * eapply hands_over_trans; [|exact Hho]. split_and!; intros l' H1 H2.
        -- apply Hf; [|done]. intros ->. apply H2. apply footprint_snoc. by left.
        -- apply footprint_snoc in H2 as [->|]; [apply fresh_unallocated|done].
        -- exfalso. apply H2. apply footprint_snoc. by right.
      * intros x Hx'. rewrite Hx by done. rewrite Hls. by rewrite lookup_insert_ne.
    + apply IH. lia.
  - destruct (push_front_spec h this hd tl ds _ v Hil) as (h1 & E & Hil1 & Hf & _ & Hls).
    set (l := fresh (dom (nodes h))) in *. rewrite wrap_small in Hil1 by lia.
    assert (wf_list h1 this hd tl ((l, v) :: ds)) as Hwf1.
    { split; simpl; [|lia].
      by replace (Z.of_nat (S (length ds))) with (Z.of_nat (length ds) + 1)%Z by lia. }
    specialize (IH h1 _ Hwf1). rewrite fmap_cons in IH. cbn [snd length] in IH.
    rewrite (bind_ok _ _ _ _ _ E).
    destruct (deque_run (v :: ds.*2) os) as [ys|].
    + destruct IH as (h' & ds' & E' & Hwf' & Hys & Hho & Hx); [lia|].
      exists h', ds'. split_and!; [done|done|done| |].
      * eapply hands_over_trans; [|exact Hho]. split_and!; intros l' H1 H2.
        -- apply Hf; [|done]. intros ->. apply H2. apply footprint_cons. by left.
        -- apply footprint_cons in H2 as [->|]; [apply fresh_unallocated|done].
        -- exfalso. apply H2. apply footprint_cons. by right.
      * intros x Hx'. rewrite Hx by done. rewrite Hls. by rewrite lookup_insert_ne.
    + apply IH. lia.
  - destruct ds as [|d0 ds0 _] using rev_ind.
    { simpl. exists h. destruct (empty_throws h this _ (proj1 Hil)) as (_ & _ & _ & E); [done|].
      unfold bind. by rewrite E. }
    rewrite fmap_app. simpl.
    replace (match ds0.*2 ++ [d0.2] with [] => None | _ :: _ => Some (removelast (ds0.*2 ++ [d0.2])) end)
      with (Some ds0.*2); cycle 1.
    { rewrite removelast_last. by destruct (ds0.*2). }
    rewrite length_app in *. simpl in *.
    destruct (pop_back_spec h this hd tl ds0 d0 _ Hil) as (h1 & E & Hil1 & Hn & Hf & _ & Hls); [lia|].
    rewrite wrap_small in Hil1 by lia.
    assert (wf_list h1 this hd tl ds0) as Hwf1.
    { split; [|lia].
      by replace (Z.of_nat (length ds0)) with (Z.of_nat (length ds0 + 1) - 1)%Z by lia. }
    specialize (IH h1 _ Hwf1). rewrite (bind_ok _ _ _ _ _ E).
    destruct (deque_run ds0.*2 os) as [ys|].
    + destruct IH as (h' & ds' & E' & Hwf' & Hys & Hho & Hx); [lia|].
      exists h', ds'. split_and!; [done|done|done| |].
      * eapply hands_over_trans; [|exact Hho]. split_and!; intros l' H1 H2.
        -- by apply Hf.
        -- exfalso. apply H1. apply footprint_snoc. by right.
        -- apply footprint_snoc in H1 as [->|]; done.
      * intros x Hx'. rewrite Hx by done. rewrite Hls. by rewrite lookup_insert_ne.
    + apply IH. lia.
  - destruct ds as [|d0 ds0].
    { simpl. exists h. destruct (empty_throws h this _ (proj1 Hil)) as (_ & _ & E & _); [done|].
      unfold bind. by rewrite E. }
    rewrite fmap_cons. cbn [deque_run deque_step]. cbn [length] in *.
    destruct (pop_front_spec h this hd tl ds0 d0 _ Hil) as (h1 & E & Hil1 & Hn & Hf & _ & Hls); [lia|].
    rewrite wrap_small in Hil1 by lia.
    assert (wf_list h1 this hd tl ds0) as Hwf1.
    { split; [|lia].
      by replace (Z.of_nat (length ds0)) with (Z.of_nat (S (length ds0)) - 1)%Z by lia. }
    specialize (IH h1 _ Hwf1). rewrite (bind_ok _ _ _ _ _ E).
    destruct (deque_run ds0.*2 os) as [ys|].
    + destruct IH as (h' & ds' & E' & Hwf' & Hys & Hho & Hx); [lia|].
      exists h', ds'. split_and!; [done|done|done| |].
      * eapply hands_over_trans; [|exact Hho]. split_and!; intros l' H1 H2.
        -- by apply Hf.
        -- exfalso. apply H1. apply footprint_cons. by right.
        -- apply footprint_cons in H1 as [->|]; done.
      * intros x Hx'. rewrite Hx by done. rewrite Hls. by rewrite lookup_insert_ne.
    + apply IH. lia.
Qed.

Lemma list_dtor_spec h this hd tl ds k fuel :
  is_list h this hd tl ds k → length ds < fuel →
  ∃ h', list_dtor fuel this h = Ok tt h'
        ∧ (∀ l, l ∈ footprint hd tl ds → nodes h' !! l = None)
        ∧ (∀ l, l ∉ footprint hd tl ds → nodes h' !! l = nodes h !! l)
        ∧ lists h' = delete this (lists h).
Proof.
  intros Hil Hf.
  destruct (clear_spec h this hd tl ds k fuel Hil Hf) as (h1 & E & [[Hr Hl] _] & Hfreed & Hframe & Hls).
  pose proof (linked_head _ _ _ _ Hl) as Hh. pose proof (linked_tail _ _ _ _ Hl) as Ht.
  pose proof (linked_head_ne_tail _ _ _ _ Hl) as Hne. simpl in Hh, Ht.
  destruct h1 as [ns1 ls1]. simpl in *.
  eexists. split.
  { unfold list_dtor. rewrite (bind_ok _ _ _ _ _ E). do 6 mstep.
    unfold end_lifetime. reflexivity. }
  simpl. split_and!.
  - intros l Hl'. rewrite footprint_eq in Hl'.
    apply elem_of_cons in Hl' as [->|Hl'].
    { rewrite lookup_delete_ne by done. apply lookup_delete_eq. }
    apply elem_of_app in Hl' as [Hl'|Hl'].
    + destruct (decide (l = tl)) as [->|]; [apply lookup_delete_eq|].
      rewrite lookup_delete_ne by done.
      destruct (decide (l = hd)) as [->|]; [apply lookup_delete_eq|].
      rewrite lookup_delete_ne by done. by apply Hfreed.
    + apply list_elem_of_singleton in Hl' as ->. apply lookup_delete_eq.
  - intros l Hl'. rewrite footprint_eq in Hl'.
    rewrite !lookup_delete_ne; [apply Hframe; by rewrite footprint_eq|..].
    + intros ->. apply Hl'. apply list_elem_of_here.
    + intros ->. apply Hl'. apply list_elem_of_further, elem_of_app. right.
      apply list_elem_of_here.
  - rewrite Hls. apply map_eq. intros x. destruct (decide (x = this)) as [->|].
    + by rewrite !lookup_delete_eq.
    + by rewrite !lookup_delete_ne, !lookup_insert_ne.
Qed.

End Lifecycle.


(** ** The list as a double-ended queue, and its lifetime *)

Section LifecycleClaims.
Context {T : Type}.
Implicit Types (ns : gmap loc (node T)) (h : heap T) (ds : list (loc * T)).

(** X8: a sequence of [push_back] / [push_front] / [pop_back] /
    [pop_front] calls acts on the elements of the list as on a
    double-ended queue: a push adds its argument at its end, a pop
    removes the element at its end, and the first pop that finds the
    list empty raises [container_is_empty] and ends the run. *)
Theorem X8_pushes_and_pops_act_as_a_deque (h : heap T) this hd tl ds os :
  wf_list h this hd tl ds →
  (Z.of_nat (length ds + pushes os) < size_max)%Z →
  match deque_run ds.*2 os with
  | Some ys =>
      ∃ h' ds', run_ops this os h = Ok tt h' ∧ wf_list h' this hd tl ds' ∧ ds'.*2 = ys
  | None => ∃ h', run_ops this os h = Throw container_is_empty h'
  end.
Proof.
  intros Hwf Hb. pose proof (run_ops_model this hd tl os h ds Hwf Hb) as H.
  destruct (deque_run ds.*2 os); [|done].
  destruct H as (h' & ds' & ? & ? & ? & _). by exists h', ds'.
Qed.

(** X9: constructing a list where there was none, running any
    sequence of pushes and pops that raises no exception, and
    destroying the list gives back the state before the construction:
    every node that was allocated has been deallocated, and nothing
    else has been touched. *)
Theorem X9_construct_use_destroy_leaves_no_trace (h : heap T) this os ys fuel :
  lists h !! this = None →
  deque_run [] os = Some ys →
  (Z.of_nat (pushes os) < size_max)%Z →
  length ys < fuel →
  (list_ctor this ;; run_ops this os ;; list_dtor fuel this) h = Ok tt h.
Proof.
  intros Hnone Hrun Hb Hfuel.
  destruct (list_ctor_spec h this) as (h1 & E1 & Hil1 & Hf1 & Hls1).
  set (hd := fresh (dom (nodes h))) in *.
  set (tl := fresh ({[hd]} ∪ dom (nodes h))) in *.
  assert (wf_list h1 this hd tl []) as Hwf1 by (split; [done|by vm_compute]).
  pose proof (run_ops_model this hd tl os h1 [] Hwf1) as H2.
  change (([] : list (loc * T)).*2) with (@nil T) in H2. rewrite Hrun in H2.
  destruct H2 as (h2 & ds' & E2 & Hwf2 & Hys & (HA & HB & HC) & Hls2); [simpl; lia|].
  destruct (list_dtor_spec h2 this hd tl ds' _ fuel (proj1 Hwf2))
    as (h3 & E3 & Hfreed & Hf3 & Hls3).
  { rewrite <- (length_fmap snd), Hys. done. }
  rewrite (bind_ok _ _ _ _ _ E1), (bind_ok _ _ _ _ _ E2), E3. f_equal.
  assert (nodes h !! hd = None) as Hhd by apply fresh_unallocated.
  assert (nodes h !! tl = None) as Htl.
  { apply not_elem_of_dom. pose proof (is_fresh ({[hd]} ∪ dom (nodes h))) as Hfr.
    fold tl in Hfr. set_solver. }
  destruct h as [ns ls], h3 as [ns3 ls3]. simpl in *. f_equal; apply map_eq; intros i.
  - destruct (decide (i ∈ footprint hd tl ds')) as [Hin|Hout].
    + rewrite Hfreed by done. symmetry.
      destruct (decide (i = hd)) as [->|]; [done|].
      destruct (decide (i = tl)) as [->|]; [done|].
      rewrite <- Hf1 by done. apply HB; [|done].
      rewrite footprint_eq. simpl. rewrite !elem_of_cons, elem_of_nil. tauto.
    + assert (i ≠ hd) as Hi1.
      { intros ->. apply Hout. rewrite footprint_eq. apply list_elem_of_here. }
      assert (i ≠ tl) as Hi2.
      { intros ->. apply Hout. rewrite footprint_eq.
        apply list_elem_of_further, elem_of_app. right. apply list_elem_of_here. }
      rewrite Hf3 by done. rewrite HA; [by apply Hf1| |done].
      rewrite footprint_eq. simpl. rewrite !elem_of_cons, elem_of_nil. tauto.
  - rewrite Hls3. destruct (decide (i = this)) as [->|].
    + by rewrite lookup_delete_eq.
    + rewrite lookup_delete_ne by done. rewrite Hls2 by done. rewrite Hls1.
      by rewrite lookup_insert_ne.
Qed.

(** X10: the destructor deallocates every node of the list, both
    sentinels included, ends the list object, and touches no other node
    and no other list. *)
Theorem X10_destructor_releases_every_node (h : heap T) this hd tl ds fuel :
  wf_list h this hd tl ds →
  length ds < fuel →
  ∃ h', list_dtor fuel this h = Ok tt h' ∧
        (∀ l, l ∈ footprint hd tl ds → nodes h' !! l = None) ∧
        (∀ l, l ∉ footprint hd tl ds → nodes h' !! l = nodes h !! l) ∧
        lists h' !! this = None ∧
        (∀ x, x ≠ this → lists h' !! x = lists h !! x).
Proof.
  intros [Hil _] Hf.
  destruct (list_dtor_spec h this hd tl ds _ fuel Hil Hf) as (h' & E & H1 & H2 & Hls).
  exists h'. split_and!; [done|done|done|..].
  - rewrite Hls. apply lookup_delete_eq.
  - intros x Hx. rewrite Hls. by apply lookup_delete_ne.
Qed.

(** X11: [clear()] deallocates every data node, keeps both sentinels
    and links them to each other, and sets the count to zero, so that
    the list is a properly linked empty list again; no node outside the
    list is touched, and clearing an empty list changes nothing. *)
Theorem X11_clear_empties_the_list (h : heap T) this hd tl ds fuel :
  wf_list h this hd tl ds →
  length ds < fuel →
  ∃ h', clear fuel this h = Ok tt h' ∧
        wf_list h' this hd tl [] ∧
        size this h' = Ok 0%Z h' ∧
        empty this h' = Ok true h' ∧
        (∀ l, l ∈ ds.*1 → nodes h' !! l = None) ∧
        (∀ l, l ∉ footprint hd tl ds → nodes h' !! l = nodes h !! l) ∧
        clear fuel this h' = Ok tt h'.
Proof.
  intros [Hil _] Hf.
  destruct (clear_spec h this hd tl ds _ fuel Hil Hf) as (h' & E & Hwf & Hfreed & Hframe & _).
  exists h'. split_and!; [done|done|..|done|done|].
  - by eapply size_spec, Hwf.
  - by eapply (empty_spec h' this hd tl [] 0), Hwf.
  - destruct (clear_spec h' this hd tl [] _ fuel (proj1 Hwf)) as (h2 & E2 & Hwf2 & _ & Hf2 & Hls2);
      [simpl; lia|].
    rewrite E2. f_equal. eapply heap_eq; [apply Hwf|apply Hwf2|done|].
    intros x Hx. rewrite Hls2. by apply lookup_insert_ne.
Qed.

End LifecycleClaims.


(** ** The copy constructor *)

Section CopyCtor.
Context {T : Type}.
Implicit Types (ns : gmap loc (node T)) (h : heap T) (ds : list (loc * T)).

(** X12: the copy constructor builds a list of its own nodes that
    holds the elements of the source in the same order; the two lists
    share no node, and the source is left as it was. *)
Theorem X12_copy_constructor_makes_a_deep_copy (h : heap T) this other hdO tlO os fuel :
  wf_list h other hdO tlO os →
  this ≠ other →
  length os < fuel →
  ∃ h' hd tl new,
    list_copy_ctor fuel this other h = Ok tt h' ∧
    wf_list h' this hd tl new ∧
    new.*2 = os.*2 ∧
    wf_list h' other hdO tlO os ∧
    (∀ l, l ∈ footprint hd tl new → l ∈ footprint hdO tlO os → False) ∧
    (∀ l, l ∈ footprint hdO tlO os → nodes h' !! l = nodes h !! l).
Proof.
  intros [[HrO HlO] HltO] Hne Hf.
  destruct (list_ctor_spec h this) as (h1 & E1 & Hil1 & Hf1 & Hls1).
  set (hd := fresh (dom (nodes h))) in *.
  set (tl := fresh ({[hd]} ∪ dom (nodes h))) in *.
  assert (∀ l, l ∈ footprint hdO tlO os → l ≠ hd ∧ l ≠ tl) as Hfr.
  { intros l Hl. eapply linked_dom in Hl; [|done].
    pose proof (is_fresh (dom (nodes h))) as F1.
    pose proof (is_fresh ({[hd]} ∪ dom (nodes h))) as F2. fold hd in F1. fold tl in F2.
    split; intros ->; set_solver. }
  assert (is_list h1 other hdO tlO os (Z.of_nat (length os))) as HilO1.
  { split; [rewrite Hls1; by rewrite lookup_insert_ne|].
    eapply linked_frame; [|done]. intros l Hl. apply Hfr in Hl as [? ?]. by apply Hf1. }
  assert (copying h1 this other hd tl hdO tlO [] ([] ++ os) 0 (Z.of_nat (length os))) as Hc.
  { split; [done|]. split; [done|]. split; [done|].
    intros l Hl HlO'. apply Hfr in HlO' as [? ?]. rewrite footprint_eq in Hl. simpl in Hl.
    rewrite !elem_of_cons, elem_of_nil in Hl. tauto. }
  destruct (copy_loop_spec this other hd tl hdO tlO _ fuel os [] h1 [] 0 Hc Hf)
    as (h' & new & E2 & (Hil' & HilO' & _ & Hdisj) & Hnew).
  simpl in *.
  assert (length new = length os) as Hlen.
  { by rewrite <- (length_fmap snd new), Hnew, length_fmap. }
  exists h', hd, tl, new. split_and!; [|..|done|].
  - unfold list_copy_ctor. rewrite (bind_ok _ _ _ _ _ E1).
    unfold cbegin. rewrite (bind_ok _ _ _ _ _ (begin_spec _ _ _ _ _ _ HilO1)). done.
  - rewrite wrap_small in Hil' by lia. split; [by rewrite Hlen|lia].
  - done.
  - done.
  - intros l Hl. rewrite (linked_agree _ _ _ _ _ l (proj2 HilO1) (proj2 HilO') Hl).
    apply Hfr in Hl as [? ?]. by apply Hf1.
Qed.

End CopyCtor.


(** ** Walking the list with iterators *)

Section Walk.
Context {T : Type}.
Implicit Types (ns : gmap loc (node T)) (h : heap T) (ds : list (loc * T)).

Lemma elem_of_mid {A} (l1 l2 : list A) x : x ∈ l1 ++ x :: l2.
Proof. apply elem_of_app. right. apply list_elem_of_here. Qed.

Lemma post_incr_data h this hd tl ds1 d ds2 k :
  is_list h this hd tl (ds1 ++ d :: ds2) k →
  it_post_incr h (Iter (Some d.1) (Some this))
  = Ok (Iter (Some d.1) (Some this))
       (Iter (first_ptr (data_cells ds2) (Some tl)) (Some this)).
Proof.
  intros [Hr Hl].
  pose proof (linked_data _ _ _ _ _ _ Hl) as Hd.
  assert (d.1 ≠ tl) by (eapply linked_data_ne_tail; [done|]; apply elem_of_mid).
  it_eval Hr; try congruence. by rewrite Hd.
Qed.

Lemma decr_data h this hd tl ds1 d ds2 k :
  is_list h this hd tl (ds1 ++ d :: ds2) k →
  let it := Iter (Some d.1) (Some this) in
  let prv := Iter (last_ptr (Some hd) (data_cells ds1)) (Some this) in
  it_pre_decr h it = Ok tt prv ∧ it_post_decr h it = Ok it prv.
Proof.
  intros [Hr Hl] it prv.
  pose proof (linked_data _ _ _ _ _ _ Hl) as Hd.
  assert (d.1 ≠ hd) by (eapply linked_data_ne_head; [done|]; apply elem_of_mid).
  assert (d.1 ≠ tl) by (eapply linked_data_ne_tail; [done|]; apply elem_of_mid).
  subst it prv. split; it_eval Hr; try congruence; by rewrite Hd.
Qed.

Lemma decr_at_end h this hd tl ds k :
  is_list h this hd tl ds k →
  let e := Iter (Some tl) (Some this) in
  if (k =? 0)%Z then
    it_pre_decr h e = Throw invalid_iterator e ∧
    it_post_decr h e = Throw invalid_iterator e
  else
    let lst := Iter (last_ptr (Some hd) (data_cells ds)) (Some this) in
    it_pre_decr h e = Ok tt lst ∧ it_post_decr h e = Ok e lst.
Proof.
  intros [Hr Hl] e.
  pose proof (linked_tail _ _ _ _ Hl) as Ht.
  pose proof (linked_head_ne_tail _ _ _ _ Hl).
  subst e. destruct (k =? 0)%Z eqn:Ek; cbv zeta; split; it_eval Hr; try congruence;
    rewrite ?Ek; try done; by rewrite Ht.
Qed.

Lemma at_head h this hd tl ds k :
  is_list h this hd tl ds k →
  let it := Iter (Some hd) (Some this) in
  let b := Iter (first_ptr (data_cells ds) (Some tl)) (Some this) in
  it_deref h it = Throw invalid_iterator it ∧
  it_arrow h it = Throw invalid_iterator it ∧
  it_pre_decr h it = Throw invalid_iterator it ∧
  it_post_decr h it = Throw invalid_iterator it ∧
  it_pre_incr h it = Ok tt b ∧
  it_post_incr h it = Ok it b.
Proof.
  intros [Hr Hl] it b.
  pose proof (linked_head _ _ _ _ Hl) as Hh.
  pose proof (linked_head_ne_tail _ _ _ _ Hl).
  subst it b. split_and!; it_eval Hr; try congruence; by rewrite Hh.
Qed.

End Walk.


(** ** Iterators: main theorems *)

Section WalkClaims.
Context {T : Type}.
Implicit Types (ns : gmap loc (node T)) (h : heap T) (ds : list (loc * T)).

(** X13: on a properly linked list an iterator at a data node is moved
    by an increment to the next data node, or to [end()] from the last
    one, and by a decrement to the previous data node, or onto the head
    sentinel from the first one; the postfix forms return the iterator
    as it was.  Decrementing [end()] leads to the last data node, and
    raises [invalid_iterator] when the list is empty. *)
Theorem X13_iterators_walk_the_list (h : heap T) this hd tl ds :
  wf_list h this hd tl ds →
  (∀ ds1 d ds2, ds = ds1 ++ d :: ds2 →
     let it := Iter (Some d.1) (Some this) in
     let nxt := Iter (first_ptr (data_cells ds2) (Some tl)) (Some this) in
     let prv := Iter (last_ptr (Some hd) (data_cells ds1)) (Some this) in
     it_pre_incr h it = Ok tt nxt ∧ it_post_incr h it = Ok it nxt ∧
     it_pre_decr h it = Ok tt prv ∧ it_post_decr h it = Ok it prv) ∧
  (let e := Iter (Some tl) (Some this) in
   end_ this h = Ok e h ∧
   match last ds with
   | Some d =>
       it_pre_decr h e = Ok tt (Iter (Some d.1) (Some this)) ∧
       it_post_decr h e = Ok e (Iter (Some d.1) (Some this))
   | None =>
       it_pre_decr h e = Throw invalid_iterator e ∧
       it_post_decr h e = Throw invalid_iterator e
   end).
Proof.
  intros [Hil Hlt]. split.
  - intros ds1 d ds2 ->. cbv zeta.
    destruct (decr_data h this hd tl ds1 d ds2 _ Hil) as [H1 H2].
    split_and!; [by eapply incr_data|by eapply post_incr_data|done|done].
  - cbv zeta. split; [apply (end_spec h this _ (proj1 Hil))|].
    pose proof (decr_at_end h this hd tl ds _ Hil) as H. cbv zeta in H.
    destruct (last ds) as [d|] eqn:El.
    + apply last_snoc in El as [ds' ->].
      rewrite data_cells_app in H. cbn [data_cells map] in H. rewrite last_ptr_snoc in H.
      rewrite length_app in H. simpl in H.
      destruct (Z.of_nat (length ds' + 1) =? 0)%Z eqn:E; [apply Z.eqb_eq in E; lia|done].
    + apply last_None in El as ->. done.
Qed.

(** X14: on a properly linked list, incrementing an iterator at a data
    node and then decrementing it leads back to the same node; so does
    decrementing and then incrementing, from a data node or from
    [end()] of a list that is not empty. *)
Theorem X14_increment_and_decrement_undo_each_other (h : heap T) this hd tl ds :
  wf_list h this hd tl ds →
  (∀ d, d ∈ ds →
     let it := Iter (Some d.1) (Some this) in
     (it_pre_incr h ;; it_pre_decr h) it = Ok tt it ∧
     (it_pre_decr h ;; it_pre_incr h) it = Ok tt it) ∧
  (ds ≠ [] →
     let e := Iter (Some tl) (Some this) in
     (it_pre_decr h ;; it_pre_incr h) e = Ok tt e).
Proof.
  intros [Hil Hlt]. split.
  - intros d Hin. apply list_elem_of_split in Hin as (ds1 & ds2 & ->). cbv zeta. split.
    + rewrite (bind_ok _ _ _ _ _ (incr_data h this hd tl ds1 d ds2 _ Hil)).
      destruct ds2 as [|d2 ds2]; simpl.
      * pose proof (decr_at_end h this hd tl _ _ Hil) as H. cbv zeta in H.
        rewrite data_cells_app in H. cbn [data_cells map] in H. rewrite last_ptr_snoc in H.
        rewrite length_app in H. simpl in H.
        destruct (Z.of_nat (length ds1 + 1) =? 0)%Z eqn:E; [apply Z.eqb_eq in E; lia|apply H].
      * replace (ds1 ++ d :: d2 :: ds2) with ((ds1 ++ [d]) ++ d2 :: ds2) in Hil
          by by rewrite <- app_assoc.
        destruct (decr_data h this hd tl (ds1 ++ [d]) d2 ds2 _ Hil) as [H _].
        cbv zeta in H. rewrite data_cells_app in H. cbn [data_cells map] in H.
        by rewrite last_ptr_snoc in H.
    + destruct (decr_data h this hd tl ds1 d ds2 _ Hil) as [H _]. cbv zeta in H.
      rewrite (bind_ok _ _ _ _ _ H).
      destruct ds1 as [|d0 ds0 _] using rev_ind; simpl.
      * destruct (at_head h this hd tl _ _ Hil) as (_ & _ & _ & _ & H' & _). apply H'.
      * rewrite data_cells_app. cbn [data_cells map]. rewrite last_ptr_snoc. simpl.
        rewrite <- app_assoc in Hil. apply (incr_data h this hd tl ds0 d0 _ _ Hil).
  - intros Hne. cbv zeta. destruct ds as [|d0 ds0 _] using rev_ind; [done|].
    pose proof (decr_at_end h this hd tl _ _ Hil) as H. cbv zeta in H.
    rewrite data_cells_app in H. cbn [data_cells map] in H. rewrite last_ptr_snoc in H.
    rewrite length_app in H. simpl in H.
    destruct (Z.of_nat (length ds0 + 1) =? 0)%Z eqn:E; [apply Z.eqb_eq in E; lia|]. destruct H as [H _].
    rewrite (bind_ok _ _ _ _ _ H). apply (incr_data h this hd tl ds0 d0 [] _ Hil).
Qed.

(** X15: an iterator on the head sentinel, the position before
    [begin()], cannot be dereferenced and cannot be decremented: [*],
    [->], [--] in both forms raise [invalid_iterator] and leave it
    where it is.  An increment leads from it to [begin()]. *)
Theorem X15_position_before_begin (h : heap T) this hd tl ds k :
  is_list h this hd tl ds k →
  let it := Iter (Some hd) (Some this) in
  ∃ b, begin this h = Ok b h ∧
       it_deref h it = Throw invalid_iterator it ∧
       it_arrow h it = Throw invalid_iterator it ∧
       it_pre_decr h it = Throw invalid_iterator it ∧
       it_post_decr h it = Throw invalid_iterator it ∧
       it_pre_incr h it = Ok tt b ∧
       it_post_incr h it = Ok it b.
Proof.
  intros Hil it. eexists. split; [by eapply begin_spec|].
  apply (at_head h this hd tl ds k Hil).
Qed.

(** X16: two iterators compare equal exactly when they reference the
    same node and have the same owner, [!=] is the negation of [==],
    and on a properly linked list [begin() == end()] holds exactly when
    the list is empty, which is what [empty()] returns. *)
Theorem X16_begin_meets_end_iff_empty (h : heap T) this hd tl ds :
  wf_list h this hd tl ds →
  (∀ a c : iterator, (it_eq a c = true ↔ a = c) ∧ it_neq a c = negb (it_eq a c)) ∧
  ∃ b e, begin this h = Ok b h ∧ end_ this h = Ok e h ∧
         cbegin this h = Ok (const_iterator_of b) h ∧
         (it_eq b e = true ↔ ds = []) ∧
         empty this h = Ok (it_eq b e) h.
Proof.
  intros [Hil Hlt]. split.
  { intros [pa oa] [pc oc]. split; [|done]. unfold it_eq, ptr_eqb. simpl.
    rewrite andb_true_iff, !bool_decide_eq_true. naive_solver. }
  assert (it_eq (Iter (first_ptr (data_cells ds) (Some tl)) (Some this))
                (Iter (Some tl) (Some this)) = true ↔ ds = []) as Hiff.
  { unfold it_eq, ptr_eqb. simpl. rewrite andb_true_iff, !bool_decide_eq_true.
    destruct ds as [|d ds]; simpl; [naive_solver|].
    split; [|done]. intros [[= E] _]. exfalso.
    by apply (linked_data_ne_tail _ _ _ _ d (proj2 Hil)); [apply list_elem_of_here|]. }
  eexists _, _. split_and!.
  - by eapply begin_spec.
  - apply (end_spec h this _ (proj1 Hil)).
  - unfold cbegin, const_iterator_of. simpl. by eapply begin_spec.
  - done.
  - rewrite (empty_spec h this hd tl ds _ Hil). f_equal.
    destruct (it_eq _ _).
    + by rewrite (proj1 Hiff eq_refl).
    + apply Z.eqb_neq. intros E0.
      assert (ds = []) as Hds by (destruct ds; [done|simpl in E0; lia]).
      by apply Hiff in Hds.
Qed.

(** X17: inserting or erasing an element leaves every other element
    where it is: an iterator to another data node dereferences to the
    same element before and after the call.  The node of an erased
    element is gone, and dereferencing an iterator that still
    references it reads deallocated memory. *)
Theorem X17_other_iterators_survive_insert_and_erase (h : heap T) this hd tl ds1 ds2 :
  (∀ v, wf_list h this hd tl (ds1 ++ ds2) →
     ∃ it h',
       insert this (Iter (first_ptr (data_cells ds2) (Some tl)) (Some this)) v h = Ok it h' ∧
       ∀ e, e ∈ ds1 ++ ds2 →
         let ie := Iter (Some e.1) (Some this) in
         it_deref h ie = Ok e.2 ie ∧ it_deref h' ie = Ok e.2 ie) ∧
  (∀ d, wf_list h this hd tl (ds1 ++ d :: ds2) →
     ∃ it h',
       erase this (Iter (Some d.1) (Some this)) h = Ok it h' ∧
       it_deref h' (Iter (Some d.1) (Some this)) = UB ∧
       ∀ e, e ∈ ds1 ++ ds2 →
         let ie := Iter (Some e.1) (Some this) in
         it_deref h ie = Ok e.2 ie ∧ it_deref h' ie = Ok e.2 ie).
Proof.
  split.
  - intros v [Hil _].
    destruct (insert_spec h this hd tl ds1 ds2 _ v Hil) as (h' & E & Hil' & _).
    eexists _, h'. split; [done|]. intros e He. cbv zeta.
    pose proof He as He'. apply list_elem_of_split in He as (es1 & es2 & Hes).
    rewrite Hes in Hil. split; [by eapply deref_data|].
    assert (e ∈ ds1 ++ (fresh (dom (nodes h)), v) :: ds2) as Hin.
    { apply elem_of_app in He' as [?|?]; apply elem_of_app; [by left|right].
      by apply list_elem_of_further. }
    apply list_elem_of_split in Hin as (fs1 & fs2 & Hfs). rewrite Hfs in Hil'.
    by eapply deref_data.
  - intros d [Hil Hlt].
    destruct (erase_spec h this hd tl ds1 d ds2 _ Hil) as (h' & E & Hil' & Hn & _).
    { rewrite length_app. simpl. lia. }
    eexists _, h'. split; [done|]. split.
    + destruct Hil as [_ Hl]. destruct Hil' as [Hr' _].
      assert (d.1 ≠ hd) by (eapply linked_data_ne_head; [done|]; apply elem_of_mid).
      assert (d.1 ≠ tl) by (eapply linked_data_ne_tail; [done|]; apply elem_of_mid).
      it_eval Hr'; try congruence. by rewrite Hn.
    + intros e He. cbv zeta.
      pose proof He as He'. apply list_elem_of_split in He as (es1 & es2 & Hes).
      rewrite Hes in Hil'. split; [|by eapply deref_data].
      assert (e ∈ ds1 ++ d :: ds2) as Hin.
      { apply elem_of_app in He' as [?|?]; apply elem_of_app; [by left|right].
        by apply list_elem_of_further. }
      apply list_elem_of_split in Hin as (fs1 & fs2 & Hfs). rewrite Hfs in Hil.
      by eapply deref_data.
Qed.

End WalkClaims.


(** ** [unique] twice; [reverse] and a saved [end()] *)

Section UniqueTwice.
Context {T : Type}.
Variable eqb : T → T → bool.
Implicit Types (h : heap T) (ds : list (loc * T)).

Lemma uniq_after_idem x ds :
  uniq_after eqb x (uniq_after eqb x ds) = uniq_after eqb x ds.
Proof.
  revert x. induction ds as [|d ds IH]; intros x; simpl; [done|].
  destruct (eqb x d.2) eqn:E; [apply IH|]. simpl. rewrite E. f_equal. apply IH.
Qed.

Lemma uniq_idem ds : uniq eqb (uniq eqb ds) = uniq eqb ds.
Proof. destruct ds as [|d ds]; simpl; [done|]. f_equal. apply uniq_after_idem. Qed.

Lemma uniq_after_length x ds : length (uniq_after eqb x ds) ≤ length ds.
Proof.
  revert x. induction ds as [|d ds IH]; intros x; simpl; [done|].
  destruct (eqb x d.2); simpl; [specialize (IH x)|specialize (IH d.2)]; lia.
Qed.

Lemma uniq_length ds : length (uniq eqb ds) ≤ length ds.
Proof.
  destruct ds as [|d ds]; simpl; [done|]. pose proof (uniq_after_length d.2 ds). lia.
Qed.

(** X18: a second [unique()] finds nothing to remove: it returns the
    state the first one has left. *)
Theorem X18_unique_is_idempotent (h : heap T) this hd tl ds fuel :
  wf_list h this hd tl ds →
  length ds < fuel →
  ∃ h', unique eqb fuel this h = Ok tt h' ∧ unique eqb fuel this h' = Ok tt h'.
Proof.
  intros Hwf Hf.
  destruct (unique_spec eqb this hd tl h ds fuel Hwf Hf) as (h' & E & Hwf' & _).
  destruct (unique_spec eqb this hd tl h' _ fuel Hwf') as (h2 & E2 & Hwf2 & Hfr & _ & Hls).
  { pose proof (uniq_length ds). lia. }
  exists h'. split; [done|]. rewrite E2. f_equal.
  rewrite uniq_idem in Hwf2.
  eapply heap_eq; [apply Hwf'|apply Hwf2|done|done].
Qed.

End UniqueTwice.

Section ReverseEnd.
Context {T : Type}.
Implicit Types (h : heap T) (ds : list (loc * T)).

(** X19: [reverse()] exchanges the roles of the two sentinels.  An
    iterator obtained from [end()] before the call references, after
    it, the head sentinel: it is no longer what [end()] returns, it
    cannot be decremented or dereferenced, an increment leads from it
    to [begin()], and handing it to [insert] is undefined. *)
Theorem X19_end_saved_before_reverse (h : heap T) this hd tl ds fuel v :
  wf_list h this hd tl ds →
  length ds + 2 < fuel →
  ∃ e h',
    end_ this h = Ok e h ∧
    reverse fuel this h = Ok tt h' ∧
    end_ this h' = Ok (Iter (Some hd) (Some this)) h' ∧
    e ≠ Iter (Some hd) (Some this) ∧
    it_pre_decr h' e = Throw invalid_iterator e ∧
    it_deref h' e = Throw invalid_iterator e ∧
    (∃ b, begin this h' = Ok b h' ∧ it_pre_incr h' e = Ok tt b) ∧
    insert this e v h' = UB.
Proof.
  intros [Hil _] Hf.
  destruct (reverse_spec h this hd tl ds _ fuel Hil Hf) as (h' & E & Hil' & _).
  destruct (at_head h' this tl hd (rev ds) _ Hil') as (H1 & _ & H3 & _ & H5 & _).
  exists (Iter (Some tl) (Some this)), h'. split_and!.
  - apply (end_spec h this _ (proj1 Hil)).
  - done.
  - apply (end_spec h' this _ (proj1 Hil')).
  - intros [= E']. by apply (linked_head_ne_tail _ _ _ _ (proj2 Hil)).
  - done.
  - done.
  - eexists. split; [by eapply begin_spec|done].
  - by eapply insert_at_head.
Qed.

End ReverseEnd.


(** ** [sort] *)

Section SortLoops.
Context {T : Type}.
Variable ltb : T → T → bool.
Implicit Types (ns : gmap loc (node T)) (ls : gmap loc list_rep) (h : heap T).
Implicit Types (ds : list (loc * T)).

Lemma bind_rd_some {S A B} (a : A) (k : A → M S B) s : bind (rd (Some a)) k s = k a s.
Proof. done. Qed.

(** The loop that fills the array walks the data nodes in order. *)
Lemma sort_collect_spec h this hd tl k0 k : ∀ rest seen acc fuel,
  is_list h this hd tl (seen ++ rest) k0 →
  (Z.of_nat (length acc + length rest) ≤ k)%Z →
  length rest < fuel →
  sort_collect fuel this k (first_ptr (data_cells rest) (Some tl)) acc h
  = Ok (acc ++ (Some <$> rest.*1)) h.
Proof.
  induction rest as [|d rest IH]; intros seen acc fuel Hil Hk Hf;
    (destruct fuel as [|fuel]; [lia|]); pose proof Hil as [Hr Hl]; simpl.
  - mstep. rewrite ptr_eqb_refl. by rewrite app_nil_r.
  - pose proof (linked_data _ _ _ _ _ _ Hl) as Hd.
    assert (d.1 ≠ tl) by (eapply linked_data_ne_tail; [done|]; apply elem_of_mid).
    mstep. rewrite ptr_eqb_ne by congruence.
    replace (Z.of_nat (length acc) <? k)%Z with true
      by (symmetry; apply Z.ltb_lt; simpl in Hk; lia).
    rewrite bind_rd_some. mstep.
    replace (seen ++ d :: rest) with ((seen ++ [d]) ++ rest) in Hil by by rewrite <- app_assoc.
    rewrite (IH (seen ++ [d]) (acc ++ [Some d.1]) fuel Hil).
    + by rewrite <- app_assoc.
    + rewrite length_app. simpl in *. lia.
    + simpl in Hf. lia.
Qed.

(** The comparison can dereference every node of the array. *)
Lemma sort_check_spec h (cs : list (loc * T)) :
  (∀ d, d ∈ cs → ∃ a b, nodes h !! d.1 = Some (Node a b (Some d.2))) →
  sort_check (Some <$> cs.*1) h = Ok tt h.
Proof.
  induction cs as [|c cs IH]; intros Hv; [done|].
  destruct (Hv c) as (a & b & E); [apply list_elem_of_here|].
  rewrite !fmap_cons. cbn [sort_check].
  rewrite (bind_get_elem h (Some c.1) _ c.2 _ E eq_refl).
  apply IH. intros d Hd. apply Hv. by apply list_elem_of_further.
Qed.

Lemma last_cons_default {A} (c2 : A) cs : last (c2 :: cs) = Some (default c2 (last cs)).
Proof.
  revert c2. induction cs as [|c3 cs IH]; intros c2; [done|].
  rewrite last_cons_cons. rewrite (IH c3). done.
Qed.

Lemma last_default_cons {A} (c c2 : A) cs :
  default c (last (c2 :: cs)) = default c2 (last cs).
Proof. by rewrite last_cons_default. Qed.

Lemma last_default_elem {A} (c : A) cs : default c (last cs) ∈ c :: cs.
Proof.
  destruct (last cs) as [m|] eqn:E; simpl; [|apply list_elem_of_here].
  apply list_elem_of_further. apply last_Some in E as [l' ->]. apply elem_of_mid.
Qed.

(** The relinking loop makes a doubly-linked segment of the array; the
    [prev] link of the first node and the [next] link of the last one
    are not written. *)
Lemma sort_relink_spec ls : ∀ cs (c : loc * T) ns,
  NoDup (c :: cs).*1 →
  (∀ d, d ∈ c :: cs → ∃ a b, ns !! d.1 = Some (Node a b (Some d.2))) →
  ∃ ns', sort_relink (Some <$> (c :: cs).*1) (Heap ns ls) = Ok tt (Heap ns' ls)
         ∧ (∀ pv nx, prev <$> ns !! c.1 = Some pv →
                     next <$> ns !! (default c (last cs)).1 = Some nx →
                     dll ns' pv (data_cells (c :: cs)) nx)
         ∧ (∀ l, l ∉ (c :: cs).*1 → ns' !! l = ns !! l)
         ∧ (∀ l, val <$> ns' !! l = val <$> ns !! l).
Proof.
  induction cs as [|c2 cs IH]; intros c ns Hnd Hv.
  - exists ns. split_and!; [done| |done|done].
    intros pv nx Hp Hn. simpl in *.
    destruct (Hv c) as (a & b & E); [apply list_elem_of_here|].
    rewrite E in Hp, Hn. simpl in *. by simplify_eq.
  - destruct (Hv c) as (a & b & E); [apply list_elem_of_here|].
    destruct (Hv c2) as (a2 & b2 & E2); [apply list_elem_of_further, list_elem_of_here|].
    rewrite !fmap_cons in Hnd. apply NoDup_cons in Hnd as [Hc Hnd].
    assert (c.1 ≠ c2.1) as Hne by (intros Heq; apply Hc; rewrite Heq; apply list_elem_of_here).
    set (ns2 := <[c2.1 := Node (Some c.1) b2 (Some c2.2)]>
                  (<[c.1 := Node a (Some c2.1) (Some c.2)]> ns)).
    assert (∀ l, l ≠ c.1 → next <$> ns2 !! l = next <$> ns !! l) as Hnext.
    { intros l Hl. unfold ns2. destruct (decide (l = c2.1)) as [->|].
      - rewrite lookup_insert_eq, E2. done.
      - by rewrite !lookup_insert_ne. }
    assert (∀ l, val <$> ns2 !! l = val <$> ns !! l) as Hval.
    { intros l. unfold ns2. destruct (decide (l = c2.1)) as [->|].
      - rewrite lookup_insert_eq, E2. done.
      - rewrite lookup_insert_ne by done. destruct (decide (l = c.1)) as [->|].
        + rewrite lookup_insert_eq, E. done.
        + by rewrite lookup_insert_ne. }
    destruct (IH c2 ns2) as (ns' & Er & Hdll & Hfr & Hv').
    { by rewrite fmap_cons. }
    { intros d Hd. apply elem_of_cons in Hd as [->|Hd].
      - unfold ns2. rewrite lookup_insert_eq. eauto.
      - assert (d.1 ≠ c2.1).
        { intros Heq. apply NoDup_cons in Hnd as [Hc2 _]. apply Hc2. rewrite <- Heq.
          apply list_elem_of_fmap. eauto. }
        assert (d.1 ≠ c.1).
        { intros Heq. apply Hc. rewrite <- Heq. apply list_elem_of_further.
          apply list_elem_of_fmap. eauto. }
        unfold ns2. rewrite !lookup_insert_ne by done. apply Hv.
        by do 2 apply list_elem_of_further. }
    exists ns'. split_and!.
    + rewrite !fmap_cons. cbn [sort_relink]. do 2 mstep. rewrite <- Er.
      by rewrite !fmap_cons.
    + intros pv nx Hp Hn. rewrite E in Hp. simpl in Hp. simplify_eq.
      cbn [data_cells map dll fst snd]. split.
      * rewrite Hfr by (by rewrite fmap_cons). unfold ns2.
        rewrite lookup_insert_ne by done. rewrite lookup_insert_eq. done.
      * apply Hdll.
        -- unfold ns2. by rewrite lookup_insert_eq.
        -- rewrite last_default_cons in Hn. rewrite Hnext; [done|].
           intros Heq. apply Hc. rewrite <- Heq, <- fmap_cons.
           apply list_elem_of_fmap. exists (default c2 (last cs)).
           split; [done|apply last_default_elem].
    + intros l Hl. rewrite !fmap_cons in Hl.
      assert (l ≠ c.1) by (intros Heq; apply Hl; rewrite Heq; apply list_elem_of_here).
      assert (l ≠ c2.1).
      { intros Heq. apply Hl. rewrite Heq. apply list_elem_of_further, list_elem_of_here. }
      rewrite Hfr.
      * unfold ns2. by rewrite !lookup_insert_ne.
      * rewrite fmap_cons. intros Hin. apply Hl. by apply list_elem_of_further.
    + intros l. by rewrite Hv'.
Qed.

End SortLoops.


Section SortSpec.
Context {T : Type}.
Variable ltb : T → T → bool.
Variable sort_alg : (ptr → ptr → bool) → list ptr → list ptr.
Implicit Types (ns : gmap loc (node T)) (ls : gmap loc list_rep) (h : heap T).
Implicit Types (ds : list (loc * T)).

Lemma bind_get {S B} (k : S → M S B) s : bind get k s = k s s.
Proof. done. Qed.

Lemma linked_has_val ns hd tl ds d :
  linked ns hd tl ds → d ∈ ds → ∃ a b, ns !! d.1 = Some (Node a b (Some d.2)).
Proof.
  intros Hl Hd. apply list_elem_of_split in Hd as (ds1 & ds2 & ->).
  apply linked_data in Hl. eauto.
Qed.

Lemma sort_spec h this hd tl ds fuel c cs :
  wf_list h this hd tl ds →
  2 ≤ length ds →
  length ds < fuel →
  sort_alg (node_less ltb h) (Some <$> ds.*1) = Some <$> (c :: cs).*1 →
  c :: cs ≡ₚ ds →
  ∃ h', sort ltb sort_alg fuel this h = Ok tt h'
        ∧ wf_list h' this hd tl (c :: cs)
        ∧ (∀ l, l ∉ footprint hd tl ds → nodes h' !! l = nodes h !! l)
        ∧ (∀ l, val <$> nodes h' !! l = val <$> nodes h !! l)
        ∧ lists h' = lists h.
Proof.
  intros [[Hr Hl] Hlt] H2 Hf Hout Hperm.
  pose proof (linked_head _ _ _ _ Hl) as Hh.
  pose proof (linked_tail _ _ _ _ Hl) as Ht.
  pose proof (linked_head_ne_tail _ _ _ _ Hl) as Hht.
  pose proof (Permutation_length Hperm) as Hlen.
  assert (∀ d, d ∈ c :: cs → ∃ a b, nodes h !! d.1 = Some (Node a b (Some d.2))) as Hv.
  { intros d Hd. rewrite Hperm in Hd. by eapply linked_has_val. }
  assert (∀ d, d ∈ c :: cs → d.1 ≠ hd ∧ d.1 ≠ tl) as Hdne.
  { intros d Hd. rewrite Hperm in Hd. split.
    - by eapply linked_data_ne_head. - by eapply linked_data_ne_tail. }
  assert (NoDup (c :: cs).*1) as Hnd.
  { rewrite Hperm. by eapply linked_nodup_data. }
  pose proof (last_cons_default c cs) as Hlast. set (m := default c (last cs)) in *.
  pose proof Hlast as Hsplit. apply last_Some in Hsplit as [cs0 Hsplit].
  assert (m ∈ c :: cs) as Hm by apply last_default_elem.
  destruct (Hdne c) as [Hc1 Hc2]; [apply list_elem_of_here|].
  destruct (Hdne m Hm) as [Hm1 Hm2].
  destruct (Hv c) as (a & b & Ec); [apply list_elem_of_here|].
  destruct h as [ns ls]. cbn [nodes lists] in *.
  set (ns2 := <[c.1 := Node (Some hd) b (Some c.2)]>
                (<[hd := Node None (Some c.1) None]> ns)).
  destruct (sort_relink_spec ls cs c ns2 Hnd) as (ns' & Er & Hdll & Hfr & Hval).
  { intros d Hd. destruct (decide (d.1 = c.1)) as [Heq|Hne].
    - assert (d = c) as -> by (eapply NoDup_fst_inj; [exact Hnd|done|apply list_elem_of_here|done]).
      unfold ns2. rewrite lookup_insert_eq. eauto.
    - destruct (Hdne d Hd) as [? _]. unfold ns2. rewrite !lookup_insert_ne by done. by apply Hv. }
  assert (∃ nx0, next <$> ns2 !! m.1 = Some nx0) as [nx0 Hnx0].
  { destruct (decide (m.1 = c.1)) as [Heq|Hne]; unfold ns2.
    - rewrite Heq, lookup_insert_eq. eauto.
    - rewrite !lookup_insert_ne by done. destruct (Hv m Hm) as (? & ? & ->). eauto. }
  specialize (Hdll (Some hd) nx0). rewrite Hsplit in Hdll.
  assert (dll ns' (Some hd) (data_cells (cs0 ++ [m])) nx0) as Hd'.
  { apply Hdll; [|done]. unfold ns2. by rewrite lookup_insert_eq. }
  clear Hdll. rewrite data_cells_app in Hd'. cbn [data_cells map] in Hd'.
  pose proof (dll_lookup _ _ _ _ [] _ Hd') as Em. cbn [fst snd first_ptr] in Em.
  assert (ns' !! tl = Some (Node (last_ptr (Some hd) (data_cells ds)) None None)) as Et'.
  { rewrite Hfr; [unfold ns2; by rewrite !lookup_insert_ne|].
    intros Hin. apply list_elem_of_fmap in Hin as (d & Heq & Hd).
    destruct (Hdne d Hd) as [_ ?]. congruence. }
  assert (m.1 ∉ (data_cells cs0).*1) as Hm0.
  { rewrite data_cells_fst. rewrite Hsplit, fmap_app in Hnd.
    apply NoDup_app in Hnd as (_ & Hd & _). intros Hin. apply (Hd _ Hin).
    apply list_elem_of_here. }
  pose proof (dll_set_last ns' (Some hd) (data_cells cs0) (m.1, Some m.2) nx0 (Some tl) Hm0 Hd')
    as Hd3.
  set (ns3 := <[m.1 := Node (last_ptr (Some hd) (data_cells cs0)) (Some tl) (Some m.2)]> ns') in *.
  assert (ns3 !! tl = Some (Node (last_ptr (Some hd) (data_cells ds)) None None)) as Et3.
  { unfold ns3. by rewrite lookup_insert_ne. }
  set (ns4 := <[tl := Node (Some m.1) None None]> ns3).
  exists (Heap ns4 ls). split_and!; cbn [nodes lists].
  - unfold sort. mstep.
    replace (Z.of_nat (length ds) <=? 1)%Z with false by (symmetry; apply Z.leb_gt; lia).
    do 2 mstep.
    rewrite (bind_ok _ _ _ _ _
               (sort_collect_spec (Heap ns ls) this hd tl _ (Z.of_nat (length ds)) ds [] [] fuel
                  (conj Hr Hl) ltac:(simpl; lia) Hf)).
    cbn [app]. rewrite !length_fmap, Z.eqb_refl, bind_rd_some.
    rewrite (bind_ok _ _ _ _ _ (sort_check_spec (Heap ns ls) ds
               (λ d Hd, linked_has_val ns hd tl ds d Hl Hd))).
    rewrite bind_get. cbv zeta. rewrite Hout.
    change ((Some <$> (c :: cs).*1) !! 0) with (Some (Some c.1)).
    rewrite bind_rd_some. do 4 mstep. fold ns2.
    rewrite (bind_ok _ _ _ _ _ Er).
    rewrite fmap_last, fmap_last, Hlast. cbn [fmap option_fmap option_map].
    rewrite bind_rd_some. do 3 mstep. fold ns3. mfinal. done.
  - split; [|by rewrite Hlen]. split; [by rewrite Hlen|]. split.
    + change (NoDup (footprint hd tl (c :: cs))). rewrite footprint_eq, Hperm, <- footprint_eq.
      apply Hl.
    + cbn [nodes]. unfold chain. cbn [dll fst snd]. split.
      * rewrite first_ptr_app. cbn [data_cells map first_ptr fst].
        unfold ns4, ns3. rewrite !lookup_insert_ne by done.
        rewrite Hfr; [unfold ns2; rewrite lookup_insert_ne by done; by rewrite lookup_insert_eq|].
        intros Hin. apply list_elem_of_fmap in Hin as (d & Heq & Hd).
        destruct (Hdne d Hd) as [? _]. congruence.
      * apply dll_app. split.
        -- rewrite Hsplit, data_cells_app. cbn [data_cells map first_ptr fst].
           eapply dll_frame; [|exact Hd3]. intros l Hin. unfold ns4.
           rewrite lookup_insert_ne; [done|]. intros <-.
           assert ((data_cells cs0 ++ [(m.1, Some m.2)]).*1 = (c :: cs).*1) as Hfst.
           { rewrite Hsplit, !fmap_app, data_cells_fst. done. }
           rewrite Hfst in Hin.
           apply list_elem_of_fmap in Hin as (d & Heq & Hd).
           destruct (Hdne d Hd) as [_ ?]. congruence.
        -- cbn [dll fst snd first_ptr]. split; [|done].
           rewrite Hsplit, data_cells_app. cbn [data_cells map]. rewrite last_ptr_snoc.
           unfold ns4. by rewrite lookup_insert_eq.
  - intros l Hl'. rewrite footprint_eq in Hl'.
    assert (l ≠ hd) by (intros ->; apply Hl'; apply list_elem_of_here).
    assert (l ≠ tl).
    { intros ->. apply Hl'. apply list_elem_of_further, elem_of_app. right.
      apply list_elem_of_here. }
    assert (l ∉ (c :: cs).*1) as Hnot.
    { rewrite Hperm. intros Hin. apply Hl'. apply list_elem_of_further, elem_of_app. by left. }
    assert (l ≠ m.1).
    { intros ->. apply Hnot. apply list_elem_of_fmap. eauto. }
    assert (l ≠ c.1).
    { intros ->. apply Hnot. apply list_elem_of_here. }
    unfold ns4, ns3. rewrite !lookup_insert_ne by done. rewrite Hfr by done.
    unfold ns2. by rewrite !lookup_insert_ne.
  - intros l. unfold ns4, ns3.
    destruct (decide (l = tl)) as [->|].
    { rewrite lookup_insert_eq, Ht. done. }
    rewrite lookup_insert_ne by done.
    destruct (decide (l = m.1)) as [->|].
    { rewrite lookup_insert_eq. destruct (Hv m Hm) as (? & ? & ->). done. }
    rewrite lookup_insert_ne by done. rewrite Hval. unfold ns2.
    destruct (decide (l = c.1)) as [->|].
    { rewrite lookup_insert_eq, Ec. done. }
    rewrite lookup_insert_ne by done.
    destruct (decide (l = hd)) as [->|].
    { rewrite lookup_insert_eq, Hh. done. }
    by rewrite lookup_insert_ne.
  - done.
Qed.

End SortSpec.


Section SortClaim.
Context {T : Type}.
Variable ltb : T → T → bool.
Variable sort_alg : (ptr → ptr → bool) → list ptr → list ptr.
Implicit Types (ns : gmap loc (node T)) (ls : gmap loc list_rep) (h : heap T).
Implicit Types (ds : list (loc * T)).

Lemma Permutation_fmap_inv {A B} (f : A → B) (l : list A) (k : list B) :
  k ≡ₚ f <$> l → ∃ l', k = f <$> l' ∧ l' ≡ₚ l.
Proof.
  intros Hp. apply (Permutation_map_inv f l) in Hp as (l' & -> & Hp). by exists l'.
Qed.

Lemma sort_small h this r fuel :
  lists h !! this = Some r → (n r ≤ 1)%Z → sort ltb sort_alg fuel this h = Ok tt h.
Proof.
  intros Hr Hn. unfold sort. mstep.
  by replace (n r <=? 1)%Z with true by (symmetry; by apply Z.leb_le).
Qed.

(** X20: [sort()] hands the addresses of the data nodes, in list
    order, to [sjtu::sort] and links the nodes again in the order in
    which they come back.  If what comes back is a rearrangement of
    the array, the list is properly linked again and consists of the
    same nodes with the same elements: nothing is allocated,
    deallocated or copied, and no node outside the list is touched.  If
    moreover the array comes back ascending under the comparison it was
    given, the elements of the list are ascending under [operator<].
    A list of at most one element is left as it is. *)
Theorem X20_sort_relinks_in_the_order_of_the_sorted_array (h : heap T) this hd tl ds fuel :
  wf_list h this hd tl ds →
  length ds < fuel →
  let out := sort_alg (node_less ltb h) (Some <$> ds.*1) in
  out ≡ₚ Some <$> ds.*1 →
  ∃ h' ds',
    sort ltb sort_alg fuel this h = Ok tt h' ∧
    wf_list h' this hd tl ds' ∧
    ds' ≡ₚ ds ∧
    (2 ≤ length ds → Some <$> ds'.*1 = out) ∧
    (length ds ≤ 1 → h' = h) ∧
    (∀ l, l ∉ footprint hd tl ds → nodes h' !! l = nodes h !! l) ∧
    (∀ l, val <$> nodes h' !! l = val <$> nodes h !! l) ∧
    ((∀ i j a b, i < j → out !! i = Some a → out !! j = Some b →
                 node_less ltb h b a = false) →
     ascending ltb ds'.*2).
Proof.
  intros Hwf Hf out Hperm.
  destruct (decide (length ds ≤ 1)) as [Hle|Hgt].
  - exists h, ds. split_and!; try done.
    + apply (sort_small h this _ fuel (proj1 (proj1 Hwf))). simpl. lia.
    + intros; lia.
    + intros _ i j x y Hij Hi Hj. apply lookup_lt_Some in Hj.
      rewrite length_fmap in Hj. lia.
  - rewrite <- list_fmap_compose in Hperm.
    apply Permutation_fmap_inv in Hperm as (ds' & Hout & Hp).
    rewrite list_fmap_compose in Hout.
    destruct ds' as [|c cs].
    { apply Permutation_length in Hp. simpl in Hp. lia. }
    destruct (sort_spec ltb sort_alg h this hd tl ds fuel c cs Hwf) as (h' & E & Hwf' & Hfr & Hval & _);
      [lia|done|done|done|].
    exists h', (c :: cs). split_and!; try done.
    intros Hsorted i j x y Hij Hi Hj.
    apply list_lookup_fmap_Some_1 in Hi as (di & -> & Hi).
    apply list_lookup_fmap_Some_1 in Hj as (dj & -> & Hj).
    specialize (Hsorted i j (Some di.1) (Some dj.1) Hij).
    fold out in Hout. rewrite Hout, !list_lookup_fmap, Hi, Hj in Hsorted.
    specialize (Hsorted eq_refl eq_refl).
    destruct (linked_has_val (nodes h) hd tl ds di) as (? & ? & Ei);
      [apply Hwf|rewrite <- Hp; by eapply list_elem_of_lookup_2|].
    destruct (linked_has_val (nodes h) hd tl ds dj) as (? & ? & Ej);
      [apply Hwf|rewrite <- Hp; by eapply list_elem_of_lookup_2|].
    unfold node_less, node_at in Hsorted. by rewrite Ei, Ej in Hsorted.
Qed.

End SortClaim.


(** ** [merge] without the ordering assumption *)

Section MergeAny.
Context {T : Type}.
Variable ltb : T → T → bool.
Implicit Types (h : heap T) (ds : list (loc * T)).

(** The whole of [merge], with what it leaves alone. *)
Lemma merge_frame this other hdA tlA hdB tlB h as_ bs fuel :
  wf_list h this hdA tlA as_ →
  wf_list h other hdB tlB bs →
  this ≠ other →
  (∀ l, l ∈ footprint hdA tlA as_ → l ∈ footprint hdB tlB bs → False) →
  length as_ + length bs < fuel →
  ∃ h',
    merge ltb fuel this other h = Ok tt h' ∧
    is_list h' this hdA tlA (merge_cells ltb as_ bs)
      (wrap (Z.of_nat (length as_) + Z.of_nat (length bs))) ∧
    wf_list h' other hdB tlB [] ∧
    (∀ l, l ∉ footprint hdA tlA as_ → l ∉ footprint hdB tlB bs →
          nodes h' !! l = nodes h !! l) ∧
    (∀ x, x ≠ this → x ≠ other → lists h' !! x = lists h !! x).
Proof.
  intros [HA HbA] HB Hne Hdisj Hf.
  pose proof HA as [HrA HlA]. pose proof HB as [[HrB HlB] HbB].
  rewrite <- (wrap_small (Z.of_nat (length as_))) in HA by lia.
  destruct (merge_loop_spec ltb this other hdA tlA hdB tlB fuel as_ bs [] h _ HA HB Hne Hdisj Hf)
    as (h1 & r & bs' & E1 & HA1 & HB1 & Hm & Hdisj1 & Hf1 & Hg1).
  simpl in HA1, Hdisj1, Hf1.
  assert (length r + length bs' = length as_ + length bs) as Hlen.
  { apply (f_equal length) in Hm. by rewrite length_app, merge_cells_length in Hm. }
  destruct (merge_rest_spec this other hdA tlA hdB tlB fuel bs' r h1 _ HA1 HB1 Hne Hdisj1)
    as (h2 & E2 & HA2 & HB2 & Hf2 & Hg2); [lia|].
  rewrite Hm in HA2.
  pose proof HB2 as [[HrB2 HlB2] _].
  pose proof (linked_head _ _ _ _ HlB2) as Hhd2.
  pose proof (linked_tail _ _ _ _ HlB2) as Htl2.
  pose proof (linked_head _ _ _ _ HlA) as HhdA.
  pose proof (linked_head _ _ _ _ HlB) as HhdB.
  pose proof (linked_head_ne_tail _ _ _ _ HlB2).
  assert (∀ d, d ∈ r ++ bs' → d ∈ as_ ∨ d ∈ bs) as Hsrc.
  { intros d Hd. rewrite Hm, merge_cells_perm in Hd. by apply elem_of_app in Hd. }
  assert (∀ l, l ∉ footprint hdA tlA as_ → l ∉ footprint hdB tlB bs →
               (l ∉ footprint hdA tlA r) ∧ (l ∉ footprint hdB tlB bs')) as Hout.
  { intros l HlA' HlB'.
    assert (∀ d, d ∈ r ++ bs' → l ≠ d.1) as Hd.
    { intros d Hd ->. destruct (Hsrc d Hd) as [Hin|Hin].
      - apply HlA'. apply data_in_footprint, list_elem_of_fmap. eauto.
      - apply HlB'. apply data_in_footprint, list_elem_of_fmap. eauto. }
    rewrite !footprint_eq in *. rewrite !elem_of_cons, !elem_of_app, !list_elem_of_singleton in *.
    split; intros [ -> | [Hin | -> ] ]; try tauto;
      apply list_elem_of_fmap in Hin as (d & -> & Hin);
      apply (Hd d); [apply elem_of_app; by left|done|apply elem_of_app; by right|done]. }
  exists h2. split_and!.
  - unfold merge. rewrite bool_decide_eq_false_2 by done.
    do 4 mstep. rewrite (bind_ok _ _ _ _ _ E1). rewrite (bind_ok _ _ _ _ _ E2).
    do 5 mstep. mfinal. unfold ret. f_equal.
    destruct h2 as [ns2 ls2]. simpl in *. f_equal.
    rewrite (insert_id ns2 hdB) by done. by rewrite insert_id.
  - replace (Z.of_nat (length as_) + Z.of_nat (length bs))%Z
      with (Z.of_nat (length as_) + Z.of_nat (length bs) - Z.of_nat (length bs')
            + Z.of_nat (length bs'))%Z by lia.
    done.
  - done.
  - intros l HlA' HlB'. destruct (Hout l HlA' HlB') as [? ?].
    rewrite Hf2 by done. by apply Hf1.
  - intros x ? ?. by rewrite Hg2, Hg1.
Qed.

(** X21: [merge] does not rely on its arguments being ascending to
    keep the lists intact: for any two properly linked lists on
    disjoint nodes it returns, leaves the other list empty, and leaves
    in this list every node of both, each list's nodes in their former
    relative order, with the count the sum of the two.  Merging an
    empty list in changes nothing of this list's sequence; merging
    into an empty list moves the other list's sequence over as it
    is.  Nothing else is touched: every node that belongs to neither
    of the two lists is as it was (none is written, allocated or
    deallocated), and so is every other list object. *)
Theorem X21_merge_keeps_every_node (h : heap T) A B hdA tlA hdB tlB
    (as_ bs : list (loc * T)) fuel :
  A ≠ B →
  wf_list h A hdA tlA as_ →
  wf_list h B hdB tlB bs →
  (∀ l, l ∈ footprint hdA tlA as_ → l ∈ footprint hdB tlB bs → False) →
  length as_ + length bs < fuel →
  (Z.of_nat (length as_ + length bs) < size_max)%Z →
  ∃ h' zs,
    merge ltb fuel A B h = Ok tt h' ∧
    wf_list h' A hdA tlA zs ∧
    wf_list h' B hdB tlB [] ∧
    zs ≡ₚ as_ ++ bs ∧
    filter (λ c, c.1 ∈ as_.*1) zs = as_ ∧
    filter (λ c, c.1 ∈ bs.*1) zs = bs ∧
    (bs = [] → zs = as_) ∧
    (as_ = [] → zs = bs) ∧
    (∀ l, l ∉ footprint hdA tlA as_ → l ∉ footprint hdB tlB bs →
          nodes h' !! l = nodes h !! l) ∧
    (∀ x, x ≠ A → x ≠ B → lists h' !! x = lists h !! x) ∧
    (∀ C hdC tlC cs k,
       C ≠ A → C ≠ B →
       is_list h C hdC tlC cs k →
       (∀ l, l ∈ footprint hdC tlC cs →
             (l ∉ footprint hdA tlA as_) ∧ (l ∉ footprint hdB tlB bs)) →
       is_list h' C hdC tlC cs k ∧
       (∀ l, l ∈ footprint hdC tlC cs → nodes h' !! l = nodes h !! l)).
Proof.
  intros Hne HA HB Hdisj Hf Hb.
  destruct (merge_frame A B hdA tlA hdB tlB h as_ bs fuel HA HB Hne Hdisj Hf)
    as (h' & E & HA' & HB' & Hfr & Hx).
  assert (∀ a, a ∈ as_ → a.1 ∉ bs.*1) as Hab.
  { intros a Ha Hin. apply (Hdisj a.1); apply data_in_footprint; [|done].
    apply list_elem_of_fmap. eauto. }
  assert (∀ b, b ∈ bs → b.1 ∉ as_.*1) as Hba.
  { intros b Hb' Hin. apply (Hdisj b.1); apply data_in_footprint; [done|].
    apply list_elem_of_fmap. eauto. }
  exists h', (merge_cells ltb as_ bs). split_and!; [done| |done|..|done|done|].
  - rewrite wrap_small in HA' by lia. split; rewrite merge_cells_length; [|done].
    by replace (Z.of_nat (length as_ + length bs))
      with (Z.of_nat (length as_) + Z.of_nat (length bs))%Z by lia.
  - apply merge_cells_perm.
  - apply merge_cells_filter_l; [|done]. intros a Ha. apply list_elem_of_fmap. eauto.
  - apply merge_cells_filter_r; [done|]. intros b Hb'. apply list_elem_of_fmap. eauto.
  - intros ->. apply merge_cells_nil_r.
  - intros ->. apply merge_cells_nil_l.
  - intros C hdC tlC cs k HCA HCB [HrC HlC] Hapart.
    assert (∀ l, l ∈ footprint hdC tlC cs → nodes h' !! l = nodes h !! l) as Hsame.
    { intros l Hl. destruct (Hapart l Hl). by apply Hfr. }
    split; [|done]. split; [by rewrite Hx|]. by eapply linked_frame.
Qed.

End MergeAny.

(** * The further properties on the example lists *)

Lemma X1_witness :
  ∃ l h',
    insert 1 (Iter (Some 13%positive) (Some 1%positive)) 7%Z example_heap
    = Ok (Iter (Some l) (Some 1%positive)) h' ∧
    wf_list h' 1 10 11 ([(12%positive, 1%Z)] ++ (l, 7%Z) :: [(13%positive, 3%Z); (14%positive, 5%Z)]) ∧
    it_deref h' (Iter (Some l) (Some 1%positive)) = Ok 7%Z (Iter (Some l) (Some 1%positive)).
Proof.
  destruct (proj2 (X1_insert_contract example_heap 1%positive
              (Iter (Some 13%positive) (Some 1%positive)) 7%Z)
              10%positive 11%positive [(12%positive, 1%Z)]
              [(13%positive, 3%Z); (14%positive, 5%Z)] example_wf_A)
    as (l & h' & E & _ & Hwf & _ & Hd & _).
  - vm_compute. reflexivity.
  - reflexivity.
  - exists l, h'. exact (conj E (conj Hwf Hd)).
Defined.

Lemma X2_witness :
  insert 1 (Iter (Some 10%positive) (Some 1%positive)) 7%Z example_heap = UB.
Proof.
  exact (proj1 (X2_insert_before_head_sentinel_is_undefined example_heap 1%positive
                  10%positive 11%positive cells_A _ 7%Z (proj1 example_wf_A))).
Defined.

Lemma X3_witness :
  ∃ it h',
    insert 1 (Iter (Some 13%positive) (Some 1%positive)) 7%Z example_heap = Ok it h' ∧
    erase 1 it h' = Ok (Iter (Some 13%positive) (Some 1%positive)) example_heap.
Proof.
  apply (X3_insert_erase_round_trip example_heap 1%positive 10%positive 11%positive
           [(12%positive, 1%Z)] [(13%positive, 3%Z); (14%positive, 5%Z)] 7%Z example_wf_A).
  vm_compute. reflexivity.
Defined.

Lemma X4_witness :
  front 1 example_heap = Ok 1%Z example_heap ∧ back 1 example_heap = Ok 5%Z example_heap.
Proof.
  exact (X4_front_back_contract example_heap 1%positive 10%positive 11%positive cells_A
           example_wf_A).
Defined.

Lemma X5_witness :
  ∃ l h', push_back 1 7%Z example_heap = Ok tt h' ∧
          wf_list h' 1 10 11 (cells_A ++ [(l, 7%Z)]) ∧
          back 1 h' = Ok 7%Z h'.
Proof.
  destruct (X5_push_then_access example_heap 1%positive 10%positive 11%positive cells_A 7%Z
              example_wf_A) as [(l & h' & E & _ & Hwf & Hb & _) _].
  - vm_compute. reflexivity.
  - exists l, h'. exact (conj E (conj Hwf Hb)).
Defined.

Lemma X6_witness :
  pop_front 4 example_heap = Throw container_is_empty example_heap ∧
  ∃ h', pop_back 1 example_heap = Ok tt h' ∧
        wf_list h' 1 10 11 [(12%positive, 1%Z); (13%positive, 3%Z)] ∧
        nodes h' !! 14%positive = None.
Proof.
  split.
  - exact (proj1 (proj1 (X6_pop_contract example_heap 4%positive 40%positive 41%positive []
                           example_wf_E) eq_refl)).
  - destruct (proj2 (proj2 (X6_pop_contract example_heap 1%positive 10%positive 11%positive
                              cells_A example_wf_A))
                [(12%positive, 1%Z); (13%positive, 3%Z)] (14%positive, 5%Z) eq_refl)
      as (h' & E & Hwf & Hn & _).
    exists h'. exact (conj E (conj Hwf Hn)).
Defined.

Lemma X7_witness :
  (push_back 1 7%Z ;; pop_back 1) example_heap = Ok tt example_heap.
Proof.
  apply (X7_push_pop_round_trip example_heap 1%positive 10%positive 11%positive cells_A 7%Z
           example_wf_A).
  vm_compute. reflexivity.
Defined.

Lemma X8_witness :
  ∃ h' ds',
    run_ops 1 [PushBack 7%Z; PopFront; PopFront; PushFront 9%Z] example_heap = Ok tt h' ∧
    wf_list h' 1 10 11 ds' ∧
    ds'.*2 = [9%Z; 5%Z; 7%Z].
Proof.
  apply (X8_pushes_and_pops_act_as_a_deque example_heap 1%positive 10%positive 11%positive
           cells_A [PushBack 7%Z; PopFront; PopFront; PushFront 9%Z] example_wf_A).
  vm_compute. reflexivity.
Defined.

Lemma X9_witness :
  (list_ctor 9 ;; run_ops 9 [PushBack 1%Z; PushFront 2%Z; PopBack] ;; list_dtor 2 9) example_heap
  = Ok tt example_heap.
Proof.
  apply (X9_construct_use_destroy_leaves_no_trace example_heap 9%positive
           [PushBack 1%Z; PushFront 2%Z; PopBack] [2%Z] 2).
  - vm_compute. reflexivity.
  - reflexivity.
  - vm_compute. reflexivity.
  - simpl. lia.
Defined.

Lemma X10_witness :
  ∃ h', list_dtor 4 1 example_heap = Ok tt h' ∧
        nodes h' !! 10%positive = None ∧
        lists h' !! 1%positive = None.
Proof.
  destruct (X10_destructor_releases_every_node example_heap 1%positive 10%positive 11%positive
              cells_A 4 example_wf_A) as (h' & E & Hfreed & _ & Hgone & _).
  - simpl. lia.
  - exists h'. refine (conj E (conj (Hfreed 10%positive _) Hgone)).
    apply list_elem_of_here.
Defined.

Lemma X11_witness :
  ∃ h', clear 4 1 example_heap = Ok tt h' ∧
        wf_list h' 1 10 11 [] ∧
        size 1 h' = Ok 0%Z h' ∧
        clear 4 1 h' = Ok tt h'.
Proof.
  destruct (X11_clear_empties_the_list example_heap 1%positive 10%positive 11%positive
              cells_A 4 example_wf_A) as (h' & E & Hwf & Hs & _ & _ & _ & E2).
  - simpl. lia.
  - exists h'. exact (conj E (conj Hwf (conj Hs E2))).
Defined.

Lemma X12_witness :
  ∃ h' hd tl new,
    list_copy_ctor 4 9 1 example_heap = Ok tt h' ∧
    wf_list h' 9 hd tl new ∧
    new.*2 = [1%Z; 3%Z; 5%Z] ∧
    wf_list h' 1 10 11 cells_A.
Proof.
  destruct (X12_copy_constructor_makes_a_deep_copy example_heap 9%positive 1%positive
              10%positive 11%positive cells_A 4 example_wf_A)
    as (h' & hd & tl & new & E & Hwf & Hnew & HwfO & _).
  - discriminate.
  - simpl. lia.
  - exists h', hd, tl, new. exact (conj E (conj Hwf (conj Hnew HwfO))).
Defined.

Lemma X13_witness :
  it_pre_incr example_heap (Iter (Some 13%positive) (Some 1%positive))
  = Ok tt (Iter (Some 14%positive) (Some 1%positive)) ∧
  it_pre_decr example_heap (Iter (Some 13%positive) (Some 1%positive))
  = Ok tt (Iter (Some 12%positive) (Some 1%positive)) ∧
  it_pre_decr example_heap (Iter (Some 41%positive) (Some 4%positive))
  = Throw invalid_iterator (Iter (Some 41%positive) (Some 4%positive)).
Proof.
  destruct (proj1 (X13_iterators_walk_the_list example_heap 1%positive 10%positive 11%positive
                     cells_A example_wf_A)
              [(12%positive, 1%Z)] (13%positive, 3%Z) [(14%positive, 5%Z)] eq_refl)
    as (H1 & _ & H2 & _).
  destruct (proj2 (X13_iterators_walk_the_list example_heap 4%positive 40%positive 41%positive
                     [] example_wf_E)) as (_ & H3 & _).
  exact (conj H1 (conj H2 H3)).
Defined.

Lemma X14_witness :
  (it_pre_incr example_heap ;; it_pre_decr example_heap)
    (Iter (Some 13%positive) (Some 1%positive))
  = Ok tt (Iter (Some 13%positive) (Some 1%positive)).
Proof.
  refine (proj1 (proj1 (X14_increment_and_decrement_undo_each_other example_heap 1%positive
                          10%positive 11%positive cells_A example_wf_A)
                   (13%positive, 3%Z) _)).
  unfold cells_A. apply list_elem_of_further, list_elem_of_here.
Defined.

Lemma X15_witness :
  it_deref example_heap (Iter (Some 10%positive) (Some 1%positive))
  = Throw invalid_iterator (Iter (Some 10%positive) (Some 1%positive)) ∧
  it_pre_incr example_heap (Iter (Some 10%positive) (Some 1%positive))
  = Ok tt (Iter (Some 12%positive) (Some 1%positive)).
Proof.
  destruct (X15_position_before_begin example_heap 1%positive 10%positive 11%positive
              cells_A _ (proj1 example_wf_A)) as (b & Hb & H1 & _ & _ & _ & H2 & _).
  vm_compute in Hb. injection Hb as <-. exact (conj H1 H2).
Defined.

Lemma X16_witness :
  ∃ b e, begin 4 example_heap = Ok b example_heap ∧
         end_ 4 example_heap = Ok e example_heap ∧
         it_eq b e = true ∧
         empty 4 example_heap = Ok (it_eq b e) example_heap.
Proof.
  destruct (proj2 (X16_begin_meets_end_iff_empty example_heap 4%positive 40%positive
                     41%positive [] example_wf_E)) as (b & e & Hb & He & _ & Hiff & Hemp).
  exists b, e. exact (conj Hb (conj He (conj (proj2 Hiff eq_refl) Hemp))).
Defined.

Lemma X17_witness :
  ∃ it h',
    erase 1 (Iter (Some 13%positive) (Some 1%positive)) example_heap = Ok it h' ∧
    it_deref h' (Iter (Some 12%positive) (Some 1%positive))
    = Ok 1%Z (Iter (Some 12%positive) (Some 1%positive)) ∧
    it_deref h' (Iter (Some 13%positive) (Some 1%positive)) = UB.
Proof.
  destruct (proj2 (X17_other_iterators_survive_insert_and_erase example_heap 1%positive
                     10%positive 11%positive [(12%positive, 1%Z)] [(14%positive, 5%Z)])
              (13%positive, 3%Z) example_wf_A) as (it & h' & E & Hub & Hs).
  exists it, h'. refine (conj E (conj (proj2 (Hs (12%positive, 1%Z) _)) Hub)).
  apply list_elem_of_here.
Defined.

Lemma X18_witness :
  ∃ h', unique Z.eqb 8 3 example_heap = Ok tt h' ∧ unique Z.eqb 8 3 h' = Ok tt h'.
Proof.
  apply (X18_unique_is_idempotent Z.eqb example_heap 3%positive 30%positive 31%positive
           cells_D 8 example_wf_D).
  simpl. lia.
Defined.

Lemma X19_witness :
  ∃ e h',
    end_ 1 example_heap = Ok e example_heap ∧
    reverse 6 1 example_heap = Ok tt h' ∧
    it_pre_decr h' e = Throw invalid_iterator e ∧
    insert 1 e 7%Z h' = UB.
Proof.
  destruct (X19_end_saved_before_reverse example_heap 1%positive 10%positive 11%positive
              cells_A 6 7%Z example_wf_A) as (e & h' & He & E & _ & _ & Hd & _ & _ & Hub).
  - simpl. lia.
  - exists e, h'. exact (conj He (conj E (conj Hd Hub))).
Defined.

Lemma X20_witness :
  ∃ h' ds',
    sort Z.ltb no_sort 4 1 example_heap = Ok tt h' ∧
    wf_list h' 1 10 11 ds' ∧
    ds' ≡ₚ cells_A ∧
    Some <$> ds'.*1 = [Some 12%positive; Some 13%positive; Some 14%positive].
Proof.
  destruct (X20_sort_relinks_in_the_order_of_the_sorted_array Z.ltb no_sort example_heap
              1%positive 10%positive 11%positive cells_A 4 example_wf_A)
    as (h' & ds' & E & Hwf & Hp & Ho & _).
  - simpl. lia.
  - reflexivity.
  - exists h', ds'. refine (conj E (conj Hwf (conj Hp (Ho _)))). simpl. lia.
Defined.

Lemma X21_witness :
  ∃ h' zs,
    merge Z.ltb 7 2 1 example_heap = Ok tt h' ∧
    wf_list h' 2 20 21 zs ∧
    wf_list h' 1 10 11 [] ∧
    zs ≡ₚ cells_B ++ cells_A ∧
    is_list h' 3 30 31 cells_D 7 ∧
    nodes h' !! 33%positive = nodes example_heap !! 33%positive.
Proof.
  destruct (X21_merge_keeps_every_node Z.ltb example_heap 2%positive 1%positive
              20%positive 21%positive 10%positive 11%positive cells_B cells_A 7)
    as (h' & zs & E & HB & HA & Hp & _ & _ & _ & _ & Hfr & _ & Hthird).
  - discriminate.
  - exact example_wf_B.
  - exact example_wf_A.
  - intros l H1 H2. exact (example_disjoint_A_B l H2 H1).
  - simpl. lia.
  - vm_compute. reflexivity.
  - destruct (Hthird 3%positive 30%positive 31%positive cells_D 7%Z) as [HD _].
    + discriminate.
    + discriminate.
    + exact (proj1 example_wf_D).
    + apply Forall_forall. refine (bool_decide_unpack _ _). vm_compute. exact I.
    + exists h', zs. refine (conj E (conj HB (conj HA (conj Hp (conj HD (Hfr _ _ _)))))).
      * refine (bool_decide_unpack _ _). vm_compute. exact I.
      * refine (bool_decide_unpack _ _). vm_compute. exact I.
Defined.
